(** * amatl-action: a shallow embedding of [src/amatl.ts] and [src/main.ts]

    The action locates Markdown files, installs the [amatl] binary and
    renders every file once per requested format.  The embedding keeps the
    program's own shape:

    - JavaScript strings are [string] (sequences of 8-bit characters; the
      case and white-space functions below are the ASCII fragment of the
      JavaScript ones: they agree with them on ASCII strings, and what is
      proved about lower-casing and trimming is stated for ASCII input);
    - Node's [path] functions are modelled in their POSIX flavour, the one
      the program runs with on every platform but [win32]; what is proved
      about the place of a path is stated for those platforms;
    - [async] function bodies are programs of a small free monad [Prog]
      whose suspension points are the [await]ed library calls;
    - library calls ([@actions/*], [glob], [fetch], [string-argv], [os],
      [process]) are oracles collected in the record [Externals]; a call
      answers as a function of its arguments, so that running the same
      command twice gives the same answer; [glob] is taken to resolve and
      [GITHUB_WORKSPACE] to be set;
    - everything observable (log lines, issued calls, outputs of the
      action) is appended to a chronological trace of [Event]s;
    - [Promise.all] is a scheduler over suspended jobs, driven by an
      arbitrary list of choices; what the other jobs of a window do after
      one of them has rejected is not recorded. *)

From Stdlib Require Import String Ascii List ZArith Lia Bool.
From stdpp Require Import base gmap sets list strings pretty.
Import ListNotations.

Local Open Scope string_scope.
Local Open Scope list_scope.

(** ** JavaScript string primitives *)

Module Js.

Definition quote_char : ascii := Ascii.ascii_of_nat 34.
Definition backslash_char : ascii := Ascii.ascii_of_nat 92.
Definition newline_char : ascii := Ascii.ascii_of_nat 10.
Definition newline : string := String newline_char EmptyString.

(** [s.split(sep)] for a one-character separator.  The result is never
    empty: the empty string splits into one empty piece. *)
Fixpoint split (sep : ascii) (s : string) : list string :=
  match s with
  | EmptyString => [EmptyString]
  | String c s' =>
      if Ascii.eqb c sep then EmptyString :: split sep s'
      else match split sep s' with
           | [] => [String c EmptyString]
           | piece :: pieces => String c piece :: pieces
           end
  end.

(** [pieces.join(sep)] *)
Fixpoint join (sep : string) (pieces : list string) : string :=
  match pieces with
  | [] => EmptyString
  | [p] => p
  | p :: ps => p +:+ sep +:+ join sep ps
  end.

(** The ASCII white space removed by [trim]: TAB, LF, VT, FF, CR and
    SPACE.  ([String.prototype.trim] also removes the no-break space and
    the other Unicode spaces, which this model leaves in place.) *)
Definition is_white (c : ascii) : bool :=
  let n := Ascii.nat_of_ascii c in
  ((9 <=? n)%nat && (n <=? 13)%nat) || (n =? 32)%nat.

Fixpoint trimStart (s : string) : string :=
  match s with
  | String c s' => if is_white c then trimStart s' else s
  | EmptyString => EmptyString
  end.

Definition trim (s : string) : string :=
  String.rev (trimStart (String.rev (trimStart s))).

(** [toLowerCase] on the letters A to Z; other characters are kept. *)
Definition lower_char (c : ascii) : ascii :=
  let n := Ascii.nat_of_ascii c in
  if ((65 <=? n)%nat && (n <=? 90)%nat) then Ascii.ascii_of_nat (n + 32) else c.

Fixpoint toLowerCase (s : string) : string :=
  match s with
  | EmptyString => EmptyString
  | String c s' => String (lower_char c) (toLowerCase s')
  end.

(** [s.replace(c, '')] with a one-character pattern: only the first
    occurrence is removed. *)
Fixpoint removeFirst (c : ascii) (s : string) : string :=
  match s with
  | EmptyString => EmptyString
  | String d s' => if Ascii.eqb d c then s' else String d (removeFirst c s')
  end.

(** Truthiness of a string: only the empty string is falsy. *)
Definition truthy (s : string) : bool :=
  match s with EmptyString => false | _ => true end.

(** [s || undefined] *)
Definition orUndefined (s : string) : option string :=
  if truthy s then Some s else None.

(** Truthiness of an optional string ([undefined] and [''] are falsy). *)
Definition provided (o : option string) : bool :=
  match o with Some s => truthy s | None => false end.

(** [o || dflt] *)
Definition orElse (o : option string) (dflt : string) : string :=
  match o with
  | Some s => if truthy s then s else dflt
  | None => dflt
  end.

Definition endsWith (suffix s : string) : Prop :=
  exists front, s = front +:+ suffix.

Definition startsWith (pre s : string) : Prop :=
  exists back, s = pre +:+ back.

(** [JSON.stringify] on an array of strings. *)
Definition hex_digit (n : nat) : ascii :=
  if (n <? 10)%nat then Ascii.ascii_of_nat (48 + n) else Ascii.ascii_of_nat (87 + n).

Definition json_escape_char (c : ascii) : string :=
  let n := Ascii.nat_of_ascii c in
  let bs := String backslash_char EmptyString in
  if Ascii.eqb c quote_char then bs +:+ String quote_char EmptyString
  else if Ascii.eqb c backslash_char then bs +:+ bs
  else if (n =? 8)%nat then bs +:+ "b"
  else if (n =? 9)%nat then bs +:+ "t"
  else if (n =? 10)%nat then bs +:+ "n"
  else if (n =? 12)%nat then bs +:+ "f"
  else if (n =? 13)%nat then bs +:+ "r"
  else if (n <? 32)%nat then
    bs +:+ "u00" +:+ String (hex_digit (n / 16)) (String (hex_digit (n mod 16)) EmptyString)
  else String c EmptyString.

Fixpoint json_escape (s : string) : string :=
  match s with
  | EmptyString => EmptyString
  | String c s' => json_escape_char c +:+ json_escape s'
  end.

Definition json_string (s : string) : string :=
  String quote_char (json_escape s +:+ String quote_char EmptyString).

Definition JSON_stringify (l : list string) : string :=
  "[" +:+ join "," (map json_string l) +:+ "]".

End Js.

(** ** Node's [path] module, POSIX flavour

    The functions follow the algorithms of Node's [path.posix]: the scans
    run from the end of the string exactly as Node's loops do. *)

Module Path.

Definition slash : ascii := "/"%char.
Definition dot : ascii := "."%char.

Definition is_slash (c : ascii) : bool := Ascii.eqb c slash.

Definition isAbsolute (p : string) : bool :=
  match p with String c _ => is_slash c | EmptyString => false end.

Definition hasTrailingSlash (p : string) : bool :=
  match String.rev p with String c _ => is_slash c | EmptyString => false end.

(** [normalizeString]: resolves [.] and [..] segments, left to right.
    [stack] holds the segments kept so far, last one first. *)
Fixpoint normalizeSegments (allowAboveRoot : bool) (stack segs : list string)
  : list string :=
  match segs with
  | [] => rev stack
  | seg :: rest =>
      if String.eqb seg EmptyString || String.eqb seg "." then
        normalizeSegments allowAboveRoot stack rest
      else if String.eqb seg ".." then
        match stack with
        | top :: below =>
            if String.eqb top ".." then
              normalizeSegments allowAboveRoot
                (if allowAboveRoot then ".." :: stack else stack) rest
            else normalizeSegments allowAboveRoot below rest
        | [] =>
            normalizeSegments allowAboveRoot
              (if allowAboveRoot then [".."] else []) rest
        end
      else normalizeSegments allowAboveRoot (seg :: stack) rest
  end.

Definition normalizeString (p : string) (allowAboveRoot : bool) : string :=
  Js.join "/" (normalizeSegments allowAboveRoot [] (Js.split slash p)).

Definition normalize (p : string) : string :=
  match p with
  | EmptyString => "."
  | _ =>
      let isAbs := isAbsolute p in
      let trailing := hasTrailingSlash p in
      let body := normalizeString p (negb isAbs) in
      match body with
      | EmptyString => if isAbs then "/" else if trailing then "./" else "."
      | _ =>
          (if isAbs then "/" else EmptyString) +:+ body +:+
          (if trailing then "/" else EmptyString)
      end
  end.

(** [path.join(...parts)]: the non-empty arguments joined by [/], then
    normalised. *)
Definition join (parts : list string) : string :=
  match filter (fun p => Js.truthy p = true) parts with
  | [] => "."
  | kept => normalize (Js.join "/" kept)
  end.

(** Scan of [basename] without suffix: [rpath] is the path reversed;
    the result is the last segment, reversed, trailing slashes skipped. *)
Fixpoint lastSegmentRev (rpath : string) (matchedSlash : bool) : string :=
  match rpath with
  | EmptyString => EmptyString
  | String c rest =>
      if is_slash c then
        if matchedSlash then lastSegmentRev rest true else EmptyString
      else String c (lastSegmentRev rest false)
  end.

Definition lastSegment (p : string) : string :=
  String.rev (lastSegmentRev (String.rev p) true).

Fixpoint dropSuffixRev (rsuffix rname : string) : option string :=
  match rsuffix, rname with
  | EmptyString, _ => Some rname
  | String a rs, String b rn =>
      if Ascii.eqb a b then dropSuffixRev rs rn else None
  | String _ _, EmptyString => None
  end.

(** [path.basename(p, suffix)].  A suffix equal to the whole path gives
    the empty string; a suffix equal to the whole last segment, or one
    that does not end it, leaves the segment as it is. *)
Definition basename (p suffix : string) : string :=
  let name := lastSegment p in
  match suffix with
  | EmptyString => name
  | _ =>
      if String.eqb suffix p then EmptyString
      else match dropSuffixRev (String.rev suffix) (String.rev name) with
           | Some EmptyString => name
           | Some rstem => String.rev rstem
           | None => name
           end
  end.

(** Position of the last dot of [name] counted from the end, if any:
    [rname] is the name reversed, the result the reversed extension
    without its dot. *)
Fixpoint untilDotRev (rname : string) : option string :=
  match rname with
  | EmptyString => None
  | String c rest =>
      if Ascii.eqb c dot then Some EmptyString
      else match untilDotRev rest with
           | Some e => Some (String c e)
           | None => None
           end
  end.

(** [path.extname(p)]: from the last dot of the last segment to its end;
    empty when there is no dot, when the dot opens the segment, and for
    the segment [..]. *)
Definition extname (p : string) : string :=
  let name := lastSegment p in
  match untilDotRev (String.rev name) with
  | None => EmptyString
  | Some rext =>
      let ext := String dot (String.rev rext) in
      if String.eqb ext name then EmptyString
      else if String.eqb name ".." then EmptyString
      else ext
  end.

(** The loop of [path.dirname]: index [i] runs from the last character
    down to 1 over the reversed path; the answer is the index of the
    slash that ends the directory part. *)
Fixpoint dirnameScan (rpath : string) (i : nat) (matchedSlash : bool)
  : option nat :=
  match rpath, i with
  | String c rest, S i' =>
      if is_slash c then
        if matchedSlash then dirnameScan rest i' true else Some i
      else dirnameScan rest i' false
  | _, _ => None
  end.

Definition dirname (p : string) : string :=
  match p with
  | EmptyString => "."
  | _ =>
      let hasRoot := isAbsolute p in
      match dirnameScan (String.rev p) (String.length p - 1) true with
      | None => if hasRoot then "/" else "."
      | Some e =>
          if hasRoot && (e =? 1)%nat then "//" else String.substring 0 e p
      end
  end.

(** Segments of [path.resolve(p)] below the root, for the working
    directory [cwd] (an absolute path). *)
Definition resolveSegments (cwd p : string) : list string :=
  let full := if isAbsolute p then p else cwd +:+ "/" +:+ p in
  normalizeSegments false [] (Js.split slash full).

Definition resolve (cwd p : string) : string :=
  "/" +:+ Js.join "/" (resolveSegments cwd p).

Fixpoint dropCommon (from to : list string) : list string * list string :=
  match from, to with
  | f :: from', t :: to' =>
      if String.eqb f t then dropCommon from' to' else (from, to)
  | _, _ => (from, to)
  end.

(** [path.relative(from, to)] *)
Definition relative (cwd from to : string) : string :=
  if String.eqb from to then EmptyString
  else
    let '(up, down) :=
      dropCommon (resolveSegments cwd from) (resolveSegments cwd to) in
    Js.join "/" (map (fun _ => "..") up ++ down).

(** The segments of the normal form of a path. *)
Definition segments (p : string) : list string :=
  normalizeSegments (negb (isAbsolute p)) [] (Js.split slash p).

(** A segment that [normalizeString] does not skip. *)
Definition keptSegment (seg : string) : bool :=
  negb (String.eqb seg EmptyString || String.eqb seg ".").

End Path.

(** ** Errors, library calls and the trace *)

(** A thrown JavaScript value: an [Error] object with its message, or any
    other value (shown by its string form). *)
Inductive JsError :=
| JsErr (name message : string)
| JsThrown (value : string).

(** [new Error(message)] *)
Definition newError (message : string) : JsError := JsErr "Error" message.

(** The text of a thrown value inside a template literal:
    [Error.prototype.toString] for an [Error] (the name alone when the
    message is empty, the message alone when the name is), the string form
    of any other value. *)
Definition showError (e : JsError) : string :=
  match e with
  | JsErr n m =>
      if Js.truthy n then (if Js.truthy m then n +:+ ": " +:+ m else n) else m
  | JsThrown v => v
  end.

Inductive result (A : Type) :=
| Ok (a : A)
| Err (e : JsError).
Arguments Ok {A} a.
Arguments Err {A} e.

(** The options object handed to [glob]. *)
Module GlobOptions.
Record t := { ignore : list string; nodir : bool }.
End GlobOptions.

(** What [response.json()] yields, as far as the program looks at it: the
    value [null], or an object whose [tag_name] is a string or is missing. *)
Inductive JsonValue :=
| JNull
| JObject (tag_name : option string).

Definition Response := string.

(** The awaited library calls, indexed by the type of what they resolve to. *)
Inductive Op : Type -> Type :=
| MkdirP (dir : string) : Op unit
| Exec (commandLine : string) (args : list string) : Op unit
| Glob (pattern : string) (options : GlobOptions.t) : Op (list string)
| Fetch (url : string) : Op Response
| ResponseJson (r : Response) : Op JsonValue
| DownloadTool (url : string) : Op string
| ExtractTar (file flags : string) : Op string
| CacheDir (sourceDir tool version : string) : Op string.

Inductive Call :=
| CallMkdirP (dir : string)
| CallExec (commandLine : string) (args : list string)
| CallGlob (pattern : string) (options : GlobOptions.t)
| CallFetch (url : string)
| CallJson
| CallDownloadTool (url : string)
| CallExtractTar (file flags : string)
| CallCacheDir (sourceDir tool version : string).

Definition callOf {R} (op : Op R) : Call :=
  match op with
  | MkdirP d => CallMkdirP d
  | Exec c a => CallExec c a
  | Glob p o => CallGlob p o
  | Fetch u => CallFetch u
  | ResponseJson _ => CallJson
  | DownloadTool u => CallDownloadTool u
  | ExtractTar f fl => CallExtractTar f fl
  | CacheDir d t v => CallCacheDir d t v
  end.

Inductive Event :=
| LogInfo (msg : string)
| LogWarning (msg : string)
| LogError (msg : string)
| SetOutput (name value : string)
| SetFailed (msg : string)
| Issued (c : Call)
| JointWait (jobs : nat).

Definition Trace := list Event.

(** The host and the libraries.  Every awaited call answers as a function
    of its arguments. *)
Record Externals := {
  platform : string;                       (* process.platform *)
  arch : string;                           (* process.arch *)
  cwd : string;                            (* process.cwd() *)
  workspace : string;                      (* process.env.GITHUB_WORKSPACE *)
  cpus : nat;                              (* os.cpus().length *)
  getInput : string -> string;             (* core.getInput *)
  tc_find : string -> string -> string;    (* tc.find *)
  stringArgv : string -> list string;      (* string-argv *)
  io_mkdirP : string -> result unit;
  exec_exec : string -> list string -> result unit;
  glob : string -> GlobOptions.t -> list string;
  fetch : string -> result Response;
  response_json : Response -> result JsonValue;
  tc_downloadTool : string -> result string;
  tc_extractTar : string -> string -> result string;
  tc_cacheDir : string -> string -> string -> result string
}.

Definition perform (E : Externals) {R} (op : Op R) : result R :=
  match op in Op T return result T with
  | MkdirP d => io_mkdirP E d
  | Exec c a => exec_exec E c a
  | Glob p o => Ok (glob E p o)
  | Fetch u => fetch E u
  | ResponseJson r => response_json E r
  | DownloadTool u => tc_downloadTool E u
  | ExtractTar f fl => tc_extractTar E f fl
  | CacheDir d t v => tc_cacheDir E d t v
  end.

(** ** Programs: bodies of [async] functions *)

Inductive Prog (A : Type) : Type :=
| Ret (a : A)
| Throw (e : JsError)
| Emit (ev : Event) (k : Prog A)
| Await {R : Type} (op : Op R) (k : result R -> Prog A).
Arguments Ret {A} a.
Arguments Throw {A} e.
Arguments Emit {A} ev k.
Arguments Await {A R} op k.

Fixpoint bind {A B} (p : Prog A) (f : A -> Prog B) : Prog B :=
  match p with
  | Ret a => f a
  | Throw e => Throw e
  | Emit ev k => Emit ev (bind k f)
  | Await op k => Await op (fun r => bind (k r) f)
  end.

#[global] Instance prog_ret : MRet Prog := @Ret.
#[global] Instance prog_bind : MBind Prog := fun A B f p => bind p f.

(** [try { body } catch (error) { handler }] *)
Fixpoint tryCatch {A} (body : Prog A) (handler : JsError -> Prog A) : Prog A :=
  match body with
  | Ret a => Ret a
  | Throw e => handler e
  | Emit ev k => Emit ev (tryCatch k handler)
  | Await op k => Await op (fun r => tryCatch (k r) handler)
  end.

(** [await op]: a rejection is rethrown at the [await]. *)
Definition await {R} (op : Op R) : Prog R :=
  Await op (fun r => match r with Ok x => Ret x | Err e => Throw e end).

(** Running a program alone, from start to end. *)
Fixpoint interp (E : Externals) {A} (p : Prog A) (t : Trace) : Trace * result A :=
  match p with
  | Ret a => (t, Ok a)
  | Throw e => (t, Err e)
  | Emit ev k => interp E k (t ++ [ev])
  | Await op k => interp E (k (perform E op)) (t ++ [Issued (callOf op)])
  end.

(** The top level threads the trace and an error through its steps. *)
Definition M (A : Type) : Type := Trace -> Trace * result A.

#[global] Instance m_ret : MRet M := fun A a t => (t, Ok a).
#[global] Instance m_bind : MBind M := fun A B f m t =>
  match m t with
  | (t', Ok a) => f a t'
  | (t', Err e) => (t', Err e)
  end.

Definition say (ev : Event) : M unit := fun t => (t ++ [ev], Ok tt).
Definition sayAll (events : list Event) : M unit := fun t => (t ++ events, Ok tt).
Definition liftResult {A} (r : result A) : M A := fun t => (t, r).

(** ** [src/amatl.ts] *)

Module AmatlOptions.
Record t := {
  patterns : string;
  ignore : string;
  outputDir : string;
  format : string;
  layout : option string;
  vars : option string;
  version : string;
  config : option string;
  additionalArgs : option string
}.
End AmatlOptions.

Module ProcessResult.
Record t := { filesProcessed : nat; outputFiles : list string }.
End ProcessResult.

(** *** installAmatl *)

(** The [switch (platform)] of [installAmatl]. *)
Definition osNameOf (platform : string) : Prog string :=
  if String.eqb platform "linux" then Ret "linux"
  else if String.eqb platform "darwin" then Ret "darwin"
  else if String.eqb platform "win32" then Ret "windows"
  else Throw (newError ("Unsupported platform: " +:+ platform)).

(** The [switch (arch)] of [installAmatl]. *)
Definition archNameOf (arch : string) : Prog string :=
  if String.eqb arch "x64" then Ret "amd64"
  else if String.eqb arch "arm64" then Ret "arm64"
  else Throw (newError ("Unsupported architecture: " +:+ arch)).

Definition latestReleaseUrl : string :=
  "https://api.github.com/repos/Bornholm/amatl/releases/latest".

(** The result is a JavaScript value: [None] is [undefined] (or anything
    that is not a string), which [data.tag_name] may well be. *)
Definition getLatestAmatlVersion : Prog (option string) :=
  tryCatch
    (response ← await (Fetch latestReleaseUrl);
     data ← await (ResponseJson response);
     match data with
     | JObject tag_name => Ret tag_name
     | JNull =>
         Throw (JsErr "TypeError" "Cannot read properties of null (reading 'tag_name')")
     end)
    (fun error =>
       Emit (LogWarning ("Failed to get latest version, using v0.25.1: "
                         +:+ showError error))
         (Ret (Some "v0.25.1"))).

Definition downloadUrlOf (actualVersion osName archName : string) : string :=
  "https://github.com/Bornholm/amatl/releases/download/" +:+ actualVersion
  +:+ "/amatl_" +:+ Js.removeFirst "v" actualVersion
  +:+ "_" +:+ osName +:+ "_" +:+ archName +:+ ".tar.gz".

Definition installAmatl (E : Externals) (version : string) : Prog string :=
  Emit (LogInfo ("Installing amatl version: " +:+ version)) (
  (* Check if amatl is already installed and cached *)
  let toolPath := tc_find E "amatl" version in
  if Js.truthy toolPath then
    Emit (LogInfo ("Found cached amatl at " +:+ toolPath))
      (Ret (Path.join [toolPath; "amatl"]))
  else
    (* Determine platform and architecture *)
    osName ← osNameOf (platform E);
    archName ← archNameOf (arch E);
    (* Get the latest version if 'latest' is specified *)
    actualVersion ← (if String.eqb version "latest"
                     then getLatestAmatlVersion else Ret (Some version));
    match actualVersion with
    | None =>
        Throw (JsErr "TypeError"
                 "Cannot read properties of undefined (reading 'replace')")
    | Some actualVersion =>
        (* Download amatl *)
        let downloadUrl := downloadUrlOf actualVersion osName archName in
        Emit (LogInfo ("Downloading amatl from: " +:+ downloadUrl)) (
        downloadPath ← await (DownloadTool downloadUrl);
        extractedPath ← await (ExtractTar downloadPath "xz");
        (* Cache the tool *)
        toolPath ← await (CacheDir extractedPath "amatl" actualVersion);
        let binaryPath :=
          Path.join [toolPath;
                     if String.eqb (platform E) "win32" then "amatl.exe" else "amatl"] in
        (* Make binary executable on Unix systems *)
        (if negb (String.eqb (platform E) "win32")
         then await (Exec "chmod" ["+x"; binaryPath]) else Ret tt);;
        Emit (LogInfo ("amatl installed successfully at " +:+ binaryPath))
          (Ret binaryPath))
    end).

(** *** findMarkdownFiles *)

Definition globOptions : GlobOptions.t :=
  {| GlobOptions.ignore := ["node_modules/**"; ".git/**"];
     GlobOptions.nodir := true |}.

(** The callback of [matches.filter], with its log lines. *)
Fixpoint keepMatches (E : Externals) (ignoredFiles : gset string)
  (matches : list string) : Prog (list string) :=
  match matches with
  | [] => Ret []
  | m :: rest =>
      let relPath := Path.relative (cwd E) (workspace E) m in
      let ignored := bool_decide (relPath ∈ ignoredFiles) in
      if ignored then
        Emit (LogInfo ("Ignoring markdown file '" +:+ relPath +:+ "'"))
          (keepMatches E ignoredFiles rest)
      else
        kept ← keepMatches E ignoredFiles rest;
        Ret (m :: kept)
  end.

(** The [for (const pattern of ...)] loop; [files] is the array being
    filled. *)
Fixpoint searchPatterns (E : Externals) (ignoredFiles : gset string)
  (patterns files : list string) : Prog (list string) :=
  match patterns with
  | [] => Ret files
  | pattern :: rest =>
      Emit (LogInfo ("Searching for markdown files with pattern: " +:+ pattern)) (
      matches ← await (Glob pattern globOptions);
      matches ← keepMatches E ignoredFiles matches;
      searchPatterns E ignoredFiles rest (files ++ matches))
  end.

Definition findMarkdownFiles (E : Externals) (patterns ignore : string)
  : Prog (list string) :=
  let files := [] in
  let ignoredFiles : gset string := list_to_set (Js.split Js.newline_char ignore) in
  files ← searchPatterns E ignoredFiles (Js.split Js.newline_char patterns) files;
  Emit (LogInfo ("Found " +:+ pretty (length files) +:+ " markdown files"))
    (Ret files).

(** *** processMarkdownFile *)

Definition formatsOf (options : AmatlOptions.t) : list string :=
  map Js.trim (Js.split "," (Js.toLowerCase (AmatlOptions.format options))).

Definition baseNameOf (file : string) : string :=
  Path.basename file (Path.extname file).

Definition outputSubDirOf (E : Externals) (options : AmatlOptions.t)
  (file : string) : string :=
  let relativePath := Path.relative (cwd E) (cwd E) file in
  Path.join [AmatlOptions.outputDir options; Path.dirname relativePath].

Definition outputFileOf (E : Externals) (options : AmatlOptions.t)
  (file format : string) : string :=
  Path.join [outputSubDirOf E options file;
             baseNameOf file +:+ "." +:+
             (if String.eqb format "markdown" then "md" else format)].

(** [if (value) { args.push(...) }] for an optional string. *)
Definition pushIfProvided (value : option string)
  (pushed : string -> list string) (args : list string) : list string :=
  match value with
  | Some v => if Js.truthy v then args ++ pushed v else args
  | None => args
  end.

(** The argument array built for one format. *)
Definition renderArgs (E : Externals) (options : AmatlOptions.t)
  (file format : string) : list string :=
  let outputFile := outputFileOf E options file format in
  let args := ["render"] in
  let args := pushIfProvided (AmatlOptions.config options)
                (fun config => ["-c"; config]) args in
  let args := args ++ [format; "-o"; outputFile] in
  (* Add layout option for HTML and PDF *)
  let args :=
    if String.eqb format "html" || String.eqb format "pdf"
    then pushIfProvided (AmatlOptions.layout options)
           (fun layout => ["--html-layout"; layout]) args
    else args in
  (* Add variables file if provided *)
  let args := pushIfProvided (AmatlOptions.vars options)
                (fun vars => ["--vars"; vars]) args in
  let args := pushIfProvided (AmatlOptions.additionalArgs options)
                (fun additionalArgs => stringArgv E additionalArgs) args in
  (* Add input file *)
  args ++ [file].

(** The [for (const format of formats)] loop; [outputFiles] is the array
    being filled. *)
Fixpoint renderFormats (E : Externals) (amatlPath file : string)
  (options : AmatlOptions.t) (formats outputFiles : list string)
  : Prog (list string) :=
  match formats with
  | [] => Ret outputFiles
  | format :: rest =>
      let outputFile := outputFileOf E options file format in
      let args := renderArgs E options file format in
      outputFiles ←
        tryCatch
          (await (Exec amatlPath args);;
           Emit (LogInfo ("Generated: " +:+ outputFile))
             (Ret (outputFiles ++ [outputFile])))
          (fun error =>
             Emit (LogError ("Failed to process " +:+ file +:+ " to " +:+ format
                             +:+ ": " +:+ showError error))
               (Throw error));
      renderFormats E amatlPath file options rest outputFiles
  end.

Definition processMarkdownFile (E : Externals) (amatlPath file : string)
  (options : AmatlOptions.t) : Prog ProcessResult.t :=
  let outputFiles := [] in
  Emit (LogInfo ("Processing: " +:+ file)) (
  let outputSubDir := outputSubDirOf E options file in
  (* Ensure subdirectory exists *)
  await (MkdirP outputSubDir);;
  (* Process for each requested format *)
  let formats := formatsOf options in
  outputFiles ← renderFormats E amatlPath file options formats outputFiles;
  Ret {| ProcessResult.filesProcessed := 1;
         ProcessResult.outputFiles := outputFiles |}).

(** *** Promise.all over started jobs

    Calling an [async] function runs its body up to the first [await]:
    the awaited call is issued and the job suspends there.  A suspended
    job is a program whose head is the [Await] it waits at. *)

Fixpoint advance {A} (p : Prog A) (t : Trace) : Trace * Prog A :=
  match p with
  | Emit ev k => advance k (t ++ [ev])
  | Await op _ => (t ++ [Issued (callOf op)], p)
  | _ => (t, p)
  end.

(** The awaited call of a suspended job completes; the job runs on to its
    next suspension point or to its end. *)
Definition resume (E : Externals) {A} (p : Prog A) (t : Trace) : Trace * Prog A :=
  match p with
  | Await op k => advance (k (perform E op)) t
  | _ => advance p t
  end.

(** A suspended job run on alone to its end. *)
Definition finish (E : Externals) {A} (p : Prog A) (t : Trace) : Trace * result A :=
  match p with
  | Await op k => interp E (k (perform E op)) t
  | _ => interp E p t
  end.

Definition isPending {A} (p : Prog A) : bool :=
  match p with
  | Ret _ | Throw _ => false
  | _ => true
  end.

(** The rejection [Promise.all] reports among already settled jobs. *)
Fixpoint firstRejection {A} (jobs : list (Prog A)) : option JsError :=
  match jobs with
  | [] => None
  | Throw e :: _ => Some e
  | _ :: rest => firstRejection rest
  end.

(** The values of the jobs, in array order, once all are fulfilled. *)
Fixpoint allFulfilled {A} (jobs : list (Prog A)) : option (list A) :=
  match jobs with
  | [] => Some []
  | Ret a :: rest =>
      match allFulfilled rest with
      | Some values => Some (a :: values)
      | None => None
      end
  | _ :: _ => None
  end.

(** Positions of the jobs that are still running. *)
Fixpoint pendingFrom {A} (i : nat) (jobs : list (Prog A)) : list nat :=
  match jobs with
  | [] => []
  | p :: rest =>
      if isPending p then i :: pendingFrom (S i) rest else pendingFrom (S i) rest
  end.

(** Out of choices: the remaining jobs complete one after the other. *)
Fixpoint finishAll (E : Externals) {A} (jobs : list (Prog A)) (t : Trace)
  : Trace * result (list A) :=
  match jobs with
  | [] => (t, Ok [])
  | p :: rest =>
      match finish E p t with
      | (t', Ok a) =>
          match finishAll E rest t' with
          | (t'', Ok values) => (t'', Ok (a :: values))
          | (t'', Err e) => (t'', Err e)
          end
      | (t', Err e) => (t', Err e)
      end
  end.

(** [await Promise.all(jobs)].  Each number of [sched] picks which of the
    running jobs has its awaited call complete next, so the lists of
    numbers range over all interleavings and completion orders.  The
    promise rejects as soon as one job has rejected, and is fulfilled with
    the values in array order once every job is.  The unused choices are
    handed back. *)
Fixpoint awaitAll (E : Externals) {A} (sched : list nat) (jobs : list (Prog A))
  (t : Trace) : Trace * list nat * result (list A) :=
  match firstRejection jobs with
  | Some e => (t, sched, Err e)
  | None =>
      match allFulfilled jobs with
      | Some values => (t, sched, Ok values)
      | None =>
          match sched with
          | [] => let '(t', r) := finishAll E jobs t in (t', [], r)
          | n :: sched' =>
              let pending := pendingFrom 0 jobs in
              let i := nth (n mod length pending) pending 0 in
              match jobs !! i with
              | Some p =>
                  let '(t', p') := resume E p t in
                  awaitAll E sched' (<[i := p']> jobs) t'
              | None => awaitAll E sched' jobs t
              end
          end
      end
  end.

(** *** processMarkdownFiles *)

(** The two [for (const result of results)] loops. *)
Definition mergeResults (acc : ProcessResult.t) (results : list ProcessResult.t)
  : ProcessResult.t :=
  fold_left
    (fun acc result =>
       {| ProcessResult.filesProcessed :=
            ProcessResult.filesProcessed acc + ProcessResult.filesProcessed result;
          ProcessResult.outputFiles :=
            ProcessResult.outputFiles acc ++ ProcessResult.outputFiles result |})
    results acc.

Definition batchSizeOf (E : Externals) : Z :=
  let batchSize := (Z.of_nat (cpus E) - 1)%Z in
  if (batchSize <? 1)%Z then 1%Z else batchSize.

(** The [for (const file of files)] loop and the final wait.  [batch] is
    the array of started jobs, [acc] holds [filesProcessed] and
    [outputFiles]. *)
Fixpoint dispatch (E : Externals) (amatlPath : string) (options : AmatlOptions.t)
  (batchSize : Z) (files : list string) (batch : list (Prog ProcessResult.t))
  (acc : ProcessResult.t) (sched : list nat) (t : Trace)
  : Trace * result ProcessResult.t :=
  match files with
  | file :: rest =>
      if (Z.of_nat (length batch) <? batchSize)%Z then
        let '(t', job) := advance (processMarkdownFile E amatlPath file options) t in
        dispatch E amatlPath options batchSize rest (batch ++ [job]) acc sched t'
      else
        match awaitAll E sched batch (t ++ [JointWait (length batch)]) with
        | (t', sched', Ok results) =>
            dispatch E amatlPath options batchSize rest [] (mergeResults acc results)
              sched' t'
        | (t', _, Err e) => (t', Err e)
        end
  | [] =>
      if (0 <? length batch)%nat then
        match awaitAll E sched batch (t ++ [JointWait (length batch)]) with
        | (t', _, Ok results) => (t', Ok (mergeResults acc results))
        | (t', _, Err e) => (t', Err e)
        end
      else (t, Ok acc)
  end.

Definition processMarkdownFiles (E : Externals) (sched : list nat)
  (amatlPath : string) (files : list string) (options : AmatlOptions.t)
  : M ProcessResult.t :=
  fun t =>
    (* Ensure output directory exists *)
    match interp E (await (MkdirP (AmatlOptions.outputDir options))) t with
    | (t', Err e) => (t', Err e)
    | (t', Ok _) =>
        dispatch E amatlPath options (batchSizeOf E) files []
          {| ProcessResult.filesProcessed := 0; ProcessResult.outputFiles := [] |}
          sched t'
    end.

(** *** validateInputs *)

Fixpoint validateFormats (formats : list string) : result unit :=
  match formats with
  | [] => Ok tt
  | format :: rest =>
      if negb (bool_decide (format ∈ ["html"; "pdf"; "markdown"])) then
        Err (newError ("Invalid format: " +:+ format
                       +:+ ". Supported formats: html, pdf, markdown, both"))
      else validateFormats rest
  end.

Definition validateInputs (options : AmatlOptions.t) : result unit :=
  if negb (Js.truthy (AmatlOptions.patterns options)) then
    Err (newError "Patterns is required")
  else if negb (Js.truthy (AmatlOptions.outputDir options)) then
    Err (newError "Output directory is required")
  else validateFormats (formatsOf options).

(** ** [src/main.ts] *)

Definition readOptions (E : Externals) : AmatlOptions.t :=
  {| AmatlOptions.patterns := getInput E "patterns";
     AmatlOptions.ignore := getInput E "ignore";
     AmatlOptions.outputDir := getInput E "output-dir";
     AmatlOptions.format := getInput E "format";
     AmatlOptions.layout := Js.orUndefined (getInput E "layout");
     AmatlOptions.vars := Js.orUndefined (getInput E "vars");
     AmatlOptions.version := getInput E "amatl-version";
     AmatlOptions.config := Js.orUndefined (getInput E "config");
     AmatlOptions.additionalArgs := Js.orUndefined (getInput E "additional-args") |}.

Fixpoint logGenerated (files : list string) : M unit :=
  match files with
  | [] => mret tt
  | file :: rest => say (LogInfo ("Generated: " +:+ file));; logGenerated rest
  end.

(** The lines [run] logs about its options before doing anything. *)
Definition optionLines (options : AmatlOptions.t) : list Event :=
  [LogInfo "Starting amatl markdown processing...";
   LogInfo ("Patterns: " +:+
            Js.join ", " (Js.split Js.newline_char (AmatlOptions.patterns options)));
   LogInfo ("Output directory: " +:+ AmatlOptions.outputDir options);
   LogInfo ("Format: " +:+ AmatlOptions.format options);
   LogInfo ("Layout: " +:+ Js.orElse (AmatlOptions.layout options) "default");
   LogInfo ("Variables: " +:+ Js.orElse (AmatlOptions.vars options) "none");
   LogInfo ("Config: " +:+ Js.orElse (AmatlOptions.config options) "default");
   LogInfo ("Additional Args: " +:+
            Js.orElse (AmatlOptions.additionalArgs options) "none");
   LogInfo ("Amatl version: " +:+ AmatlOptions.version options)].

(** The [try] block of [run]. *)
Definition runBody (E : Externals) (sched : list nat) : M unit :=
  (* Get inputs *)
  let options := readOptions E in
  sayAll (optionLines options);;
  (* Validate inputs *)
  liftResult (validateInputs options);;
  (* Install amatl *)
  amatLPath ← interp E (installAmatl E (AmatlOptions.version options));
  (* Find markdown files *)
  markdownFiles ← interp E (findMarkdownFiles E (AmatlOptions.patterns options)
                              (AmatlOptions.ignore options));
  if (length markdownFiles =? 0)%nat then
    say (LogWarning "No markdown files found matching the patterns");;
    say (SetOutput "files-processed" "0");;
    say (SetOutput "output-files" "[]");;
    mret tt
  else
    (* Process markdown files *)
    result ← processMarkdownFiles E sched amatLPath markdownFiles options;
    (* Set outputs *)
    say (SetOutput "files-processed" (pretty (ProcessResult.filesProcessed result)));;
    say (SetOutput "output-files" (Js.JSON_stringify (ProcessResult.outputFiles result)));;
    say (LogInfo ("Successfully processed "
                  +:+ pretty (ProcessResult.filesProcessed result) +:+ " files"));;
    say (LogInfo ("Generated "
                  +:+ pretty (length (ProcessResult.outputFiles result))
                  +:+ " output files"));;
    (* Log output files *)
    logGenerated (ProcessResult.outputFiles result).

Definition run (E : Externals) (sched : list nat) (t : Trace) : Trace :=
  match runBody E sched t with
  | (t', Ok _) => t'
  | (t', Err (JsErr _ message)) =>
      (* Fail the workflow run if an error occurs *)
      t' ++ [SetFailed message]
  | (t', Err (JsThrown _)) => t' ++ [SetFailed "An unknown error occurred"]
  end.

(** What the runner sees at the end: the last value set for each output
    and the failure message, if any. *)
Definition outputsOf (t : Trace) : gmap string string :=
  fold_left
    (fun outputs ev =>
       match ev with
       | SetOutput name value => <[name := value]> outputs
       | _ => outputs
       end)
    t ∅.

Definition failureOf (t : Trace) : option string :=
  fold_left
    (fun failure ev =>
       match ev with
       | SetFailed msg => Some msg
       | _ => failure
       end)
    t None.

(** ** Notions used to state the properties *)

(** The value a program ends with; it depends on the answers of the
    library calls only. *)
Fixpoint outcome (E : Externals) {A} (p : Prog A) : result A :=
  match p with
  | Ret a => Ok a
  | Throw e => Err e
  | Emit _ k => outcome E k
  | Await op k => outcome E (k (perform E op))
  end.

(** The result of the job of one file. *)
Definition jobResult (E : Externals) (amatlPath : string)
  (options : AmatlOptions.t) (file : string) : result ProcessResult.t :=
  outcome E (processMarkdownFile E amatlPath file options).

Definition jobOutputs (E : Externals) (amatlPath : string)
  (options : AmatlOptions.t) (file : string) : list string :=
  match jobResult E amatlPath options file with
  | Ok r => ProcessResult.outputFiles r
  | Err _ => []
  end.

(** The windows the loop of [processMarkdownFiles] waits for, as lists of
    the files whose jobs they hold: the control flow of [dispatch] with
    the file names kept in place of the jobs. *)
Fixpoint windowsFrom (batchSize : Z) (files batch : list string)
  : list (list string) :=
  match files with
  | file :: rest =>
      if (Z.of_nat (length batch) <? batchSize)%Z
      then windowsFrom batchSize rest (batch ++ [file])
      else batch :: windowsFrom batchSize rest []
  | [] => if (0 <? length batch)%nat then [batch] else []
  end.

Definition windows (batchSize : Z) (files : list string) : list (list string) :=
  windowsFrom batchSize files [].

(** Sizes of the joint waits recorded in a trace, oldest first. *)
Fixpoint jointWaits (t : Trace) : list nat :=
  match t with
  | [] => []
  | JointWait n :: rest => n :: jointWaits rest
  | _ :: rest => jointWaits rest
  end.

(** Command lines spawned through [exec.exec], oldest first. *)
Fixpoint execCalls (t : Trace) : list (string * list string) :=
  match t with
  | [] => []
  | Issued (CallExec c a) :: rest => (c, a) :: execCalls rest
  | _ :: rest => execCalls rest
  end.

(** Options of the [glob] calls, oldest first. *)
Fixpoint globCalls (t : Trace) : list (string * GlobOptions.t) :=
  match t with
  | [] => []
  | Issued (CallGlob p o) :: rest => (p, o) :: globCalls rest
  | _ :: rest => globCalls rest
  end.

(** A program that emits only events satisfying [P]. *)
Inductive Emits (P : Event -> Prop) {A} : Prog A -> Prop :=
| Emits_Ret a : Emits P (Ret a)
| Emits_Throw e : Emits P (Throw e)
| Emits_Emit ev k : P ev -> Emits P k -> Emits P (Emit ev k)
| Emits_Await {R} (op : Op R) k :
    P (Issued (callOf op)) -> (forall r, Emits P (k r)) -> Emits P (Await op k).

Definition isLog (ev : Event) : Prop :=
  match ev with
  | LogInfo _ | LogWarning _ | LogError _ | Issued _ => True
  | _ => False
  end.

(** The platform and architecture tables, as the specification words
    them. *)
Definition osNameTable (platform : string) : option string :=
  if String.eqb platform "linux" then Some "linux"
  else if String.eqb platform "darwin" then Some "darwin"
  else if String.eqb platform "win32" then Some "windows"
  else None.

Definition archNameTable (arch : string) : option string :=
  if String.eqb arch "x64" then Some "amd64"
  else if String.eqb arch "arm64" then Some "arm64"
  else None.

(** The latest-release query fails: [fetch] rejects, or reading the body
    as JSON rejects, or the body is [null] (reading [tag_name] throws). *)
Definition metadataQueryFails (E : Externals) : Prop :=
  match fetch E latestReleaseUrl with
  | Err _ => True
  | Ok response =>
      match response_json E response with
      | Err _ | Ok JNull => True
      | Ok (JObject _) => False
      end
  end.

(** The matches of one pattern that survive the ignore set. *)
Definition keptMatches (E : Externals) (ignore pattern : string) : list string :=
  filter
    (fun m => Path.relative (cwd E) (workspace E) m
              ∉ (list_to_set (Js.split Js.newline_char ignore) : gset string))
    (glob E pattern globOptions).

(** Discovery as the specification words it: the kept matches of every
    pattern, concatenated in pattern order. *)
Definition discoverySpec (E : Externals) (patterns ignore : string) : list string :=
  concat (map (keptMatches E ignore) (Js.split Js.newline_char patterns)).

(** [glob] honours the two ignore patterns of the program: with
    [dir/**] in its ignore list it returns no path under [dir/]. *)
Definition globHonoursIgnore (E : Externals) : Prop :=
  forall pattern options m dir,
    dir ∈ ["node_modules"; ".git"] ->
    m ∈ glob E pattern options ->
    (dir +:+ "/**") ∈ GlobOptions.ignore options ->
    String.prefix (dir +:+ "/") m = false.

(** The strings of an argument array that come from the caller rather
    than from the program text. *)
Definition suppliedArgs (E : Externals) (options : AmatlOptions.t)
  (file format : string) : list string :=
  pushIfProvided (AmatlOptions.config options) (fun config => [config]) []
  ++ [format; outputFileOf E options file format]
  ++ pushIfProvided (AmatlOptions.vars options) (fun vars => [vars]) []
  ++ pushIfProvided (AmatlOptions.additionalArgs options) (stringArgv E) []
  ++ [file].

(** No character of [s] is [sep]. *)
Fixpoint lacks (sep : ascii) (s : string) : bool :=
  match s with
  | EmptyString => true
  | String c s' => negb (Ascii.eqb c sep) && lacks sep s'
  end.

(** A segment that [normalizeString] keeps as it is. *)
Definition plainSegment (seg : string) : Prop :=
  seg <> EmptyString /\ seg <> "." /\ seg <> "..".

(** [p] lies under the directory [dir]: both are absolute or both are
    relative, and the normal form of [p] continues that of [dir] without
    climbing. *)
Definition isUnder (dir p : string) : Prop :=
  Path.isAbsolute p = Path.isAbsolute dir
  /\ exists below,
       Path.segments p = Path.segments dir ++ below /\ ".." ∉ below.

(** The shape of a stack: plain segments above a block of [..], which is
    empty unless climbing above the start is allowed. *)
Definition goodSegment (seg : string) : Prop :=
  plainSegment seg /\ lacks Path.slash seg = true.

Definition StackNF (above : bool) (stack : list string) : Prop :=
  exists n top,
    stack = top ++ repeat ".." n
    /\ Forall goodSegment top
    /\ (above = false -> n = 0).

Definition ResultNF (above : bool) (segs : list string) : Prop :=
  exists n rest,
    segs = repeat ".." n ++ rest
    /\ Forall goodSegment rest
    /\ (above = false -> n = 0).


(** What the layout step of [renderArgs] pushes. *)
Definition layoutArgs (options : AmatlOptions.t) (format : string) : list string :=
  if String.eqb format "html" || String.eqb format "pdf"
  then pushIfProvided (AmatlOptions.layout options)
         (fun layout => ["--html-layout"; layout]) []
  else [].

(** The condition of the layout step. *)
Definition layoutApplies (options : AmatlOptions.t) (format : string) : bool :=
  (String.eqb format "html" || String.eqb format "pdf")
  && Js.provided (AmatlOptions.layout options).

(** Every job ends with the value at the same position. *)
Definition Fulfils (E : Externals) {A} (jobs : list (Prog A)) (values : list A)
  : Prop :=
  Forall2 (fun p a => outcome E p = Ok a) jobs values.

(** The started jobs of a batch and the files they were started for. *)
Definition JobsOf (E : Externals) (amatlPath : string) (options : AmatlOptions.t)
  (batch : list (Prog ProcessResult.t)) (batchFiles : list string) : Prop :=
  Forall2 (fun p file => outcome E p = jobResult E amatlPath options file)
    batch batchFiles
  /\ Forall (Emits isLog) batch.

(** ** Sample hosts *)

Module Demo.

Definition make (platformName archName : string) (cores : nat)
  (execFn : string -> list string -> result unit)
  (globFn : string -> GlobOptions.t -> list string)
  (fetchFn : string -> result Response) : Externals :=
  {| platform := platformName; arch := archName;
     cwd := "/ws"; workspace := "/ws"; cpus := cores;
     getInput := fun name =>
       if String.eqb name "patterns" then "*.md"
       else if String.eqb name "output-dir" then "out"
       else if String.eqb name "format" then "html"
       else if String.eqb name "amatl-version" then "latest"
       else EmptyString;
     tc_find := fun _ _ => EmptyString;
     stringArgv := String.words;
     io_mkdirP := fun _ => Ok tt;
     exec_exec := execFn;
     glob := globFn;
     fetch := fetchFn;
     response_json := fun body =>
       if String.eqb body "null" then Ok JNull
       else if String.eqb body "{}" then Ok (JObject None)
       else Ok (JObject (Some body));
     tc_downloadTool := fun _ => Ok "/tmp/download";
     tc_extractTar := fun _ _ => Ok "/tmp/extracted";
     tc_cacheDir := fun _ _ _ => Ok "/tools/amatl" |}.

Definition execOk : string -> list string -> result unit := fun _ _ => Ok tt.

(** The renderer fails on PDF output. *)
Definition execNoPdf : string -> list string -> result unit :=
  fun _ args =>
    if bool_decide ("pdf" ∈ args)
    then Err (newError "The process 'amatl' failed with exit code 1")
    else Ok tt.

(** A work tree with [a.md], [sub/b.md] and [node_modules/pkg/readme.md];
    the ignore patterns of the options are honoured by prefix. *)
Definition globTree : string -> GlobOptions.t -> list string :=
  fun pattern options =>
    let hidden := bool_decide ("node_modules/**" ∈ GlobOptions.ignore options) in
    if String.eqb pattern "*.md" then ["a.md"]
    else if String.eqb pattern "**/*.md" then
      ["a.md"; "sub/b.md"] ++ (if hidden then [] else ["node_modules/pkg/readme.md"])
    else if String.eqb pattern "node_modules/**/*.md" then
      (if hidden then [] else ["node_modules/pkg/readme.md"])
    else [].

Definition globNone : string -> GlobOptions.t -> list string := fun _ _ => [].

Definition fetchDown : string -> result Response :=
  fun _ => Err (JsErr "TypeError" "fetch failed").

Definition host : Externals := make "linux" "x64" 2 execOk globTree fetchDown.
Definition hostNoPdf : Externals := make "linux" "x64" 2 execNoPdf globTree fetchDown.
Definition hostBsd : Externals := make "freebsd" "x64" 2 execOk globTree fetchDown.
Definition hostEmpty : Externals := make "linux" "x64" 2 execOk globNone fetchDown.
Definition hostThreeCores : Externals :=
  make "linux" "x64" 3 execOk globTree fetchDown.

(** The release endpoint answers with an object that has no [tag_name]
    (an error message of the API, say). *)
Definition hostNoTag : Externals :=
  make "linux" "x64" 2 execOk globTree (fun _ => Ok "{}").

Definition options : AmatlOptions.t :=
  {| AmatlOptions.patterns := "*.md";
     AmatlOptions.ignore := EmptyString;
     AmatlOptions.outputDir := "out";
     AmatlOptions.format := "html";
     AmatlOptions.layout := Some "amatl://document.html";
     AmatlOptions.vars := None;
     AmatlOptions.version := "latest";
     AmatlOptions.config := None;
     AmatlOptions.additionalArgs := None |}.

Definition withFormat (format : string) (o : AmatlOptions.t) : AmatlOptions.t :=
  {| AmatlOptions.patterns := AmatlOptions.patterns o;
     AmatlOptions.ignore := AmatlOptions.ignore o;
     AmatlOptions.outputDir := AmatlOptions.outputDir o;
     AmatlOptions.format := format;
     AmatlOptions.layout := AmatlOptions.layout o;
     AmatlOptions.vars := AmatlOptions.vars o;
     AmatlOptions.version := AmatlOptions.version o;
     AmatlOptions.config := AmatlOptions.config o;
     AmatlOptions.additionalArgs := AmatlOptions.additionalArgs o |}.

Definition withAdditionalArgs (extra : string) (o : AmatlOptions.t)
  : AmatlOptions.t :=
  {| AmatlOptions.patterns := AmatlOptions.patterns o;
     AmatlOptions.ignore := AmatlOptions.ignore o;
     AmatlOptions.outputDir := AmatlOptions.outputDir o;
     AmatlOptions.format := AmatlOptions.format o;
     AmatlOptions.layout := AmatlOptions.layout o;
     AmatlOptions.vars := AmatlOptions.vars o;
     AmatlOptions.version := AmatlOptions.version o;
     AmatlOptions.config := AmatlOptions.config o;
     AmatlOptions.additionalArgs := Some extra |}.

End Demo.

(** ** Further notions *)

(** The formats [validateInputs] lets through. *)
Definition supportedFormats : list string := ["html"; "pdf"; "markdown"].

(** Every character of the string passes the test. *)
Fixpoint allChars (test : ascii -> bool) (s : string) : bool :=
  match s with
  | EmptyString => true
  | String c s' => test c && allChars test s'
  end.

(** The string is made of ASCII characters. *)
Definition isAscii (s : string) : bool :=
  allChars (fun c => (Ascii.nat_of_ascii c <? 128)%nat) s.

(** One of the letters A to Z. *)
Definition isUpper (c : ascii) : bool :=
  ((65 <=? Ascii.nat_of_ascii c)%nat && (Ascii.nat_of_ascii c <=? 90)%nat).

(** The string holds none of the letters A to Z. *)
Definition lacksUpper (s : string) : bool :=
  allChars (fun c => negb (isUpper c)) s.

(** The string starts with one of the ASCII white-space characters. *)
Definition startsWhite (s : string) : bool :=
  match s with
  | String c _ => Js.is_white c
  | EmptyString => false
  end.

(** The version [installAmatl] goes on with after its first log line, and
    the trace at that point: the answer of the release query for
    ["latest"], the given version otherwise. *)
Definition resolved (E : Externals) (version : string) (t : Trace)
  : Trace * result (option string) :=
  if String.eqb version "latest"
  then interp E getLatestAmatlVersion
         (t ++ [LogInfo ("Installing amatl version: " +:+ version)])
  else (t ++ [LogInfo ("Installing amatl version: " +:+ version)], Ok (Some version)).

(** The path [installAmatl] returns after a fresh installation. *)
Definition binaryPathOf (E : Externals) (toolPath : string) : string :=
  Path.join [toolPath;
             if String.eqb (platform E) "win32" then "amatl.exe" else "amatl"].

(** An event other than a call to the release API. *)
Definition offline (ev : Event) : Prop :=
  match ev with
  | Issued (CallFetch _) | Issued CallJson => False
  | _ => True
  end.

(** The events of rendering [formats] one after the other, all with
    success. *)
Definition rendered (E : Externals) (amatlPath : string) (options : AmatlOptions.t)
  (file : string) (formats : list string) : list Event :=
  flat_map
    (fun format =>
       [Issued (CallExec amatlPath (renderArgs E options file format));
        LogInfo ("Generated: " +:+ outputFileOf E options file format)])
    formats.

(** The renderer succeeds on [file] for [format]. *)
Definition renders (E : Externals) (amatlPath : string) (options : AmatlOptions.t)
  (file format : string) : Prop :=
  exec_exec E amatlPath (renderArgs E options file format) = Ok tt.

(** What [processMarkdownFiles] may add to the trace for the files
    [files]: log lines, joint waits, the creation of the output directory
    or of the mirrored subdirectory of a listed file, and the renderer
    spawned on a listed file for a requested format. *)
Definition processingEvent (E : Externals) (amatlPath : string)
  (options : AmatlOptions.t) (files : list string) (ev : Event) : Prop :=
  match ev with
  | LogInfo _ | LogWarning _ | LogError _ | JointWait _ => True
  | Issued (CallMkdirP dir) =>
      dir = AmatlOptions.outputDir options
      \/ exists file, file ∈ files /\ dir = outputSubDirOf E options file
  | Issued (CallExec commandLine args) =>
      commandLine = amatlPath
      /\ exists file format,
           file ∈ files /\ format ∈ formatsOf options
           /\ args = renderArgs E options file format
  | _ => False
  end.

(** An event that reports nothing to the runner. *)
Definition quiet (ev : Event) : Prop :=
  match ev with
  | SetOutput _ _ | SetFailed _ => False
  | _ => True
  end.

(** The output paths of the job of [file], one per requested format. *)
Definition outputsFor (E : Externals) (options : AmatlOptions.t) (file : string)
  : list string :=
  map (outputFileOf E options file) (formatsOf options).

(** The log lines for the matches of one pattern that are dropped. *)
Definition ignoredLines (E : Externals) (ignore : string) (matches : list string)
  : list Event :=
  map (fun m => LogInfo ("Ignoring markdown file '"
                         +:+ Path.relative (cwd E) (workspace E) m +:+ "'"))
    (filter
       (fun m => Path.relative (cwd E) (workspace E) m
                 ∈ (list_to_set (Js.split Js.newline_char ignore) : gset string))
       matches).

(** What the search for one pattern adds to the trace. *)
Definition searchEvents (E : Externals) (ignore pattern : string) : list Event :=
  [LogInfo ("Searching for markdown files with pattern: " +:+ pattern);
   Issued (CallGlob pattern globOptions)]
  ++ ignoredLines E ignore (glob E pattern globOptions).

(** The message [run] reports for a thrown value. *)
Definition failureMessage (e : JsError) : string :=
  match e with
  | JsErr _ message => message
  | JsThrown _ => "An unknown error occurred"
  end.

(** The outputs and failures reported in a trace, oldest first. *)
Fixpoint reportsOf (t : Trace) : list Event :=
  match t with
  | [] => []
  | SetOutput name value :: rest => SetOutput name value :: reportsOf rest
  | SetFailed msg :: rest => SetFailed msg :: reportsOf rest
  | _ :: rest => reportsOf rest
  end.

(** Sample hosts that differ from a given one in one component. *)
Module Hosts.

Definition withPlatform (platformName : string) (E : Externals) : Externals :=
  {| platform := platformName; arch := arch E; cwd := cwd E;
     workspace := workspace E; cpus := cpus E; getInput := getInput E;
     tc_find := tc_find E; stringArgv := stringArgv E; io_mkdirP := io_mkdirP E;
     exec_exec := exec_exec E; glob := glob E; fetch := fetch E;
     response_json := response_json E; tc_downloadTool := tc_downloadTool E;
     tc_extractTar := tc_extractTar E; tc_cacheDir := tc_cacheDir E |}.

Definition withCache (find : string -> string -> string) (E : Externals)
  : Externals :=
  {| platform := platform E; arch := arch E; cwd := cwd E;
     workspace := workspace E; cpus := cpus E; getInput := getInput E;
     tc_find := find; stringArgv := stringArgv E; io_mkdirP := io_mkdirP E;
     exec_exec := exec_exec E; glob := glob E; fetch := fetch E;
     response_json := response_json E; tc_downloadTool := tc_downloadTool E;
     tc_extractTar := tc_extractTar E; tc_cacheDir := tc_cacheDir E |}.

Definition withExtractTar (extract : string -> string -> result string)
  (E : Externals) : Externals :=
  {| platform := platform E; arch := arch E; cwd := cwd E;
     workspace := workspace E; cpus := cpus E; getInput := getInput E;
     tc_find := tc_find E; stringArgv := stringArgv E; io_mkdirP := io_mkdirP E;
     exec_exec := exec_exec E; glob := glob E; fetch := fetch E;
     response_json := response_json E; tc_downloadTool := tc_downloadTool E;
     tc_extractTar := extract; tc_cacheDir := tc_cacheDir E |}.

Definition withMkdirP (mkdirP : string -> result unit) (E : Externals)
  : Externals :=
  {| platform := platform E; arch := arch E; cwd := cwd E;
     workspace := workspace E; cpus := cpus E; getInput := getInput E;
     tc_find := tc_find E; stringArgv := stringArgv E; io_mkdirP := mkdirP;
     exec_exec := exec_exec E; glob := glob E; fetch := fetch E;
     response_json := response_json E; tc_downloadTool := tc_downloadTool E;
     tc_extractTar := tc_extractTar E; tc_cacheDir := tc_cacheDir E |}.

Definition withExec (exec : string -> list string -> result unit)
  (E : Externals) : Externals :=
  {| platform := platform E; arch := arch E; cwd := cwd E;
     workspace := workspace E; cpus := cpus E; getInput := getInput E;
     tc_find := tc_find E; stringArgv := stringArgv E; io_mkdirP := io_mkdirP E;
     exec_exec := exec; glob := glob E; fetch := fetch E;
     response_json := response_json E; tc_downloadTool := tc_downloadTool E;
     tc_extractTar := tc_extractTar E; tc_cacheDir := tc_cacheDir E |}.

Definition withInput (name value : string) (E : Externals) : Externals :=
  {| platform := platform E; arch := arch E; cwd := cwd E;
     workspace := workspace E; cpus := cpus E;
     getInput := fun n => if String.eqb n name then value else getInput E n;
     tc_find := tc_find E; stringArgv := stringArgv E; io_mkdirP := io_mkdirP E;
     exec_exec := exec_exec E; glob := glob E; fetch := fetch E;
     response_json := response_json E; tc_downloadTool := tc_downloadTool E;
     tc_extractTar := tc_extractTar E; tc_cacheDir := tc_cacheDir E |}.

(** A Windows runner that holds amatl v1.0.0 in its tool cache. *)
Definition cachedWindows : Externals :=
  withCache
    (fun tool version =>
       if String.eqb version "v1.0.0" then "/tools/amatl/1.0.0/x64" else EmptyString)
    (withPlatform "win32" Demo.host).

(** Unpacking the downloaded archive fails. *)
Definition brokenArchive : Externals :=
  withExtractTar (fun _ _ => Err (newError "The process 'tar' failed with exit code 2"))
    Demo.host.

(** The release endpoint answers with the tag v1.2.3. *)
Definition tagged : Externals :=
  Demo.make "linux" "x64" 2 Demo.execOk Demo.globTree (fun _ => Ok "v1.2.3").

(** Directories under [out/sub] cannot be created. *)
Definition readOnlySub : Externals :=
  withMkdirP
    (fun dir =>
       if String.eqb dir "out/sub"
       then Err (newError "EACCES: permission denied, mkdir 'out/sub'")
       else Ok tt)
    Demo.host.

(** The renderer fails on [b.md]. *)
Definition failsOnB : Externals :=
  withExec
    (fun _ args =>
       if bool_decide ("b.md" ∈ args)
       then Err (newError "The process 'amatl' failed with exit code 1")
       else Ok tt)
    Demo.host.

(** No directory can be created. *)
Definition readOnly : Externals :=
  withMkdirP (fun dir => Err (newError "EACCES: permission denied")) Demo.host.

End Hosts.

(** * Properties *)

(** ** The path functions on examples *)

Module PathExamples.
Import Path.

Example split_ex : Js.split "," "html,pdf" = ["html"; "pdf"].
Proof. reflexivity. Qed.
Example split_empty : Js.split "," EmptyString = [EmptyString].
Proof. reflexivity. Qed.
Example split_trailing : Js.split "/" "a/b/" = ["a"; "b"; EmptyString].
Proof. reflexivity. Qed.
Example trim_ex : Js.trim "  pdf " = "pdf".
Proof. reflexivity. Qed.
Example lower_ex : Js.toLowerCase "HTML,Pdf" = "html,pdf".
Proof. reflexivity. Qed.
Example removeFirst_ex : Js.removeFirst "v" "v0.25.1" = "0.25.1".
Proof. reflexivity. Qed.

Example normalize_ex1 : normalize "/foo/bar//baz/asdf/quux/.." = "/foo/bar/baz/asdf".
Proof. reflexivity. Qed.
Example normalize_ex2 : normalize "a/../../b/" = "../b/".
Proof. reflexivity. Qed.
Example normalize_ex3 : normalize "./" = "./".
Proof. reflexivity. Qed.
Example join_ex1 : join ["/foo"; "bar"; "baz/asdf"; "quux"; ".."] = "/foo/bar/baz/asdf".
Proof. reflexivity. Qed.
Example join_ex2 : join ["out"; "."] = "out".
Proof. reflexivity. Qed.
Example join_ex3 : join [EmptyString; EmptyString] = ".".
Proof. reflexivity. Qed.
Example basename_ex1 : basename "/foo/bar/quux.html" ".html" = "quux".
Proof. reflexivity. Qed.
Example basename_ex2 : basename "docs/a.md/" EmptyString = "a.md".
Proof. reflexivity. Qed.
Example basename_ex3 : basename "a/.md" ".md" = ".md".
Proof. reflexivity. Qed.
Example extname_ex1 : extname "index.coffee.md" = ".md".
Proof. reflexivity. Qed.
Example extname_ex2 : extname ".index" = EmptyString.
Proof. reflexivity. Qed.
Example extname_ex3 : extname "index." = ".".
Proof. reflexivity. Qed.
Example extname_ex4 : extname "a/.." = EmptyString.
Proof. reflexivity. Qed.
Example extname_ex5 : extname ".index.md" = ".md".
Proof. reflexivity. Qed.
Example dirname_ex1 : dirname "/foo/bar/baz/asdf/quux" = "/foo/bar/baz/asdf".
Proof. reflexivity. Qed.
Example dirname_ex2 : dirname "a.md" = ".".
Proof. reflexivity. Qed.
Example dirname_ex3 : dirname "/a" = "/".
Proof. reflexivity. Qed.
Example dirname_ex4 : dirname "docs/guide/" = "docs".
Proof. reflexivity. Qed.
Example relative_ex1 :
  relative "/" "/data/orandea/test/aaa" "/data/orandea/impl/bbb" = "../../impl/bbb".
Proof. reflexivity. Qed.
Example relative_ex2 : relative "/ws" "/ws" "docs/a.md" = "docs/a.md".
Proof. reflexivity. Qed.
Example relative_ex3 : relative "/ws" "/ws" "/ws" = EmptyString.
Proof. reflexivity. Qed.
Example relative_ex4 : relative "/ws" "/ws/a" "/ws" = "..".
Proof. reflexivity. Qed.
End PathExamples.
(** ** Strings *)

Section StringFacts.

Lemma app_String (x : ascii) (a b : string) :
  String x a +:+ b = String x (a +:+ b).
Proof. reflexivity. Qed.

Lemma app_empty_l (a : string) : EmptyString +:+ a = a.
Proof. reflexivity. Qed.

Lemma app_assoc_s (a b c : string) : (a +:+ b) +:+ c = a +:+ (b +:+ c).
Proof.
  induction a as [|x a IH]; [reflexivity|].
  now rewrite !app_String, IH.
Qed.

Lemma app_empty_r (a : string) : a +:+ EmptyString = a.
Proof.
  induction a as [|x a IH]; [reflexivity|]. now rewrite app_String, IH.
Qed.

Lemma length_app_s (a b : string) :
  String.length (a +:+ b) = String.length a + String.length b.
Proof.
  induction a as [|x a IH]; [reflexivity|].
  rewrite app_String. simpl. now rewrite IH.
Qed.

Lemma rev_app_spec (a b : string) :
  String.rev_app a b = String.rev a +:+ b.
Proof.
  unfold String.rev. revert b.
  induction a as [|x a IH]; intros b; simpl; [reflexivity|].
  rewrite IH, (IH (String x EmptyString)), app_assoc_s. reflexivity.
Qed.

Lemma rev_String (x : ascii) (a : string) :
  String.rev (String x a) = String.rev a +:+ String x EmptyString.
Proof. unfold String.rev at 1. simpl. apply rev_app_spec. Qed.

Lemma rev_app_distr_s (a b : string) :
  String.rev (a +:+ b) = String.rev b +:+ String.rev a.
Proof.
  induction a as [|x a IH].
  - now rewrite app_empty_l, app_empty_r.
  - now rewrite app_String, !rev_String, IH, app_assoc_s.
Qed.

Lemma endsWith_app (front s suffix : string) :
  Js.endsWith suffix s -> Js.endsWith suffix (front +:+ s).
Proof.
  intros [f ->]. exists (front +:+ f). now rewrite app_assoc_s.
Qed.

Lemma endsWith_refl (s : string) : Js.endsWith s s.
Proof. now exists EmptyString. Qed.

End StringFacts.

(** ** [split] and [join] *)

Section SplitJoin.


Lemma split_lacks sep s : lacks sep s = true -> Js.split sep s = [s].
Proof.
  induction s as [|c s IH]; simpl; [reflexivity|].
  intros [Hc Hs]%andb_prop. apply negb_true_iff in Hc.
  now rewrite Hc, (IH Hs).
Qed.

(** Appending a separator-free tail only extends the last piece. *)
Lemma split_app_lacks sep s :
  exists init piece,
    Js.split sep s = init ++ [piece] /\
    forall tail, lacks sep tail = true ->
                 Js.split sep (s +:+ tail) = init ++ [piece +:+ tail].
Proof.
  induction s as [|c s (init & piece & Hs & Htail)].
  - exists [], EmptyString. split; [reflexivity|].
    intros tail Ht. rewrite !app_empty_l. now apply split_lacks.
  - destruct (Ascii.eqb c sep) eqn:Hc.
    + exists (EmptyString :: init), piece. split.
      * simpl. now rewrite Hc, Hs.
      * intros tail Ht. rewrite app_String. simpl. now rewrite Hc, Htail.
    + destruct init as [|i init].
      * exists [], (String c piece). split.
        -- simpl. now rewrite Hc, Hs.
        -- intros tail Ht. rewrite app_String. simpl.
           now rewrite Hc, Htail.
      * exists (String c i :: init), piece. split.
        -- simpl. now rewrite Hc, Hs.
        -- intros tail Ht. rewrite app_String. simpl.
           now rewrite Hc, Htail.
Qed.

Lemma join_snoc sep pre (last : string) :
  exists front, Js.join sep (pre ++ [last]) = front +:+ last.
Proof.
  induction pre as [|p pre (front & IH)]; simpl.
  - now exists EmptyString.
  - destruct (pre ++ [last]) eqn:Hpl.
    + now destruct pre.
    + exists (p +:+ sep +:+ front). rewrite IH. now rewrite !app_assoc_s.
Qed.

End SplitJoin.

(** ** [path.join] keeps a plain last segment *)

Section JoinLeaf.
Import Path.


Lemma plainSegment_long seg : 3 <= String.length seg -> plainSegment seg.
Proof.
  intros H. repeat split; intros ->; simpl in H; lia.
Qed.

Lemma normalizeSegments_snoc above stack segs seg :
  plainSegment seg ->
  normalizeSegments above stack (segs ++ [seg]) =
  normalizeSegments above stack segs ++ [seg].
Proof.
  intros (H0 & H1 & H2).
  apply String.eqb_neq in H0, H1, H2.
  revert stack. induction segs as [|s segs IH]; intros stack; simpl.
  - now rewrite H0, H1, H2.
  - destruct (String.eqb s EmptyString || String.eqb s "."); [apply IH|].
    destruct (String.eqb s ".."); [|apply IH].
    destruct stack as [|top below]; [apply IH|].
    destruct (String.eqb top ".."); apply IH.
Qed.

Lemma lacks_last_char sep (s : string) :
  lacks sep s = true -> s <> EmptyString ->
  exists c r, String.rev s = String c r /\ Ascii.eqb c sep = false.
Proof.
  induction s as [|x s IH]; [easy|]. simpl.
  intros [Hx Hs]%andb_prop _. apply negb_true_iff in Hx.
  rewrite rev_String.
  destruct s as [|y s].
  - exists x, EmptyString. now split.
  - destruct (IH Hs) as (c & r & Hr & Hc); [easy|].
    rewrite Hr. simpl. now exists c, (r +:+ String x EmptyString).
Qed.

Lemma normalize_nonempty (p : string) :
  p <> EmptyString ->
  normalize p =
  let body := normalizeString p (negb (isAbsolute p)) in
  match body with
  | EmptyString =>
      if isAbsolute p then "/" else if hasTrailingSlash p then "./" else "."
  | _ =>
      (if isAbsolute p then "/" else EmptyString) +:+ body +:+
      (if hasTrailingSlash p then "/" else EmptyString)
  end.
Proof. destruct p; [congruence | reflexivity]. Qed.

Lemma normalize_keeps_tail (front tail : string) :
  lacks slash tail = true -> 3 <= String.length tail ->
  Js.endsWith tail (normalize (front +:+ tail)).
Proof.
  intros Hlacks Hlen.
  assert (Hne : front +:+ tail <> EmptyString).
  { intros H. apply (f_equal String.length) in H.
    rewrite length_app_s in H. simpl in H. lia. }
  assert (Htr : hasTrailingSlash (front +:+ tail) = false).
  { unfold hasTrailingSlash. rewrite rev_app_distr_s.
    destruct (lacks_last_char slash tail Hlacks) as (c & r & Hr & Hc).
    - intros ->. simpl in Hlen. lia.
    - rewrite Hr. simpl. exact Hc. }
  rewrite (normalize_nonempty _ Hne), Htr. cbv zeta.
  unfold normalizeString.
  destruct (split_app_lacks slash front) as (init & piece & _ & Hsplit).
  rewrite (Hsplit tail Hlacks).
  rewrite normalizeSegments_snoc.
  2:{ apply plainSegment_long. rewrite length_app_s. lia. }
  destruct (join_snoc "/" (normalizeSegments (negb (isAbsolute (front +:+ tail))) [] init)
              (piece +:+ tail)) as (f & Hj).
  rewrite Hj.
  destruct (f +:+ piece +:+ tail) as [|c1 s1] eqn:Hbody.
  - apply (f_equal String.length) in Hbody.
    rewrite !length_app_s in Hbody. simpl in Hbody. lia.
  - rewrite <- Hbody. rewrite app_empty_r.
    apply endsWith_app. apply endsWith_app. apply endsWith_app.
    apply endsWith_refl.
Qed.

(** The last argument of [path.join], when it ends in a slash-free tail
    of three characters or more, gives the result its ending. *)
Lemma join_keeps_tail (dir stem tail : string) :
  lacks slash tail = true -> 3 <= String.length tail ->
  Js.endsWith tail (join [dir; stem +:+ tail]).
Proof.
  intros Hlacks Hlen. unfold join.
  assert (Hleaf : Js.truthy (stem +:+ tail) = true).
  { destruct (stem +:+ tail) eqn:H; [|reflexivity].
    apply (f_equal String.length) in H. rewrite length_app_s in H.
    simpl in H. lia. }
  destruct dir as [|d dir].
  - rewrite filter_cons_False by (simpl; congruence).
    rewrite filter_cons_True by exact Hleaf.
    rewrite filter_nil. simpl Js.join.
    now apply normalize_keeps_tail.
  - rewrite filter_cons_True by reflexivity.
    rewrite filter_cons_True by exact Hleaf.
    rewrite filter_nil.
    change (Js.join "/" [String d dir; stem +:+ tail])
      with (String d dir +:+ "/" +:+ stem +:+ tail).
    replace (String d dir +:+ "/" +:+ stem +:+ tail)
      with ((String d dir +:+ "/" +:+ stem) +:+ tail)
      by now rewrite !app_assoc_s.
    now apply normalize_keeps_tail.
Qed.

End JoinLeaf.

(** ** Normal forms of paths *)

Section NormalForm.
Import Path.

Lemma split_app_sep sep (a b : string) :
  Js.split sep (a +:+ String sep b) = Js.split sep a ++ Js.split sep b.
Proof.
  induction a as [|c a IH].
  - rewrite app_empty_l. simpl. now rewrite Ascii.eqb_refl.
  - rewrite app_String. simpl. destruct (Ascii.eqb c sep).
    + now rewrite IH.
    + rewrite IH. destruct (Js.split sep a) as [|piece pieces] eqn:Hs.
      * destruct a; simpl in Hs; [discriminate|].
        destruct (Ascii.eqb a sep); [discriminate|].
        now destruct (Js.split sep a0).
      * reflexivity.
Qed.

Lemma split_not_nil sep s : Js.split sep s <> [].
Proof.
  destruct s as [|c s]; simpl; [discriminate|].
  destruct (Ascii.eqb c sep); [discriminate|].
  now destruct (Js.split sep s).
Qed.

Lemma split_pieces_lack sep s :
  Forall (fun piece => lacks sep piece = true) (Js.split sep s).
Proof.
  induction s as [|c s IH]; simpl.
  - now repeat constructor.
  - destruct (Ascii.eqb c sep) eqn:Hc.
    + now constructor.
    + destruct (Js.split sep s) as [|piece pieces].
      * repeat constructor. simpl. now rewrite Hc.
      * inversion IH as [|? ? Hp Hps]; subst. constructor; [|exact Hps].
        simpl. now rewrite Hc, Hp.
Qed.

Lemma split_join sep (segs : list string) :
  segs <> [] -> Forall (fun seg => lacks sep seg = true) segs ->
  Js.split sep (Js.join (String sep EmptyString) segs) = segs.
Proof.
  induction segs as [|seg segs IH]; [congruence|].
  intros _ Hall. inversion Hall as [|? ? Hseg Hsegs]; subst.
  destruct segs as [|seg' segs].
  - simpl. now apply split_lacks.
  - change (Js.join (String sep EmptyString) (seg :: seg' :: segs))
      with (seg +:+ String sep EmptyString
            +:+ Js.join (String sep EmptyString) (seg' :: segs)).
    change (seg +:+ String sep EmptyString
            +:+ Js.join (String sep EmptyString) (seg' :: segs))
      with (seg +:+ String sep (Js.join (String sep EmptyString) (seg' :: segs))).
    rewrite split_app_sep, (split_lacks _ _ Hseg), IH by (auto; discriminate).
    reflexivity.
Qed.

Lemma join_empty_iff (sep : string) (segs : list string) :
  Forall (fun seg => seg <> EmptyString) segs ->
  Js.join sep segs = EmptyString -> segs = [].
Proof.
  destruct segs as [|seg segs]; [reflexivity|].
  intros Hall Hjoin. inversion Hall as [|? ? Hseg _]; subst.
  destruct segs as [|seg' segs]; simpl in Hjoin.
  - contradiction.
  - destruct seg; [contradiction|]. rewrite app_String in Hjoin. discriminate.
Qed.

(** *** The stack of [normalizeSegments] *)

Lemma S_app above stack xs ys :
  normalizeSegments above stack (xs ++ ys) = normalizeSegments above (rev (normalizeSegments above stack xs)) ys.
Proof.
  revert stack. induction xs as [|x xs IH]; intros stack; simpl.
  - now rewrite rev_involutive.
  - destruct (String.eqb x EmptyString || String.eqb x "."); [apply IH|].
    destruct (String.eqb x ".."); [|apply IH].
    destruct stack as [|top below]; [apply IH|].
    destruct (String.eqb top ".."); apply IH.
Qed.

(** Segments that do not climb are kept or skipped, never popped. *)
Lemma S_no_climb above stack segs :
  ".." ∉ segs ->
  normalizeSegments above stack segs = rev stack ++ List.filter keptSegment segs.
Proof.
  revert stack. induction segs as [|seg segs IH]; intros stack Hno; simpl.
  - now rewrite app_nil_r.
  - assert (Hseg : String.eqb seg ".." = false).
    { apply String.eqb_neq. intros ->. apply Hno. now left. }
    assert (Hno' : ".." ∉ segs).
    { intros H. apply Hno. now right. }
    unfold keptSegment at 1.
    destruct (String.eqb seg EmptyString || String.eqb seg "."); simpl.
    + now apply IH.
    + rewrite Hseg, IH by exact Hno'. simpl. now rewrite <- app_assoc.
Qed.

Lemma rev_repeat {A} (x : A) n : rev (repeat x n) = repeat x n.
Proof.
  induction n as [|n IH]; [reflexivity|].
  simpl. rewrite IH. clear IH.
  induction n as [|n IH]; [reflexivity|]. simpl. now rewrite IH.
Qed.

Lemma StackNF_result above stack : StackNF above stack -> ResultNF above (rev stack).
Proof.
  intros (n & top & -> & Htop & Hn). exists n, (rev top).
  rewrite rev_app_distr, rev_repeat. repeat split; auto.
  now apply Forall_rev.
Qed.

Lemma S_normal above stack segs :
  StackNF above stack ->
  Forall (fun seg => lacks slash seg = true) segs ->
  ResultNF above (normalizeSegments above stack segs).
Proof.
  intros Hstack Hsegs. revert stack Hstack.
  induction Hsegs as [|seg segs Hseg Hsegs IH]; intros stack Hstack; simpl.
  - now apply StackNF_result.
  - destruct (String.eqb_spec seg EmptyString) as [->|Hne]; [now apply IH|].
    destruct (String.eqb_spec seg ".") as [->|Hnd]; [now apply IH|].
    simpl.
    destruct (String.eqb_spec seg "..") as [->|Hndd].
    + destruct Hstack as (n & top & -> & Htop & Hn).
      destruct top as [|t top]; simpl.
      * destruct n as [|n]; simpl.
        -- apply IH. destruct above.
           ++ exists 1, []. repeat split; auto. discriminate.
           ++ exists 0, []. repeat split; auto.
        -- apply IH. destruct above.
           ++ exists (2 + n), []. repeat split; auto. discriminate.
           ++ specialize (Hn eq_refl). discriminate.
      * inversion Htop as [|? ? [(_ & _ & Ht) _] Htop']; subst.
        apply String.eqb_neq in Ht. rewrite Ht.
        apply IH. exists n, top. auto.
    + apply IH. destruct Hstack as (n & top & -> & Htop & Hn).
      exists n, (seg :: top). repeat split; auto.
      constructor; [|exact Htop]. repeat split; auto.
Qed.

(** A normal form is left as it is. *)
Lemma S_climb_block n m rest :
  normalizeSegments true (repeat ".." m) (repeat ".." n ++ rest) = normalizeSegments true (repeat ".." (n + m)) rest.
Proof.
  revert m. induction n as [|n IH]; intros m; [reflexivity|].
  destruct m as [|m].
  - change (normalizeSegments true (repeat ".." 0) (repeat ".." (S n) ++ rest))
      with (normalizeSegments true (repeat ".." 1) (repeat ".." n ++ rest)).
    rewrite (IH 1). f_equal. f_equal. lia.
  - change (normalizeSegments true (repeat ".." (S m)) (repeat ".." (S n) ++ rest))
      with (normalizeSegments true (repeat ".." (S (S m))) (repeat ".." n ++ rest)).
    rewrite (IH (S (S m))). f_equal. f_equal. lia.
Qed.

Lemma S_good above stack rest :
  Forall goodSegment rest -> normalizeSegments above stack rest = rev stack ++ rest.
Proof.
  intros Hrest. rewrite S_no_climb.
  - f_equal. induction Hrest as [|seg rest [(H0 & H1 & _) _] _ IH]; [reflexivity|].
    simpl. unfold keptSegment at 1.
    apply String.eqb_neq in H0, H1. rewrite H0, H1. simpl. now rewrite IH.
  - intros Hin. rewrite Forall_forall in Hrest.
    destruct (Hrest _ Hin) as [(_ & _ & H) _]. congruence.
Qed.

Lemma S_idempotent above segs :
  ResultNF above segs -> normalizeSegments above [] segs = segs.
Proof.
  intros (n & rest & -> & Hrest & Hn).
  destruct above.
  - rewrite (S_climb_block n 0), Nat.add_0_r, S_good by exact Hrest.
    now rewrite rev_repeat.
  - rewrite (Hn eq_refl). simpl. now rewrite S_good.
Qed.

Lemma ResultNF_lacks above segs :
  ResultNF above segs -> Forall (fun seg => lacks slash seg = true) segs.
Proof.
  intros (n & rest & -> & Hrest & _). apply Forall_app. split.
  - clear. induction n; simpl; constructor; auto.
  - eapply Forall_impl; [exact Hrest|]. now intros seg [_ H].
Qed.

Lemma ResultNF_nonempty above segs :
  ResultNF above segs -> Forall (fun seg => seg <> EmptyString) segs.
Proof.
  intros (n & rest & -> & Hrest & _). apply Forall_app. split.
  - clear. induction n; simpl; constructor; auto; discriminate.
  - eapply Forall_impl; [exact Hrest|]. now intros seg [(H & _) _].
Qed.

Lemma segments_normal p : ResultNF (negb (isAbsolute p)) (segments p).
Proof.
  apply S_normal.
  - exists 0, []. repeat split; auto.
  - apply split_pieces_lack.
Qed.

End NormalForm.

Section JoinSegments.
Import Path.

Lemma lacks_app sep (a b : string) :
  lacks sep (a +:+ b) = lacks sep a && lacks sep b.
Proof.
  induction a as [|c a IH]; [reflexivity|].
  rewrite app_String. simpl. now rewrite IH, andb_assoc.
Qed.

Lemma lacks_rev sep (s : string) : lacks sep (String.rev s) = lacks sep s.
Proof.
  induction s as [|c s IH]; [reflexivity|].
  rewrite rev_String, lacks_app, IH. simpl.
  now rewrite andb_true_r, andb_comm.
Qed.

Lemma lastSegmentRev_lacks rpath matchedSlash :
  lacks slash (lastSegmentRev rpath matchedSlash) = true.
Proof.
  revert matchedSlash. induction rpath as [|c r IH]; intros m; simpl; [reflexivity|].
  unfold is_slash. destruct (Ascii.eqb c slash) eqn:Hc.
  - destruct m; [apply IH|reflexivity].
  - simpl. now rewrite Hc, IH.
Qed.

Lemma dropSuffixRev_lacks sep rsuffix rname rstem :
  dropSuffixRev rsuffix rname = Some rstem ->
  lacks sep rname = true -> lacks sep rstem = true.
Proof.
  revert rname. induction rsuffix as [|a rs IH]; intros rname; simpl.
  - now intros [= <-].
  - destruct rname as [|b rn]; [discriminate|].
    destruct (Ascii.eqb a b); [|discriminate].
    intros H Hl. simpl in Hl. apply andb_prop in Hl. now apply (IH rn).
Qed.

Lemma basename_lacks p suffix : lacks slash (basename p suffix) = true.
Proof.
  assert (Hname : lacks slash (lastSegment p) = true).
  { unfold lastSegment. rewrite lacks_rev. apply lastSegmentRev_lacks. }
  unfold basename. destruct suffix as [|c suffix]; [exact Hname|].
  destruct (String.eqb (String c suffix) p); [reflexivity|].
  destruct (dropSuffixRev _ _) as [rstem|] eqn:Hdrop; [|exact Hname].
  destruct rstem as [|d rstem]; [exact Hname|].
  rewrite lacks_rev. apply (dropSuffixRev_lacks _ _ _ _ Hdrop).
  now rewrite lacks_rev.
Qed.

Lemma normalizeSegments_empty_head above stack segs :
  normalizeSegments above stack (EmptyString :: segs)
  = normalizeSegments above stack segs.
Proof. reflexivity. Qed.

Lemma normalizeSegments_empty_last above stack :
  normalizeSegments above stack [EmptyString] = rev stack.
Proof. reflexivity. Qed.

(** Normalising keeps the segments and the kind of a path. *)
Lemma segments_normalize p :
  p <> EmptyString ->
  segments (normalize p) = segments p
  /\ isAbsolute (normalize p) = isAbsolute p
  /\ normalize p <> EmptyString.
Proof.
  intros Hp. rewrite (normalize_nonempty p Hp). cbv zeta.
  unfold normalizeString. fold (segments p).
  pose proof (segments_normal p) as Hnf.
  pose proof (ResultNF_lacks _ _ Hnf) as Hlacks.
  pose proof (ResultNF_nonempty _ _ Hnf) as Hne.
  destruct (Js.join "/" (segments p)) as [|c body] eqn:Hbody.
  - apply join_empty_iff in Hbody; [|exact Hne]. rewrite Hbody.
    destruct (isAbsolute p); [now repeat split|].
    destruct (hasTrailingSlash p); now repeat split.
  - assert (Hsegs : segments p <> []).
    { intros H. rewrite H in Hbody. discriminate. }
    assert (Hc : is_slash c = false).
    { destruct (segments p) as [|seg segs]; [congruence|].
      inversion Hlacks as [|? ? Hseg _]; subst.
      inversion Hne as [|? ? Hseg0 _]; subst.
      destruct seg as [|c' seg]; [congruence|].
      simpl in Hseg. apply andb_prop in Hseg. destruct Hseg as [Hc' _].
      destruct segs; simpl in Hbody.
      - injection Hbody as -> _. now apply negb_true_iff in Hc'.
      - rewrite app_String in Hbody. injection Hbody as -> _.
        now apply negb_true_iff in Hc'. }
    rewrite <- Hbody.
    assert (Hsplit : Js.split slash (Js.join "/" (segments p)) = segments p).
    { apply split_join; assumption. }
    assert (Hidem : normalizeSegments (negb (isAbsolute p)) [] (segments p)
                    = segments p).
    { now apply S_idempotent. }
    destruct (isAbsolute p) eqn:Habs.
    + (* absolute: a leading slash *)
      change ("/" +:+ Js.join "/" (segments p)
              +:+ (if hasTrailingSlash p then "/" else EmptyString))
        with (String slash (Js.join "/" (segments p)
              +:+ (if hasTrailingSlash p then "/" else EmptyString))).
      split; [|now split].
      unfold segments at 1. cbn [isAbsolute Js.split].
      change (is_slash slash) with true.
      change (Ascii.eqb slash slash) with true. cbv iota.
      change (negb true) with false in *.
      rewrite normalizeSegments_empty_head.
      destruct (hasTrailingSlash p).
      * change (Js.join "/" (segments p) +:+ "/")
          with (Js.join "/" (segments p) +:+ String slash EmptyString).
        rewrite split_app_sep, Hsplit.
        change (Js.split slash EmptyString) with [EmptyString].
        rewrite S_app, Hidem, normalizeSegments_empty_last.
        apply rev_involutive.
      * rewrite app_empty_r, Hsplit. exact Hidem.
    + rewrite app_empty_l.
      assert (Hrel : isAbsolute (Js.join "/" (segments p)
                      +:+ (if hasTrailingSlash p then "/" else EmptyString))
                     = false).
      { rewrite Hbody, app_String. exact Hc. }
      split; [|split; [exact Hrel|]].
      * unfold segments at 1. rewrite Hrel.
        destruct (hasTrailingSlash p).
        -- change (Js.join "/" (segments p) +:+ "/")
             with (Js.join "/" (segments p) +:+ String slash EmptyString).
           rewrite split_app_sep, Hsplit.
           change (Js.split slash EmptyString) with [EmptyString].
           rewrite S_app, Hidem, normalizeSegments_empty_last.
        apply rev_involutive.
        -- rewrite app_empty_r, Hsplit. exact Hidem.
      * rewrite Hbody, app_String. discriminate.
Qed.

Lemma segments_slash (a b : string) :
  a <> EmptyString ->
  segments (a +:+ "/" +:+ b) =
    normalizeSegments (negb (isAbsolute a)) (rev (segments a)) (Js.split slash b)
  /\ isAbsolute (a +:+ "/" +:+ b) = isAbsolute a
  /\ a +:+ "/" +:+ b <> EmptyString.
Proof.
  intros Ha. destruct a as [|c a]; [congruence|].
  change (String c a +:+ "/" +:+ b) with (String c (a +:+ String slash b)).
  split; [|split; [reflexivity|discriminate]].
  unfold segments. cbn [isAbsolute].
  change (String c (a +:+ String slash b)) with (String c a +:+ String slash b).
  now rewrite split_app_sep, S_app.
Qed.

(** The segments of [path.join(dir, rest)]. *)
Lemma segments_join (dir rest : string) :
  dir <> EmptyString ->
  segments (join [dir; rest]) =
    normalizeSegments (negb (isAbsolute dir)) (rev (segments dir))
      (Js.split slash rest)
  /\ isAbsolute (join [dir; rest]) = isAbsolute dir
  /\ join [dir; rest] <> EmptyString.
Proof.
  intros Hdir. unfold join.
  assert (Hd : Js.truthy dir = true) by now destruct dir.
  rewrite filter_cons_True by exact Hd.
  destruct rest as [|c rest].
  - rewrite filter_cons_False by (simpl; congruence). rewrite filter_nil.
    cbn [Js.join]. destruct (segments_normalize dir Hdir) as (Hs & Ha & Hn).
    rewrite Hs, Ha. repeat split; auto.
    cbn [Js.split]. now rewrite normalizeSegments_empty_last, rev_involutive.
  - rewrite filter_cons_True by reflexivity. rewrite filter_nil.
    change (Js.join "/" [dir; String c rest]) with (dir +:+ "/" +:+ String c rest).
    destruct (segments_slash dir (String c rest) Hdir) as (Hs & Ha & Hn).
    destruct (segments_normalize _ Hn) as (Hs' & Ha' & Hn').
    rewrite Hs', Ha', Hs, Ha. now repeat split.
Qed.

End JoinSegments.

(** ** Where the output path lies *)

Section OutputPlace.
Context (E : Externals) (options : AmatlOptions.t) (file format : string).

Lemma outputFile_segments :
  AmatlOptions.outputDir options <> EmptyString ->
  format ∈ ["html"; "pdf"; "markdown"] ->
  ".." ∉ Js.split Path.slash (Path.dirname (Path.relative (cwd E) (cwd E) file)) ->
  Path.isAbsolute (outputFileOf E options file format)
    = Path.isAbsolute (AmatlOptions.outputDir options)
  /\ Path.segments (outputFileOf E options file format) =
     Path.segments (AmatlOptions.outputDir options)
     ++ List.filter Path.keptSegment
          (Js.split Path.slash (Path.dirname (Path.relative (cwd E) (cwd E) file)))
     ++ [baseNameOf file +:+ "." +:+
         (if String.eqb format "markdown" then "md" else format)].
Proof.
  intros Hdir Hformat Hclimb.
  unfold outputFileOf, outputSubDirOf.
  set (dir := AmatlOptions.outputDir options) in *.
  set (sub := Path.dirname (Path.relative (cwd E) (cwd E) file)) in *.
  set (leaf := baseNameOf file +:+ "." +:+
               (if String.eqb format "markdown" then "md" else format)).
  destruct (segments_join dir sub Hdir) as (Hs1 & Ha1 & Hn1).
  destruct (segments_join (Path.join [dir; sub]) leaf Hn1) as (Hs2 & Ha2 & _).
  rewrite Ha2, Ha1, Hs2, Hs1. split; [reflexivity|].
  rewrite (S_no_climb _ _ _ Hclimb), rev_involutive.
  assert (Hleaf : lacks Path.slash leaf = true /\ 3 <= String.length leaf).
  { unfold leaf. rewrite lacks_app, length_app_s. unfold baseNameOf.
    rewrite basename_lacks.
    rewrite !elem_of_cons, elem_of_nil in Hformat.
    destruct Hformat as [->|[->|[->|[]]]]; simpl; split; auto; lia. }
  destruct Hleaf as [Hlacks Hlen].
  rewrite (split_lacks _ _ Hlacks).
  rewrite S_good, rev_involutive, <- app_assoc; [reflexivity|].
  constructor; [|constructor]. split; [|exact Hlacks].
  now apply plainSegment_long.
Qed.

End OutputPlace.

(** ** Programs *)

Section ProgFacts.
Context (E : Externals).

Lemma mbind_prog {A B} (p : Prog A) (f : A -> Prog B) : (p ≫= f) = bind p f.
Proof. reflexivity. Qed.

Lemma interp_bind {A B} (p : Prog A) (f : A -> Prog B) t :
  interp E (bind p f) t =
  match interp E p t with
  | (t', Ok a) => interp E (f a) t'
  | (t', Err e) => (t', Err e)
  end.
Proof.
  revert t. induction p as [a|e|ev k IH|R op k IH]; intros t; simpl; auto.
Qed.

Lemma interp_tryCatch {A} (p : Prog A) (h : JsError -> Prog A) t :
  interp E (tryCatch p h) t =
  match interp E p t with
  | (t', Ok a) => (t', Ok a)
  | (t', Err e) => interp E (h e) t'
  end.
Proof.
  revert t. induction p as [a|e|ev k IH|R op k IH]; intros t; simpl; auto.
Qed.

Lemma interp_await {R} (op : Op R) t :
  interp E (await op) t = (t ++ [Issued (callOf op)], perform E op).
Proof. unfold await. simpl. now destruct (perform E op). Qed.

Lemma interp_outcome {A} (p : Prog A) t : snd (interp E p t) = outcome E p.
Proof.
  revert t. induction p as [a|e|ev k IH|R op k IH]; intros t; simpl; auto.
Qed.

Lemma outcome_bind {A B} (p : Prog A) (f : A -> Prog B) :
  outcome E (bind p f) =
  match outcome E p with
  | Ok a => outcome E (f a)
  | Err e => Err e
  end.
Proof. induction p as [a|e|ev k IH|R op k IH]; simpl; auto. Qed.

Lemma outcome_tryCatch {A} (p : Prog A) (h : JsError -> Prog A) :
  outcome E (tryCatch p h) =
  match outcome E p with
  | Ok a => Ok a
  | Err e => outcome E (h e)
  end.
Proof. induction p as [a|e|ev k IH|R op k IH]; simpl; auto. Qed.

(** The trace only grows. *)
Lemma interp_extends {A} (p : Prog A) t :
  exists added, fst (interp E p t) = t ++ added.
Proof.
  revert t. induction p as [a|e|ev k IH|R op k IH]; intros t; simpl.
  - exists []. now rewrite app_nil_r.
  - exists []. now rewrite app_nil_r.
  - destruct (IH (t ++ [ev])) as [d ->]. exists (ev :: d).
    now rewrite <- app_assoc.
  - destruct (IH (perform E op) (t ++ [Issued (callOf op)])) as [d ->].
    exists (Issued (callOf op) :: d). now rewrite <- app_assoc.
Qed.

End ProgFacts.

(** ** One job *)

Section Job.
Context (E : Externals) (amatlPath file : string) (options : AmatlOptions.t).

Lemma renderFormats_step format rest outputFiles t :
  interp E (renderFormats E amatlPath file options (format :: rest) outputFiles) t =
  match exec_exec E amatlPath (renderArgs E options file format) with
  | Ok _ =>
      interp E
        (renderFormats E amatlPath file options rest
           (outputFiles ++ [outputFileOf E options file format]))
        (t ++ [Issued (CallExec amatlPath (renderArgs E options file format));
               LogInfo ("Generated: " +:+ outputFileOf E options file format)])
  | Err e =>
      (t ++ [Issued (CallExec amatlPath (renderArgs E options file format));
             LogError ("Failed to process " +:+ file +:+ " to " +:+ format
                       +:+ ": " +:+ showError e)],
       Err e)
  end.
Proof.
  cbn [renderFormats]. rewrite mbind_prog, interp_bind, interp_tryCatch.
  rewrite mbind_prog, interp_bind, interp_await. cbn [perform].
  destruct (exec_exec E amatlPath (renderArgs E options file format)) as [[]|e];
    simpl; now rewrite <- app_assoc.
Qed.

Lemma processMarkdownFile_start t :
  interp E (processMarkdownFile E amatlPath file options) t =
  match io_mkdirP E (outputSubDirOf E options file) with
  | Ok _ =>
      match interp E
              (renderFormats E amatlPath file options (formatsOf options) [])
              (t ++ [LogInfo ("Processing: " +:+ file);
                     Issued (CallMkdirP (outputSubDirOf E options file))]) with
      | (t', Ok outputFiles) =>
          (t', Ok {| ProcessResult.filesProcessed := 1;
                     ProcessResult.outputFiles := outputFiles |})
      | (t', Err e) => (t', Err e)
      end
  | Err e =>
      (t ++ [LogInfo ("Processing: " +:+ file);
             Issued (CallMkdirP (outputSubDirOf E options file))], Err e)
  end.
Proof.
  unfold processMarkdownFile. cbn [interp].
  rewrite mbind_prog, interp_bind, interp_await. cbn [perform callOf].
  rewrite <- app_assoc. cbn [app].
  destruct (io_mkdirP E (outputSubDirOf E options file)) as [[]|e]; [|reflexivity].
  now rewrite mbind_prog, interp_bind.
Qed.

(** A job that is fulfilled has rendered every format: its paths are
    the output paths of the requested formats, in order. *)
Lemma renderFormats_fulfilled formats outputFiles produced :
  outcome E (renderFormats E amatlPath file options formats outputFiles)
    = Ok produced ->
  produced = outputFiles ++ map (outputFileOf E options file) formats.
Proof.
  revert outputFiles.
  induction formats as [|format rest IH]; intros outputFiles; simpl.
  - intros [= <-]. now rewrite app_nil_r.
  - rewrite mbind_prog, outcome_bind, outcome_tryCatch.
    rewrite mbind_prog, outcome_bind. simpl.
    destruct (exec_exec E amatlPath (renderArgs E options file format)) as [[]|e];
      simpl; [|discriminate].
    intros H. apply IH in H. now rewrite <- app_assoc in H.
Qed.

Lemma jobResult_fulfilled r :
  jobResult E amatlPath options file = Ok r ->
  r = {| ProcessResult.filesProcessed := 1;
         ProcessResult.outputFiles :=
           map (outputFileOf E options file) (formatsOf options) |}.
Proof.
  unfold jobResult, processMarkdownFile. simpl.
  destruct (io_mkdirP E (outputSubDirOf E options file)) as [[]|e];
    simpl; [|discriminate].
  rewrite mbind_prog, outcome_bind.
  destruct (outcome E (renderFormats E amatlPath file options (formatsOf options) []))
    as [produced|e] eqn:Hr; simpl; [|discriminate].
  apply renderFormats_fulfilled in Hr. simpl in Hr. now intros [= <-]; subst.
Qed.

End Job.

(** ** The argument array *)

Lemma pushIfProvided_app value pushed args :
  pushIfProvided value pushed args = args ++ pushIfProvided value pushed [].
Proof.
  unfold pushIfProvided. destruct value as [v|]; [destruct (Js.truthy v)|];
    now rewrite ?app_nil_r.
Qed.


Lemma renderArgs_shape E options file format :
  renderArgs E options file format =
  ["render"]
  ++ pushIfProvided (AmatlOptions.config options) (fun config => ["-c"; config]) []
  ++ [format; "-o"; outputFileOf E options file format]
  ++ layoutArgs options format
  ++ pushIfProvided (AmatlOptions.vars options) (fun vars => ["--vars"; vars]) []
  ++ pushIfProvided (AmatlOptions.additionalArgs options) (stringArgv E) []
  ++ [file].
Proof.
  unfold renderArgs, layoutArgs.
  rewrite (pushIfProvided_app (AmatlOptions.additionalArgs options)).
  rewrite (pushIfProvided_app (AmatlOptions.vars options)).
  destruct (String.eqb format "html" || String.eqb format "pdf").
  - rewrite (pushIfProvided_app (AmatlOptions.layout options)).
    rewrite (pushIfProvided_app (AmatlOptions.config options)).
    now rewrite <- !app_assoc.
  - rewrite (pushIfProvided_app (AmatlOptions.config options)).
    now rewrite <- !app_assoc.
Qed.

(** ** A job whose second format fails *)

(** C2, as amended.  For a job over the formats [f1; f2; f3] whose
    directory is created, whose render of [f1] succeeds and whose render
    of [f2] fails with [e]: the renderer is invoked for [f1] and [f2] and
    never for [f3]; the job returns no result but rejects with [e],
    unchanged; before that exactly one output path, the one of [f1], was
    produced and logged as generated. *)
Theorem job_aborts_at_failing_format
  (E : Externals) (amatlPath file : string) (options : AmatlOptions.t)
  (f1 f2 f3 : string) (e : JsError) (t : Trace) :
  formatsOf options = [f1; f2; f3] ->
  io_mkdirP E (outputSubDirOf E options file) = Ok tt ->
  exec_exec E amatlPath (renderArgs E options file f1) = Ok tt ->
  exec_exec E amatlPath (renderArgs E options file f2) = Err e ->
  interp E (processMarkdownFile E amatlPath file options) t =
  (t ++ [LogInfo ("Processing: " +:+ file);
         Issued (CallMkdirP (outputSubDirOf E options file));
         Issued (CallExec amatlPath (renderArgs E options file f1));
         LogInfo ("Generated: " +:+ outputFileOf E options file f1);
         Issued (CallExec amatlPath (renderArgs E options file f2));
         LogError ("Failed to process " +:+ file +:+ " to " +:+ f2 +:+ ": "
                   +:+ showError e)],
   Err e).
Proof.
  intros Hformats Hdir Hf1 Hf2.
  rewrite processMarkdownFile_start, Hdir, Hformats.
  rewrite renderFormats_step, Hf1.
  rewrite renderFormats_step, Hf2.
  now rewrite <- !app_assoc.
Qed.

Lemma job_aborts_at_failing_format_witness :
  interp Demo.hostNoPdf
    (processMarkdownFile Demo.hostNoPdf "amatl" "a.md"
       (Demo.withFormat "html,pdf,markdown" Demo.options)) [] =
  ([LogInfo "Processing: a.md";
    Issued (CallMkdirP "out");
    Issued (CallExec "amatl"
              ["render"; "html"; "-o"; "out/a.html"; "--html-layout";
               "amatl://document.html"; "a.md"]);
    LogInfo "Generated: out/a.html";
    Issued (CallExec "amatl"
              ["render"; "pdf"; "-o"; "out/a.pdf"; "--html-layout";
               "amatl://document.html"; "a.md"]);
    LogError "Failed to process a.md to pdf: Error: The process 'amatl' failed with exit code 1"],
   Err (newError "The process 'amatl' failed with exit code 1")).
Proof.
  apply (job_aborts_at_failing_format Demo.hostNoPdf "amatl" "a.md"
           (Demo.withFormat "html,pdf,markdown" Demo.options)
           "html" "pdf" "markdown"
           (newError "The process 'amatl' failed with exit code 1") []);
    reflexivity.
Defined.

(** C2, as stated, fails: with formats [html,pdf,markdown] and a renderer
    that fails on PDF, the job has no result holding the path of the
    first format; it rejects. *)
Lemma job_result_after_failure_counterexample :
  ~ exists r,
      snd (interp Demo.hostNoPdf
             (processMarkdownFile Demo.hostNoPdf "amatl" "a.md"
                (Demo.withFormat "html,pdf,markdown" Demo.options)) []) = Ok r
      /\ ProcessResult.outputFiles r =
         [outputFileOf Demo.hostNoPdf
            (Demo.withFormat "html,pdf,markdown" Demo.options) "a.md" "html"].
Proof.
  intros (r & Hr & _). vm_compute in Hr. discriminate Hr.
Qed.

(** ** Output paths *)

(** C3, as amended.  On a platform other than [win32], where the [path]
    of the program is the POSIX one, for a supported format the output
    path of a file is the output directory joined with the directory of
    the file's path relative to the working directory, joined with the
    base name, a dot and the extension: [md] for [markdown], the format
    name otherwise; the path ends with that dot and extension; it is the
    path passed after [-o], and the paths a fulfilled job returns are
    these paths, one per requested format.  When the output directory is
    not empty and that relative directory does not climb (no [..] segment:
    the file lies under the working directory), the path lies under the
    output directory: its normal form is that of the output directory,
    then the segments of the relative directory, then the file name. *)
Theorem output_path_extension
  (E : Externals) (amatlPath : string) (options : AmatlOptions.t)
  (file format : string) :
  platform E <> "win32" ->
  format ∈ ["html"; "pdf"; "markdown"] ->
  let extension := if String.eqb format "markdown" then "md" else format in
  let subDir := Path.dirname (Path.relative (cwd E) (cwd E) file) in
  outputFileOf E options file format =
    Path.join
      [Path.join [AmatlOptions.outputDir options; subDir];
       Path.basename file (Path.extname file) +:+ "." +:+ extension]
  /\ Js.endsWith ("." +:+ extension) (outputFileOf E options file format)
  /\ (exists before after,
        renderArgs E options file format =
        before ++ ["-o"; outputFileOf E options file format] ++ after)
  /\ (forall r,
        jobResult E amatlPath options file = Ok r ->
        ProcessResult.outputFiles r =
        map (outputFileOf E options file) (formatsOf options))
  /\ (AmatlOptions.outputDir options <> EmptyString ->
      ".." ∉ Js.split Path.slash subDir ->
      isUnder (AmatlOptions.outputDir options) (outputFileOf E options file format)
      /\ Path.segments (outputFileOf E options file format) =
         Path.segments (AmatlOptions.outputDir options)
         ++ List.filter Path.keptSegment (Js.split Path.slash subDir)
         ++ [Path.basename file (Path.extname file) +:+ "." +:+ extension]).
Proof.
  intros Hposix Hformat extension subDir. split; [reflexivity|].
  split; [|split; [|split]].
  - unfold outputFileOf.
    replace (baseNameOf file +:+ "." +:+ extension)
      with (baseNameOf file +:+ ("." +:+ extension)) by reflexivity.
    apply join_keeps_tail;
      rewrite !elem_of_cons in Hformat;
      destruct Hformat as [->|[->|[->|H]]]; try reflexivity; try (simpl; lia);
      now apply elem_of_nil in H.
  - rewrite renderArgs_shape.
    exists (["render"] ++ pushIfProvided (AmatlOptions.config options)
                            (fun config => ["-c"; config]) [] ++ [format]).
    eexists. rewrite <- !app_assoc. cbn [app]. reflexivity.
  - intros r Hr. apply jobResult_fulfilled in Hr. now subst r.
  - intros Hdir Hclimb.
    destruct (outputFile_segments E options file format Hdir Hformat Hclimb)
      as [Habs Hsegs].
    split; [|exact Hsegs]. split; [exact Habs|].
    eexists. split; [exact Hsegs|].
    rewrite elem_of_app, list_elem_of_singleton. intros [Hin|Heq].
    + apply Hclimb. apply list_elem_of_In in Hin. apply filter_In in Hin.
      apply list_elem_of_In. tauto.
    + apply (f_equal String.length) in Heq.
      unfold baseNameOf in Heq. rewrite !length_app_s in Heq.
      rewrite !elem_of_cons, elem_of_nil in Hformat.
      destruct Hformat as [->|[->|[->|[]]]]; simpl in Heq; lia.
Qed.

(** C3, as stated, fails: the output path of a file outside the working
    directory is not under the output directory. *)
Lemma output_path_leaves_output_directory_counterexample :
  ~ isUnder (AmatlOptions.outputDir Demo.options)
      (outputFileOf Demo.host Demo.options "../notes/a.md" "html").
Proof.
  intros [_ (below & Hsegs & _)]. vm_compute in Hsegs. discriminate Hsegs.
Qed.

(** The relative directory of the file is mirrored below the output
    directory, also for an absolute path inside the working directory. *)
Example output_path_mirrors_subdirectory :
  outputFileOf Demo.host Demo.options "/ws/docs/guide/intro.md" "pdf" =
    "out/docs/guide/intro.pdf"
  /\ outputFileOf Demo.host Demo.options "README.md" "html" = "out/README.html".
Proof. split; reflexivity. Qed.

(** For a file outside the working directory the relative directory
    climbs, and so does the joined path. *)
Example output_path_outside_working_directory :
  outputFileOf Demo.host Demo.options "../notes/a.md" "html" = "notes/a.html".
Proof. reflexivity. Qed.

Lemma output_path_extension_witness :
  outputFileOf Demo.host Demo.options "docs/guide/intro.md" "markdown" =
    "out/docs/guide/intro.md"
  /\ Js.endsWith ".md"
       (outputFileOf Demo.host Demo.options "docs/guide/intro.md" "markdown")
  /\ isUnder "out"
       (outputFileOf Demo.host Demo.options "docs/guide/intro.md" "markdown").
Proof.
  destruct (output_path_extension Demo.host "amatl" Demo.options
              "docs/guide/intro.md" "markdown") as (Hpath & Hext & _ & _ & Hunder).
  - discriminate.
  - rewrite !elem_of_cons. auto.
  - split; [rewrite Hpath; reflexivity|]. split; [exact Hext|].
    apply Hunder.
    + discriminate.
    + vm_compute. intros Hin. apply list_elem_of_In in Hin.
      simpl in Hin. destruct Hin as [H|[H|[]]]; discriminate H.
Defined.

(** ** The layout flag *)


Lemma layoutApplies_spec options format :
  layoutApplies options format = true <->
  (format = "html" \/ format = "pdf") /\
  exists l, AmatlOptions.layout options = Some l /\ l <> EmptyString.
Proof.
  unfold layoutApplies, Js.provided.
  rewrite andb_true_iff, orb_true_iff, !String.eqb_eq.
  destruct (AmatlOptions.layout options) as [[|c l]|]; simpl; split.
  - intros [_ [=]].
  - intros [_ (l & [= <-] & H)]. congruence.
  - intros [H _]. split; [exact H|]. eexists; split; [reflexivity|congruence].
  - tauto.
  - intros [_ [=]].
  - intros [_ (l & [=] & _)].
Qed.

Lemma layoutArgs_layoutApplies options format :
  layoutArgs options format =
  if layoutApplies options format
  then ["--html-layout"; default EmptyString (AmatlOptions.layout options)]
  else [].
Proof.
  unfold layoutArgs, layoutApplies, pushIfProvided, Js.provided.
  destruct (String.eqb format "html" || String.eqb format "pdf"); [|reflexivity].
  destruct (AmatlOptions.layout options) as [[|c l]|]; reflexivity.
Qed.

Lemma elem_of_pushIfProvided_flag (flag key : string) value :
  key <> flag ->
  flag ∈ pushIfProvided value (fun v => [key; v]) [] <->
  flag ∈ pushIfProvided value (fun v => [v]) [].
Proof.
  intros Hkey. unfold pushIfProvided.
  destruct value as [v|]; [destruct (Js.truthy v)|]; cbn [app];
    rewrite ?elem_of_cons; intuition congruence.
Qed.

(** C4, as amended.  The argument array is the fixed head, then what the
    layout step pushes, then the rest; the layout step pushes
    [--html-layout] and the layout exactly when the format is [html] or
    [pdf] and a non-empty layout is configured, and nothing otherwise (so
    nothing for [markdown]); the array as a whole holds [--html-layout]
    exactly when the layout step pushed it or one of the strings supplied
    by the caller (configuration value, format, output path, variables
    value, parsed additional arguments, input file) is that string. *)
Theorem html_layout_flag
  (E : Externals) (options : AmatlOptions.t) (file format : string) :
  exists layoutPart,
    renderArgs E options file format =
      (["render"]
       ++ pushIfProvided (AmatlOptions.config options) (fun config => ["-c"; config]) []
       ++ [format; "-o"; outputFileOf E options file format])
      ++ layoutPart
      ++ (pushIfProvided (AmatlOptions.vars options) (fun vars => ["--vars"; vars]) []
          ++ pushIfProvided (AmatlOptions.additionalArgs options) (stringArgv E) []
          ++ [file])
    /\ layoutPart =
       (if layoutApplies options format
        then ["--html-layout"; default EmptyString (AmatlOptions.layout options)]
        else [])
    /\ (layoutApplies options format = true <->
        (format = "html" \/ format = "pdf") /\
        exists l, AmatlOptions.layout options = Some l /\ l <> EmptyString)
    /\ ("--html-layout" ∈ renderArgs E options file format <->
        layoutApplies options format = true
        \/ "--html-layout" ∈ suppliedArgs E options file format).
Proof.
  exists (layoutArgs options format). split; [|split; [|split]].
  - rewrite renderArgs_shape. now rewrite <- !app_assoc.
  - apply layoutArgs_layoutApplies.
  - apply layoutApplies_spec.
  - rewrite renderArgs_shape, layoutArgs_layoutApplies. unfold suppliedArgs.
    rewrite !elem_of_app.
    rewrite (elem_of_pushIfProvided_flag "--html-layout" "-c") by discriminate.
    rewrite (elem_of_pushIfProvided_flag "--html-layout" "--vars") by discriminate.
    destruct (layoutApplies options format);
      rewrite !elem_of_cons, !elem_of_nil;
      intuition (try discriminate; auto).
Qed.

(** C4, as stated, fails: for the format [markdown] with a layout
    configured, additional arguments that name the flag put it in the
    argument array. *)
Lemma html_layout_flag_counterexample :
  ~ ("--html-layout"
       ∈ renderArgs Demo.host
           (Demo.withAdditionalArgs "--html-layout amatl://document.html"
              (Demo.withFormat "markdown" Demo.options))
           "a.md" "markdown"
     <-> ("markdown" = "html" \/ "markdown" = "pdf")
         /\ Js.provided
              (AmatlOptions.layout
                 (Demo.withAdditionalArgs "--html-layout amatl://document.html"
                    (Demo.withFormat "markdown" Demo.options))) = true).
Proof.
  intros [Hpresent _].
  destruct Hpresent as [[H|H] _]; [|discriminate H|discriminate H].
  apply list_elem_of_In. vm_compute. auto 10.
Qed.

(** ** Installation *)

Section Tables.

Lemma osNameTable_None platform :
  platform ∉ ["linux"; "darwin"; "win32"] -> osNameTable platform = None.
Proof.
  intros H. unfold osNameTable.
  destruct (String.eqb_spec platform "linux") as [->|_];
    [exfalso; apply H; rewrite !elem_of_cons; auto|].
  destruct (String.eqb_spec platform "darwin") as [->|_];
    [exfalso; apply H; rewrite !elem_of_cons; auto|].
  destruct (String.eqb_spec platform "win32") as [->|_];
    [exfalso; apply H; rewrite !elem_of_cons; auto|].
  reflexivity.
Qed.

Lemma osNameTable_Some_of_elem platform :
  platform ∈ ["linux"; "darwin"; "win32"] ->
  exists osName, osNameTable platform = Some osName.
Proof.
  rewrite !elem_of_cons, elem_of_nil.
  intros [->|[->|[->|[]]]]; eexists; reflexivity.
Qed.

Lemma osNameTable_pairs platform osName :
  (platform, osName) ∈
    [("linux", "linux"); ("darwin", "darwin"); ("win32", "windows")] ->
  osNameTable platform = Some osName.
Proof.
  rewrite !elem_of_cons, elem_of_nil.
  intros [[= -> ->]|[[= -> ->]|[[= -> ->]|[]]]]; reflexivity.
Qed.

Lemma archNameTable_None arch :
  arch ∉ ["x64"; "arm64"] -> archNameTable arch = None.
Proof.
  intros H. unfold archNameTable.
  destruct (String.eqb_spec arch "x64") as [->|_];
    [exfalso; apply H; rewrite !elem_of_cons; auto|].
  destruct (String.eqb_spec arch "arm64") as [->|_];
    [exfalso; apply H; rewrite !elem_of_cons; auto|].
  reflexivity.
Qed.

Lemma archNameTable_pairs arch archName :
  (arch, archName) ∈ [("x64", "amd64"); ("arm64", "arm64")] ->
  archNameTable arch = Some archName.
Proof.
  rewrite !elem_of_cons, elem_of_nil.
  intros [[= -> ->]|[[= -> ->]|[]]]; reflexivity.
Qed.

End Tables.

Section Install.
Context (E : Externals).

(** The two [switch] statements compute the tables. *)
Lemma osNameOf_table platform :
  osNameOf platform =
  match osNameTable platform with
  | Some osName => Ret osName
  | None => Throw (newError ("Unsupported platform: " +:+ platform))
  end.
Proof.
  unfold osNameOf, osNameTable.
  repeat (destruct (String.eqb platform _); [reflexivity|]). reflexivity.
Qed.

Lemma archNameOf_table arch :
  archNameOf arch =
  match archNameTable arch with
  | Some archName => Ret archName
  | None => Throw (newError ("Unsupported architecture: " +:+ arch))
  end.
Proof.
  unfold archNameOf, archNameTable.
  repeat (destruct (String.eqb arch _); [reflexivity|]). reflexivity.
Qed.

(** Version resolution never throws. *)
Lemma getLatestAmatlVersion_total t :
  exists added v, interp E getLatestAmatlVersion t = (t ++ added, Ok v).
Proof.
  unfold getLatestAmatlVersion.
  rewrite interp_tryCatch, mbind_prog, interp_bind, interp_await. cbn [perform callOf].
  destruct (fetch E latestReleaseUrl) as [response|e].
  - rewrite mbind_prog, interp_bind, interp_await. cbn [perform callOf].
    destruct (response_json E response) as [[|tag]|e]; simpl;
      rewrite <- ?app_assoc; eauto.
  - simpl. rewrite <- ?app_assoc; eauto.
Qed.

Lemma getLatestAmatlVersion_fallback t :
  metadataQueryFails E ->
  exists e calls,
    interp E getLatestAmatlVersion t =
    (t ++ map Issued calls
       ++ [LogWarning ("Failed to get latest version, using v0.25.1: "
                       +:+ showError e)],
     Ok (Some "v0.25.1")).
Proof.
  unfold metadataQueryFails, getLatestAmatlVersion.
  rewrite interp_tryCatch, mbind_prog, interp_bind, interp_await. cbn [perform callOf].
  destruct (fetch E latestReleaseUrl) as [response|e].
  - rewrite mbind_prog, interp_bind, interp_await. cbn [perform callOf].
    destruct (response_json E response) as [[|tag]|e]; simpl; intros H.
    + exists (JsErr "TypeError" "Cannot read properties of null (reading 'tag_name')"),
        [CallFetch latestReleaseUrl; CallJson].
      now rewrite <- !app_assoc.
    + destruct H.
    + exists e, [CallFetch latestReleaseUrl; CallJson].
      now rewrite <- !app_assoc.
  - intros _. exists e, [CallFetch latestReleaseUrl]. simpl.
    now rewrite <- !app_assoc.
Qed.

Lemma installAmatl_unsupported_platform version t :
  Js.truthy (tc_find E "amatl" version) = false ->
  osNameTable (platform E) = None ->
  interp E (installAmatl E version) t =
  (t ++ [LogInfo ("Installing amatl version: " +:+ version)],
   Err (newError ("Unsupported platform: " +:+ platform E))).
Proof.
  intros Hmiss Hos. unfold installAmatl. cbn [interp]. rewrite Hmiss.
  now rewrite mbind_prog, interp_bind, osNameOf_table, Hos.
Qed.

Lemma installAmatl_unsupported_arch version t osName :
  Js.truthy (tc_find E "amatl" version) = false ->
  osNameTable (platform E) = Some osName ->
  archNameTable (arch E) = None ->
  interp E (installAmatl E version) t =
  (t ++ [LogInfo ("Installing amatl version: " +:+ version)],
   Err (newError ("Unsupported architecture: " +:+ arch E))).
Proof.
  intros Hmiss Hos Harch. unfold installAmatl. cbn [interp]. rewrite Hmiss.
  rewrite mbind_prog, interp_bind, osNameOf_table, Hos. cbn [interp].
  now rewrite mbind_prog, interp_bind, archNameOf_table, Harch.
Qed.

(** On a supported host the version is resolved, and the archive named
    after the resolved version, the operating system and the
    architecture is requested. *)
Lemma installAmatl_supported version t osName archName :
  Js.truthy (tc_find E "amatl" version) = false ->
  osNameTable (platform E) = Some osName ->
  archNameTable (arch E) = Some archName ->
  exists t1 resolved,
    (if String.eqb version "latest"
     then interp E getLatestAmatlVersion
            (t ++ [LogInfo ("Installing amatl version: " +:+ version)])
     else (t ++ [LogInfo ("Installing amatl version: " +:+ version)],
           Ok (Some version))) = (t1, Ok resolved)
    /\ match resolved with
       | None =>
           interp E (installAmatl E version) t =
           (t1, Err (JsErr "TypeError"
                       "Cannot read properties of undefined (reading 'replace')"))
       | Some actualVersion =>
           exists rest,
             fst (interp E (installAmatl E version) t) =
             t1 ++ [LogInfo ("Downloading amatl from: "
                             +:+ downloadUrlOf actualVersion osName archName);
                    Issued (CallDownloadTool
                              (downloadUrlOf actualVersion osName archName))]
                ++ rest
       end.
Proof.
  intros Hmiss Hos Harch. unfold installAmatl. cbn [interp]. rewrite Hmiss.
  rewrite mbind_prog, interp_bind, osNameOf_table, Hos. cbn [interp].
  rewrite mbind_prog, interp_bind, archNameOf_table, Harch. cbn [interp].
  rewrite mbind_prog, interp_bind.
  set (t0 := t ++ [LogInfo ("Installing amatl version: " +:+ version)]).
  assert (Hres : exists t1 resolved,
             interp E (if String.eqb version "latest"
                       then getLatestAmatlVersion else Ret (Some version)) t0
             = (t1, Ok resolved)).
  { destruct (String.eqb version "latest").
    - destruct (getLatestAmatlVersion_total t0) as (added & v & H). eauto.
    - simpl. eauto. }
  destruct Hres as (t1 & resolved & Hres). exists t1, resolved. split.
  - destruct (String.eqb version "latest"); exact Hres.
  - rewrite Hres. destruct resolved as [actualVersion|]; [|reflexivity].
    cbn [interp]. rewrite mbind_prog, interp_bind, interp_await.
    cbn [perform callOf].
    destruct (tc_downloadTool E (downloadUrlOf actualVersion osName archName))
      as [downloadPath|e].
    + match goal with
      | |- context [interp E ?p ?tr] =>
          destruct (interp_extends E p tr) as [rest Hrest]
      end.
      exists rest. rewrite Hrest. now rewrite <- !app_assoc.
    + exists []. simpl. now rewrite <- !app_assoc.
Qed.

End Install.

(** C5.  On a cache miss [installAmatl] names the operating system
    [linux], [darwin] or [windows] for the platforms [linux], [darwin]
    and [win32], and the architecture [amd64] or [arm64] for [x64] and
    [arm64]: the archive it requests is named after them.  For any other
    platform it throws the unsupported-platform error, and for a known
    platform with any other architecture the unsupported-architecture
    error, in both cases at once, with nothing requested. *)
Theorem install_platform_mapping (E : Externals) (version : string) (t : Trace) :
  Js.truthy (tc_find E "amatl" version) = false ->
  let started := t ++ [LogInfo ("Installing amatl version: " +:+ version)] in
  (platform E ∉ ["linux"; "darwin"; "win32"] ->
   interp E (installAmatl E version) t =
   (started, Err (newError ("Unsupported platform: " +:+ platform E))))
  /\ (platform E ∈ ["linux"; "darwin"; "win32"] ->
      arch E ∉ ["x64"; "arm64"] ->
      interp E (installAmatl E version) t =
      (started, Err (newError ("Unsupported architecture: " +:+ arch E))))
  /\ (forall osName archName,
        (platform E, osName) ∈
          [("linux", "linux"); ("darwin", "darwin"); ("win32", "windows")] ->
        (arch E, archName) ∈ [("x64", "amd64"); ("arm64", "arm64")] ->
        exists t1 resolved,
          (if String.eqb version "latest"
           then interp E getLatestAmatlVersion started
           else (started, Ok (Some version))) = (t1, Ok resolved)
          /\ match resolved with
             | None =>
                 interp E (installAmatl E version) t =
                 (t1, Err (JsErr "TypeError"
                             "Cannot read properties of undefined (reading 'replace')"))
             | Some actualVersion =>
                 exists rest,
                   fst (interp E (installAmatl E version) t) =
                   t1 ++ [LogInfo ("Downloading amatl from: "
                                   +:+ downloadUrlOf actualVersion osName archName);
                          Issued (CallDownloadTool
                                    (downloadUrlOf actualVersion osName archName))]
                      ++ rest
             end).
Proof.
  intros Hmiss started. split; [|split].
  - intros Hp. apply installAmatl_unsupported_platform; [exact Hmiss|].
    now apply osNameTable_None.
  - intros Hp Ha. destruct (osNameTable_Some_of_elem _ Hp) as [osName Hos].
    apply (installAmatl_unsupported_arch E version t osName); auto.
    now apply archNameTable_None.
  - intros osName archName Hos Harch.
    apply installAmatl_supported; [exact Hmiss| |].
    + now apply osNameTable_pairs.
    + now apply archNameTable_pairs.
Qed.

Lemma install_platform_mapping_witness :
  interp Demo.hostBsd (installAmatl Demo.hostBsd "v0.25.1") [] =
  ([LogInfo "Installing amatl version: v0.25.1"],
   Err (newError "Unsupported platform: freebsd"))
  /\ exists rest,
       fst (interp Demo.host (installAmatl Demo.host "v1.0.0") []) =
       [LogInfo "Installing amatl version: v1.0.0";
        LogInfo "Downloading amatl from: https://github.com/Bornholm/amatl/releases/download/v1.0.0/amatl_1.0.0_linux_amd64.tar.gz";
        Issued (CallDownloadTool "https://github.com/Bornholm/amatl/releases/download/v1.0.0/amatl_1.0.0_linux_amd64.tar.gz")]
       ++ rest.
Proof.
  split.
  - destruct (install_platform_mapping Demo.hostBsd "v0.25.1" [] eq_refl) as (H & _).
    apply H. rewrite !elem_of_cons, elem_of_nil.
    intros [H'|[H'|[H'|[]]]]; discriminate H'.
  - destruct (install_platform_mapping Demo.host "v1.0.0" [] eq_refl) as (_ & _ & H).
    destruct (H "linux" "amd64") as (t1 & resolved & Hres & Hrun).
    + rewrite !elem_of_cons. auto.
    + rewrite !elem_of_cons. auto.
    + simpl in Hres. injection Hres as <- <-.
      destruct Hrun as [rest Hrest]. exists rest. exact Hrest.
Defined.

(** C6.  When the version is [latest] and the query for the latest
    release fails, version resolution does not throw: it logs a warning
    and yields [v0.25.1]; on a cache miss on a supported host the
    installation goes on to request the archive of [v0.25.1]. *)
Theorem latest_version_fallback (E : Externals) (t : Trace) :
  metadataQueryFails E ->
  (exists e calls,
     interp E getLatestAmatlVersion t =
     (t ++ map Issued calls
        ++ [LogWarning ("Failed to get latest version, using v0.25.1: "
                        +:+ showError e)],
      Ok (Some "v0.25.1")))
  /\ (forall osName archName,
        Js.truthy (tc_find E "amatl" "latest") = false ->
        (platform E, osName) ∈
          [("linux", "linux"); ("darwin", "darwin"); ("win32", "windows")] ->
        (arch E, archName) ∈ [("x64", "amd64"); ("arm64", "arm64")] ->
        exists before rest,
          fst (interp E (installAmatl E "latest") t) =
          before
          ++ [LogInfo ("Downloading amatl from: "
                       +:+ downloadUrlOf "v0.25.1" osName archName);
              Issued (CallDownloadTool (downloadUrlOf "v0.25.1" osName archName))]
          ++ rest).
Proof.
  intros Hfails. split.
  - now apply getLatestAmatlVersion_fallback.
  - intros osName archName Hmiss Hos Harch.
    destruct (installAmatl_supported E "latest" t osName archName Hmiss)
      as (t1 & resolved & Hres & Hrun).
    + now apply osNameTable_pairs.
    + now apply archNameTable_pairs.
    + rewrite String.eqb_refl in Hres.
      destruct (getLatestAmatlVersion_fallback E
                  (t ++ [LogInfo ("Installing amatl version: " +:+ "latest")]) Hfails)
        as (e & calls & Hfb).
      rewrite Hfb in Hres. injection Hres as <- <-.
      destruct Hrun as [rest Hrest]. eauto.
Qed.

(** The fallback is for a query that throws.  A response that parses but
    has no [tag_name] is not caught: the version is [undefined] and the
    installation throws. *)
Example latest_without_tag_name :
  interp Demo.hostNoTag (installAmatl Demo.hostNoTag "latest") [] =
  ([LogInfo "Installing amatl version: latest";
    Issued (CallFetch latestReleaseUrl);
    Issued CallJson],
   Err (JsErr "TypeError" "Cannot read properties of undefined (reading 'replace')")).
Proof. reflexivity. Qed.

Lemma latest_version_fallback_witness :
  snd (interp Demo.host getLatestAmatlVersion []) = Ok (Some "v0.25.1")
  /\ exists before rest,
       fst (interp Demo.host (installAmatl Demo.host "latest") []) =
       before
       ++ [LogInfo "Downloading amatl from: https://github.com/Bornholm/amatl/releases/download/v0.25.1/amatl_0.25.1_linux_amd64.tar.gz";
           Issued (CallDownloadTool "https://github.com/Bornholm/amatl/releases/download/v0.25.1/amatl_0.25.1_linux_amd64.tar.gz")]
       ++ rest.
Proof.
  destruct (latest_version_fallback Demo.host [] I) as ((e & calls & Hv) & Hinstall).
  split.
  - now rewrite Hv.
  - apply (Hinstall "linux" "amd64"); [reflexivity| |];
      rewrite !elem_of_cons; auto.
Defined.

(** ** Discovery *)

Section Discovery.
Context (E : Externals).

Lemma globCalls_app t1 t2 : globCalls (t1 ++ t2) = globCalls t1 ++ globCalls t2.
Proof.
  induction t1 as [|ev t1 IH]; [reflexivity|].
  destruct ev as [| | | | |[]|]; simpl; now rewrite IH.
Qed.

Lemma keepMatches_interp ignoredFiles matches t :
  exists logs,
    interp E (keepMatches E ignoredFiles matches) t =
    (t ++ logs,
     Ok (filter (fun m => Path.relative (cwd E) (workspace E) m ∉ ignoredFiles)
           matches))
    /\ globCalls logs = [].
Proof.
  revert t. induction matches as [|m rest IH]; intros t; simpl.
  - exists []. now rewrite app_nil_r.
  - destruct (decide (Path.relative (cwd E) (workspace E) m ∈ ignoredFiles))
      as [Hin|Hout].
    + rewrite bool_decide_eq_true_2 by exact Hin. cbn [interp].
      destruct (IH (t ++ [LogInfo ("Ignoring markdown file '"
                   +:+ Path.relative (cwd E) (workspace E) m +:+ "'")]))
        as (logs & Hrun & Hcalls).
      eexists (_ :: logs). rewrite Hrun, <- app_assoc. split.
      * rewrite filter_cons_False by (intros H; now apply H). reflexivity.
      * exact Hcalls.
    + rewrite bool_decide_eq_false_2 by exact Hout.
      rewrite mbind_prog, interp_bind.
      destruct (IH t) as (logs & Hrun & Hcalls).
      exists logs. rewrite Hrun. simpl. split; [|exact Hcalls].
      now rewrite filter_cons_True by exact Hout.
Qed.

Lemma searchPatterns_interp ignore patterns files t :
  exists added,
    interp E (searchPatterns E (list_to_set (Js.split Js.newline_char ignore))
                patterns files) t =
    (t ++ added, Ok (files ++ concat (map (keptMatches E ignore) patterns)))
    /\ globCalls added = map (fun pattern => (pattern, globOptions)) patterns.
Proof.
  revert files t. induction patterns as [|pattern rest IH]; intros files t.
  - exists []. simpl. now rewrite !app_nil_r.
  - cbn [searchPatterns interp].
    rewrite mbind_prog, interp_bind, interp_await. cbn [perform callOf].
    rewrite mbind_prog, interp_bind.
    match goal with
    | |- context [interp E (keepMatches E ?s ?ms) ?tr] =>
        destruct (keepMatches_interp s ms tr) as (logs & Hkeep & Hlogs)
    end.
    rewrite Hkeep.
    match goal with
    | |- context [interp E (searchPatterns E _ rest ?fs) ?tr] =>
        destruct (IH fs tr) as (added & Hrest & Hcalls)
    end.
    rewrite Hrest.
    eexists (_ :: _ :: logs ++ added). split.
    + f_equal.
      * rewrite <- !app_assoc. reflexivity.
      * f_equal. cbn [map concat]. unfold keptMatches at 1.
        now rewrite <- ?app_assoc.
    + cbn [globCalls map]. now rewrite globCalls_app, Hlogs, Hcalls.
Qed.

Lemma findMarkdownFiles_interp patterns ignore t :
  exists added,
    interp E (findMarkdownFiles E patterns ignore) t =
    (t ++ added, Ok (discoverySpec E patterns ignore))
    /\ globCalls added =
       map (fun pattern => (pattern, globOptions))
         (Js.split Js.newline_char patterns).
Proof.
  unfold findMarkdownFiles. rewrite mbind_prog, interp_bind.
  destruct (searchPatterns_interp ignore (Js.split Js.newline_char patterns) [] t)
    as (added & Hrun & Hcalls).
  rewrite Hrun. cbn [interp app].
  eexists (added ++ [_]). rewrite <- app_assoc. split; [reflexivity|].
  rewrite globCalls_app, Hcalls. simpl. now rewrite app_nil_r.
Qed.

(** Multiplicities add up over a concatenation. *)
Lemma count_occ_concat (x : string) (ls : list (list string)) :
  count_occ string_dec (concat ls) x =
  list_sum (map (fun l => count_occ string_dec l x) ls).
Proof.
  induction ls as [|l ls IH]; [reflexivity|].
  simpl. now rewrite count_occ_app, IH.
Qed.

End Discovery.

(** C9.  [findMarkdownFiles] never throws and returns, for the patterns
    split at newlines and taken in order, the concatenation of each
    pattern's matches without those whose path relative to the workspace
    is in the set of the ignore lines; every pattern is handed to [glob]
    once, in order, with [nodir] set; nothing is deduplicated: the number
    of times a file occurs in the result is the sum over the patterns of
    the times it occurs among the pattern's kept matches; and, [glob]
    returning no directory when [nodir] is set, the result holds no
    directory. *)
Theorem discovery_is_ordered_concatenation
  (E : Externals) (patterns ignore : string) (t : Trace) :
  exists added,
    interp E (findMarkdownFiles E patterns ignore) t =
    (t ++ added,
     Ok (concat
           (map (fun pattern =>
                   filter (fun m =>
                             Path.relative (cwd E) (workspace E) m
                             ∉ (list_to_set (Js.split Js.newline_char ignore)
                                 : gset string))
                     (glob E pattern
                        {| GlobOptions.ignore := ["node_modules/**"; ".git/**"];
                           GlobOptions.nodir := true |}))
              (Js.split Js.newline_char patterns))))
    /\ globCalls added =
       map (fun pattern =>
              (pattern, {| GlobOptions.ignore := ["node_modules/**"; ".git/**"];
                           GlobOptions.nodir := true |}))
         (Js.split Js.newline_char patterns)
    /\ (forall file,
          count_occ string_dec (discoverySpec E patterns ignore) file =
          list_sum (map (fun pattern =>
                           count_occ string_dec (keptMatches E ignore pattern) file)
                      (Js.split Js.newline_char patterns)))
    /\ (forall isDirectory : string -> Prop,
          (forall pattern options m,
             GlobOptions.nodir options = true ->
             m ∈ glob E pattern options -> ~ isDirectory m) ->
          forall file,
            file ∈ discoverySpec E patterns ignore -> ~ isDirectory file).
Proof.
  destruct (findMarkdownFiles_interp E patterns ignore t) as (added & Hrun & Hcalls).
  exists added. split; [exact Hrun|]. split; [exact Hcalls|]. split.
  - intros file. unfold discoverySpec. now rewrite count_occ_concat, map_map.
  - intros isDirectory Hnodir file Hfile.
    unfold discoverySpec in Hfile.
    apply list_elem_of_In, in_concat in Hfile.
    destruct Hfile as (l & Hl & Hfile).
    apply in_map_iff in Hl. destruct Hl as (pattern & <- & _).
    apply list_elem_of_In in Hfile. unfold keptMatches in Hfile.
    apply list_elem_of_filter in Hfile. destruct Hfile as [_ Hfile].
    now apply (Hnodir pattern globOptions file).
Qed.

Lemma discovery_is_ordered_concatenation_witness :
  snd (interp Demo.host
         (findMarkdownFiles Demo.host ("*.md" +:+ Js.newline +:+ "**/*.md")
            EmptyString) []) = Ok ["a.md"; "a.md"; "sub/b.md"]
  /\ "sub/b.md" <> "sub".
Proof.
  destruct (discovery_is_ordered_concatenation Demo.host
              ("*.md" +:+ Js.newline +:+ "**/*.md") EmptyString [])
    as (added & Hrun & _ & _ & Hfiles).
  split.
  - rewrite Hrun. vm_compute. reflexivity.
  - apply (Hfiles (fun m => m = "sub")).
    + intros pattern options m _ Hm.
      cbn [glob Demo.host Demo.make] in Hm. unfold Demo.globTree in Hm.
      destruct (bool_decide _) in Hm;
        repeat (destruct (String.eqb pattern _) in Hm);
        cbn [app] in Hm; rewrite ?elem_of_cons, ?elem_of_nil in Hm;
        intuition (subst; discriminate).
    + apply list_elem_of_In. vm_compute. auto.
Defined.

(** The example of the specification: [a.md] and [sub/b.md] match,
    [sub/b.md] is ignored. *)
Example discovery_ignores_listed_file :
  snd (interp Demo.host
         (findMarkdownFiles Demo.host "**/*.md" "sub/b.md") []) = Ok ["a.md"].
Proof. vm_compute. reflexivity. Qed.

(** A file matched by two patterns is returned twice. *)
Example discovery_keeps_duplicates :
  snd (interp Demo.host
         (findMarkdownFiles Demo.host ("*.md" +:+ Js.newline +:+ "**/*.md")
            EmptyString) []) = Ok ["a.md"; "a.md"; "sub/b.md"].
Proof. vm_compute. reflexivity. Qed.

(** C10.  Every call to [glob] carries the fixed ignore list
    [node_modules/**], [.git/**], whatever the patterns and the ignore
    input are; hence, [glob] honouring its ignore list, no returned path
    lies under [node_modules/] or [.git/]. *)
Theorem discovery_skips_vendored_directories
  (E : Externals) (patterns ignore : string) (t : Trace) :
  globHonoursIgnore E ->
  Forall (fun call => GlobOptions.ignore (snd call) = ["node_modules/**"; ".git/**"])
    (globCalls (skipn (length t)
                  (fst (interp E (findMarkdownFiles E patterns ignore) t))))
  /\ forall files,
       snd (interp E (findMarkdownFiles E patterns ignore) t) = Ok files ->
       forall file, file ∈ files ->
         String.prefix "node_modules/" file = false
         /\ String.prefix ".git/" file = false.
Proof.
  intros Hglob.
  destruct (findMarkdownFiles_interp E patterns ignore t) as (added & Hrun & Hcalls).
  rewrite Hrun. cbn [fst snd]. split.
  - rewrite drop_app_length, Hcalls. apply Forall_map, Forall_forall. reflexivity.
  - intros files [= <-] file Hfile.
    unfold discoverySpec in Hfile.
    apply list_elem_of_In, in_concat in Hfile.
    destruct Hfile as (l & Hl & Hfile).
    apply in_map_iff in Hl. destruct Hl as (pattern & <- & _).
    apply list_elem_of_In in Hfile. unfold keptMatches in Hfile.
    apply list_elem_of_filter in Hfile. destruct Hfile as [_ Hfile].
    split.
    + apply (Hglob pattern globOptions file "node_modules");
        [| exact Hfile |]; apply list_elem_of_In; simpl; auto.
    + apply (Hglob pattern globOptions file ".git");
        [| exact Hfile |]; apply list_elem_of_In; simpl; auto.
Qed.

Lemma discovery_skips_vendored_directories_witness :
  Forall (fun call => GlobOptions.ignore (snd call) = ["node_modules/**"; ".git/**"])
    (globCalls
       (drop (length ([] : Trace))
          (fst (interp Demo.host
                  (findMarkdownFiles Demo.host
                     ("node_modules/**/*.md" +:+ Js.newline +:+ "**/*.md")
                     EmptyString) []))))
  /\ String.prefix "node_modules/" "sub/b.md" = false
  /\ String.prefix ".git/" "sub/b.md" = false.
Proof.
  assert (Hglob : globHonoursIgnore Demo.host).
  { intros pattern options m dir Hdir Hm Hig.
    cbn [glob Demo.host Demo.make] in Hm. unfold Demo.globTree in Hm.
    rewrite !elem_of_cons, elem_of_nil in Hdir.
    destruct Hdir as [->|[->|[]]].
    - rewrite bool_decide_eq_true_2 in Hm by exact Hig.
      repeat (destruct (String.eqb pattern _) in Hm);
        cbn [app] in Hm; rewrite ?elem_of_cons, ?elem_of_nil in Hm;
        intuition (subst; reflexivity).
    - destruct (bool_decide _) in Hm;
        repeat (destruct (String.eqb pattern _) in Hm);
        cbn [app] in Hm; rewrite ?elem_of_cons, ?elem_of_nil in Hm;
        intuition (subst; reflexivity). }
  destruct (discovery_skips_vendored_directories Demo.host
              ("node_modules/**/*.md" +:+ Js.newline +:+ "**/*.md")
              EmptyString [] Hglob) as [Hcalls Hfiles].
  split; [exact Hcalls|].
  apply (Hfiles ["a.md"; "sub/b.md"]).
  - vm_compute. reflexivity.
  - rewrite !elem_of_cons. auto.
Defined.

(** ** The top level *)

Section Top.
Context (E : Externals).

Lemma jointWaits_app t1 t2 : jointWaits (t1 ++ t2) = jointWaits t1 ++ jointWaits t2.
Proof.
  induction t1 as [|ev t1 IH]; [reflexivity|].
  destruct ev; simpl; now rewrite IH.
Qed.

Lemma execCalls_app t1 t2 : execCalls (t1 ++ t2) = execCalls t1 ++ execCalls t2.
Proof.
  induction t1 as [|ev t1 IH]; [reflexivity|].
  destruct ev as [| | | | |[]|]; simpl; now rewrite IH.
Qed.

Lemma m_bind_unfold {A B} (m : M A) (f : A -> M B) t :
  (m ≫= f) t =
  match m t with
  | (t', Ok a) => f a t'
  | (t', Err e) => (t', Err e)
  end.
Proof. reflexivity. Qed.

Lemma outputsOf_snoc t ev :
  outputsOf (t ++ [ev]) =
  match ev with
  | SetOutput name value => <[name := value]> (outputsOf t)
  | _ => outputsOf t
  end.
Proof. unfold outputsOf. now rewrite fold_left_app. Qed.

Lemma failureOf_snoc t ev :
  failureOf (t ++ [ev]) =
  match ev with
  | SetFailed msg => Some msg
  | _ => failureOf t
  end.
Proof. unfold failureOf. now rewrite fold_left_app. Qed.

Lemma failureOf_logs t added :
  Forall isLog added -> failureOf (t ++ added) = failureOf t.
Proof.
  induction added as [|ev added IH] using rev_ind; intros H.
  - now rewrite app_nil_r.
  - apply Forall_app in H. destruct H as [Hadded Hev].
    rewrite app_assoc, failureOf_snoc, (IH Hadded).
    apply Forall_inv in Hev. now destruct ev.
Qed.

(** Programs that only log emit only log events. *)
Lemma Emits_bind P {A B} (p : Prog A) (f : A -> Prog B) :
  Emits P p -> (forall a, Emits P (f a)) -> Emits P (bind p f).
Proof.
  intros Hp Hf. induction Hp; simpl; try constructor; auto.
Qed.

Lemma Emits_tryCatch P {A} (p : Prog A) (h : JsError -> Prog A) :
  Emits P p -> (forall e, Emits P (h e)) -> Emits P (tryCatch p h).
Proof.
  intros Hp Hh. induction Hp; simpl; try constructor; auto.
Qed.

Lemma Emits_await P {R} (op : Op R) :
  P (Issued (callOf op)) -> Emits P (await op).
Proof.
  intros H. constructor; [exact H|]. intros [x|e]; constructor.
Qed.

Lemma Emits_interp P {A} (p : Prog A) t :
  Emits P p ->
  exists added, fst (interp E p t) = t ++ added /\ Forall P added.
Proof.
  intros Hp. revert t. induction Hp as [a|e|ev k Hev Hk IH|R op k Hop Hk IH];
    intros t; simpl.
  - exists []. now rewrite app_nil_r.
  - exists []. now rewrite app_nil_r.
  - destruct (IH (t ++ [ev])) as (added & -> & Hadded).
    exists (ev :: added). rewrite <- app_assoc. split; [reflexivity|].
    now constructor.
  - destruct (IH (perform E op) (t ++ [Issued (callOf op)])) as (added & -> & Hadded).
    exists (Issued (callOf op) :: added). rewrite <- app_assoc.
    split; [reflexivity|]. now constructor.
Qed.


Lemma getLatestAmatlVersion_logs : Emits isLog getLatestAmatlVersion.
Proof.
  unfold getLatestAmatlVersion.
  apply Emits_tryCatch.
  - rewrite mbind_prog. apply Emits_bind; [apply Emits_await; exact I|].
    intros response. rewrite mbind_prog.
    apply Emits_bind; [apply Emits_await; exact I|].
    intros [|tag]; constructor.
  - intros e. constructor; [exact I|constructor].
Qed.

Lemma installAmatl_logs version : Emits isLog (installAmatl E version).
Proof.
  unfold installAmatl. constructor; [exact I|].
  destruct (Js.truthy (tc_find E "amatl" version)).
  - constructor; [exact I|constructor].
  - rewrite mbind_prog. apply Emits_bind.
    { rewrite osNameOf_table. destruct (osNameTable (platform E)); constructor. }
    intros osName. rewrite mbind_prog. apply Emits_bind.
    { rewrite archNameOf_table. destruct (archNameTable (arch E)); constructor. }
    intros archName. rewrite mbind_prog. apply Emits_bind.
    { destruct (String.eqb version "latest");
        [apply getLatestAmatlVersion_logs|constructor]. }
    intros [actualVersion|]; [|constructor].
    constructor; [exact I|].
    rewrite mbind_prog. apply Emits_bind; [apply Emits_await; exact I|].
    intros downloadPath. rewrite mbind_prog.
    apply Emits_bind; [apply Emits_await; exact I|].
    intros extractedPath. rewrite mbind_prog.
    apply Emits_bind; [apply Emits_await; exact I|].
    intros toolPath. rewrite mbind_prog. apply Emits_bind.
    { destruct (negb (String.eqb (platform E) "win32"));
        [apply Emits_await; exact I|constructor]. }
    intros _. constructor; [exact I|constructor].
Qed.

Lemma keepMatches_logs ignoredFiles matches :
  Emits isLog (keepMatches E ignoredFiles matches).
Proof.
  induction matches as [|m rest IH]; simpl; [constructor|].
  destruct (bool_decide _).
  - constructor; [exact I|exact IH].
  - rewrite mbind_prog. apply Emits_bind; [exact IH|]. intros kept. constructor.
Qed.

Lemma searchPatterns_logs ignoredFiles patterns files :
  Emits isLog (searchPatterns E ignoredFiles patterns files).
Proof.
  revert files.
  induction patterns as [|pattern rest IH]; intros files; cbn [searchPatterns].
  - constructor.
  - constructor; [exact I|].
    rewrite mbind_prog. apply Emits_bind; [apply Emits_await; exact I|].
    intros matches. rewrite mbind_prog.
    apply Emits_bind; [apply keepMatches_logs|]. intros kept. apply IH.
Qed.

Lemma findMarkdownFiles_logs patterns ignore :
  Emits isLog (findMarkdownFiles E patterns ignore).
Proof.
  unfold findMarkdownFiles. rewrite mbind_prog.
  apply Emits_bind; [apply searchPatterns_logs|].
  intros files. constructor; [exact I|constructor].
Qed.

End Top.

(** C7.  When the inputs are valid, the installation succeeds and
    discovery returns no file, [run] logs a warning, sets
    [files-processed] to [0] and [output-files] to the empty array, and
    returns: nothing else is appended to the trace (no directory is made,
    no job is started, nothing is waited for) and no failure is
    reported. *)
Theorem run_without_files
  (E : Externals) (sched : list nat) (t t1 t2 : Trace) (amatLPath : string) :
  let options := readOptions E in
  validateInputs options = Ok tt ->
  interp E (installAmatl E (AmatlOptions.version options))
    (t ++ optionLines options) = (t1, Ok amatLPath) ->
  interp E (findMarkdownFiles E (AmatlOptions.patterns options)
              (AmatlOptions.ignore options)) t1 = (t2, Ok []) ->
  run E sched t =
    t2 ++ [LogWarning "No markdown files found matching the patterns";
           SetOutput "files-processed" "0";
           SetOutput "output-files" "[]"]
  /\ outputsOf (run E sched t) !! "files-processed" = Some "0"
  /\ outputsOf (run E sched t) !! "output-files" = Some "[]"
  /\ failureOf (run E sched t) = failureOf t
  /\ jointWaits (run E sched t) = jointWaits t2
  /\ execCalls (run E sched t) = execCalls t2.
Proof.
  intros options Hvalid Hinstall Hfind.
  assert (Hrun : run E sched t =
                 t2 ++ [LogWarning "No markdown files found matching the patterns";
                        SetOutput "files-processed" "0";
                        SetOutput "output-files" "[]"]).
  { unfold run, runBody. fold options.
    rewrite m_bind_unfold. unfold sayAll at 1.
    rewrite m_bind_unfold. unfold liftResult at 1. rewrite Hvalid.
    rewrite m_bind_unfold, Hinstall.
    rewrite m_bind_unfold, Hfind. cbn [length Nat.eqb].
    unfold say, mret, m_ret, mbind, m_bind. cbn beta iota.
    now rewrite <- !app_assoc. }
  rewrite Hrun. split; [reflexivity|].
  change (t2 ++ [LogWarning "No markdown files found matching the patterns";
                 SetOutput "files-processed" "0"; SetOutput "output-files" "[]"])
    with (t2 ++ [LogWarning "No markdown files found matching the patterns"]
             ++ [SetOutput "files-processed" "0"] ++ [SetOutput "output-files" "[]"]).
  rewrite !app_assoc.
  split; [|split; [|split; [|split]]].
  - rewrite !outputsOf_snoc. now rewrite lookup_insert_ne, lookup_insert_eq.
  - rewrite !outputsOf_snoc. now rewrite lookup_insert_eq.
  - rewrite !failureOf_snoc.
    destruct (Emits_interp E isLog _ (t ++ optionLines options)
                (installAmatl_logs E (AmatlOptions.version options)))
      as (a1 & H1 & Hlog1).
    destruct (Emits_interp E isLog _ t1
                (findMarkdownFiles_logs E (AmatlOptions.patterns options)
                   (AmatlOptions.ignore options)))
      as (a2 & H2 & Hlog2).
    rewrite Hinstall in H1. rewrite Hfind in H2. cbn [fst] in H1, H2.
    rewrite H2, H1, <- !app_assoc. apply failureOf_logs.
    repeat apply Forall_app_2; auto.
    unfold optionLines. repeat constructor.
  - rewrite !jointWaits_app. simpl. now rewrite !app_nil_r.
  - rewrite !execCalls_app. simpl. now rewrite !app_nil_r.
Qed.

Lemma run_without_files_witness :
  outputsOf (run Demo.hostEmpty [] []) !! "files-processed" = Some "0"
  /\ outputsOf (run Demo.hostEmpty [] []) !! "output-files" = Some "[]"
  /\ failureOf (run Demo.hostEmpty [] []) = None.
Proof.
  destruct (run_without_files Demo.hostEmpty [] []
              (fst (interp Demo.hostEmpty (installAmatl Demo.hostEmpty "latest")
                      (optionLines (readOptions Demo.hostEmpty))))
              (fst (interp Demo.hostEmpty
                      (findMarkdownFiles Demo.hostEmpty "*.md" EmptyString)
                      (fst (interp Demo.hostEmpty (installAmatl Demo.hostEmpty "latest")
                              (optionLines (readOptions Demo.hostEmpty))))))
              "/tools/amatl/amatl")
    as (_ & Hn & Hf & Hfail & _).
  - reflexivity.
  - vm_compute. reflexivity.
  - vm_compute. reflexivity.
  - split; [exact Hn|]. split; [exact Hf|exact Hfail].
Defined.

(** ** Jobs under [Promise.all] *)

Section Scheduler.
Context (E : Externals) {A : Type}.
Implicit Types (p : Prog A) (jobs : list (Prog A)) (values : list A).


Lemma outcome_advance p t : outcome E (snd (advance p t)) = outcome E p.
Proof.
  revert t. induction p as [a|e|ev k IH|R op k IH]; intros t; simpl; auto.
Qed.

Lemma outcome_resume p t : outcome E (snd (resume E p t)) = outcome E p.
Proof.
  destruct p as [a|e|ev k|R op k]; simpl; auto using outcome_advance.
Qed.

Lemma finish_outcome p t : snd (finish E p t) = outcome E p.
Proof.
  destruct p as [a|e|ev k|R op k]; simpl; auto using interp_outcome.
Qed.

Lemma finishAll_fulfils jobs t values :
  snd (finishAll E jobs t) = Ok values <-> Fulfils E jobs values.
Proof.
  unfold Fulfils. revert t values.
  induction jobs as [|p jobs IH]; intros t values; simpl.
  - split.
    + intros [= <-]. constructor.
    + intros H. inversion H. reflexivity.
  - pose proof (finish_outcome p t) as Hp.
    destruct (finish E p t) as [t' [a|e]]; simpl in Hp.
    + specialize (IH t').
      destruct (finishAll E jobs t') as [t'' [vs|e]]; simpl in *; split.
      * intros [= <-]. constructor; [now symmetry|]. now apply IH.
      * intros H. inversion H as [|? b ? vs' Hb Hvs]; subst.
        apply IH in Hvs. rewrite <- Hp in Hb. congruence.
      * discriminate.
      * intros H. inversion H as [|? b ? vs' Hb Hvs]; subst.
        apply IH in Hvs. discriminate.
    + simpl. split; [discriminate|].
      intros H. inversion H as [|? b ? vs' Hb Hvs]; subst. congruence.
Qed.

Lemma firstRejection_Some jobs e values :
  firstRejection jobs = Some e -> ~ Fulfils E jobs values.
Proof.
  unfold Fulfils. revert values.
  induction jobs as [|p jobs IH]; intros values; simpl; [discriminate|].
  intros Hrej H. inversion H as [|? b ? vs Hb Hvs]; subst.
  destruct p; simpl in Hb; try discriminate; now apply (IH vs).
Qed.

Lemma allFulfilled_Some jobs values values' :
  allFulfilled jobs = Some values ->
  (Fulfils E jobs values' <-> values' = values).
Proof.
  unfold Fulfils. revert values values'.
  induction jobs as [|p jobs IH]; intros values values'; simpl.
  - intros [= <-]. split.
    + intros H. now inversion H.
    + intros ->. constructor.
  - destruct p as [a| | |]; try discriminate.
    destruct (allFulfilled jobs) as [vs|] eqn:Hall; [|discriminate].
    intros [= <-]. split.
    + intros H. inversion H as [|? b ? vs' Hb Hvs]; subst.
      simpl in Hb. injection Hb as <-. f_equal. now apply (IH vs).
    + intros ->. constructor; [reflexivity|]. now apply (IH vs).
Qed.

Lemma Fulfils_insert jobs i p p' values :
  jobs !! i = Some p -> outcome E p' = outcome E p ->
  (Fulfils E (<[i := p']> jobs) values <-> Fulfils E jobs values).
Proof.
  unfold Fulfils. revert i values.
  induction jobs as [|q jobs IH]; intros i values Hi Hp; [discriminate|].
  destruct i as [|i]; simpl in *.
  - injection Hi as ->. split; intros H;
      inversion H as [|? b ? vs Hb Hvs]; subst; constructor; congruence.
  - split; intros H; inversion H as [|? b ? vs Hb Hvs]; subst;
      constructor; auto; now apply (IH i vs Hi Hp).
Qed.

(** [Promise.all] is fulfilled, with the values in array order, exactly
    when every job ends with a value, whatever the interleaving. *)
Lemma awaitAll_fulfils sched jobs t values :
  snd (awaitAll E sched jobs t) = Ok values <-> Fulfils E jobs values.
Proof.
  revert jobs t. induction sched as [|n sched IH]; intros jobs t.
  - cbn [awaitAll].
    destruct (firstRejection jobs) as [e|] eqn:Hrej.
    { split; [discriminate|]. intros H. exfalso.
      exact (firstRejection_Some _ _ _ Hrej H). }
    destruct (allFulfilled jobs) as [vs|] eqn:Hall.
    { rewrite (allFulfilled_Some _ _ values Hall). simpl.
      split; [now intros [= <-]|now intros ->]. }
    pose proof (finishAll_fulfils jobs t values) as H.
    destruct (finishAll E jobs t) as [t' r]. exact H.
  - cbn [awaitAll].
    destruct (firstRejection jobs) as [e|] eqn:Hrej.
    { split; [discriminate|]. intros H. exfalso.
      exact (firstRejection_Some _ _ _ Hrej H). }
    destruct (allFulfilled jobs) as [vs|] eqn:Hall.
    { rewrite (allFulfilled_Some _ _ values Hall). simpl.
      split; [now intros [= <-]|now intros ->]. }
    destruct (jobs !! _) as [p|] eqn:Hlook; [|apply IH].
    pose proof (outcome_resume p t) as Hres.
    destruct (resume E p t) as [t' p']. simpl in Hres.
    rewrite IH. now apply Fulfils_insert with p.
Qed.

(** Completing the awaited call of a job and letting it run alone
    afterwards is letting it run alone. *)
Lemma finish_advance (q : Prog A) t :
  finish E (snd (advance q t)) (fst (advance q t)) = interp E q t.
Proof.
  revert t. induction q as [a|e|ev k IH|R op k IH]; intros t; simpl; auto.
Qed.

Lemma finish_resume p t :
  finish E (snd (resume E p t)) (fst (resume E p t)) = finish E p t.
Proof.
  destruct p as [a|e|ev k|R op k]; simpl; auto using finish_advance.
Qed.

(** A window of one job: the choices do not matter. *)
Lemma awaitAll_single sched p t :
  exists sched',
    awaitAll E sched [p] t =
    (fst (finish E p t), sched',
     match snd (finish E p t) with
     | Ok a => Ok [a]
     | Err e => Err e
     end).
Proof.
  revert p t. induction sched as [|n sched IH]; intros p t.
  - destruct p as [a|e|ev k|R op k]; cbn [awaitAll firstRejection allFulfilled];
      try (eexists; reflexivity).
    + exists []. cbn [finishAll]. now destruct (finish E (Emit ev k) t) as [t' [a|e]].
    + exists []. cbn [finishAll]. now destruct (finish E (Await op k) t) as [t' [a|e]].
  - destruct p as [a|e|ev k|R op k]; cbn [awaitAll firstRejection allFulfilled];
      try (eexists; reflexivity).
    + cbn [pendingFrom isPending length]. rewrite Nat.mod_1_r.
      cbn [nth lookup list_lookup list_insert insert].
      pose proof (finish_resume (Emit ev k) t) as Hres.
      destruct (resume E (Emit ev k) t) as [t' p']. simpl fst in Hres; simpl snd in Hres.
      destruct (IH p' t') as [sched' ->]. exists sched'. now rewrite Hres.
    + cbn [pendingFrom isPending length]. rewrite Nat.mod_1_r.
      cbn [nth lookup list_lookup list_insert insert].
      pose proof (finish_resume (Await op k) t) as Hres.
      destruct (resume E (Await op k) t) as [t' p']. simpl fst in Hres; simpl snd in Hres.
      destruct (IH p' t') as [sched' ->]. exists sched'. now rewrite Hres.
Qed.

(** *** What the jobs log *)

Lemma Emits_advance P p t :
  Emits P p ->
  Emits P (snd (advance p t))
  /\ exists added, fst (advance p t) = t ++ added /\ Forall P added.
Proof.
  intros Hp. revert t.
  induction Hp as [a|e|ev k Hev Hk IH|R op k Hop Hk IH]; intros t; simpl.
  - split; [constructor|]. exists []. now rewrite app_nil_r.
  - split; [constructor|]. exists []. now rewrite app_nil_r.
  - destruct (IH (t ++ [ev])) as (Hk' & added & -> & Hadded).
    split; [exact Hk'|]. exists (ev :: added).
    rewrite <- app_assoc. split; [reflexivity|now constructor].
  - split; [now constructor|]. exists [Issued (callOf op)].
    split; [reflexivity|now repeat constructor].
Qed.

Lemma Emits_resume P p t :
  Emits P p ->
  Emits P (snd (resume E p t))
  /\ exists added, fst (resume E p t) = t ++ added /\ Forall P added.
Proof.
  intros Hp. destruct Hp as [a|e|ev k Hev Hk|R op k Hop Hk]; simpl.
  - split; [constructor|]. exists []. now rewrite app_nil_r.
  - split; [constructor|]. exists []. now rewrite app_nil_r.
  - apply (Emits_advance P (Emit ev k)). now constructor.
  - apply Emits_advance. apply Hk.
Qed.

Lemma Emits_finish P p t :
  Emits P p ->
  exists added, fst (finish E p t) = t ++ added /\ Forall P added.
Proof.
  intros Hp. destruct Hp as [a|e|ev k Hev Hk|R op k Hop Hk]; simpl.
  - exists []. now rewrite app_nil_r.
  - exists []. now rewrite app_nil_r.
  - apply (Emits_interp E P (Emit ev k)). now constructor.
  - apply Emits_interp. apply Hk.
Qed.

Lemma Emits_finishAll P jobs t :
  Forall (Emits P) jobs ->
  exists added, fst (finishAll E jobs t) = t ++ added /\ Forall P added.
Proof.
  intros Hjobs. revert t.
  induction Hjobs as [|p jobs Hp Hjobs IH]; intros t; simpl.
  - exists []. now rewrite app_nil_r.
  - destruct (Emits_finish P p t Hp) as (a1 & H1 & Ha1).
    destruct (finish E p t) as [t' [a|e]]; simpl in H1; subst t'.
    + destruct (IH (t ++ a1)) as (a2 & H2 & Ha2).
      destruct (finishAll E jobs (t ++ a1)) as [t'' [vs|e]];
        simpl in *; subst t''; exists (a1 ++ a2);
        rewrite <- app_assoc; split; auto using Forall_app_2.
    + exists a1. auto.
Qed.

Lemma Emits_awaitAll P sched jobs t :
  Forall (Emits P) jobs ->
  exists added,
    fst (fst (awaitAll E sched jobs t)) = t ++ added /\ Forall P added.
Proof.
  revert jobs t. induction sched as [|n sched IH]; intros jobs t Hjobs;
    cbn [awaitAll];
    (destruct (firstRejection jobs) as [e|];
     [exists []; now rewrite app_nil_r|]);
    (destruct (allFulfilled jobs) as [vs|];
     [exists []; now rewrite app_nil_r|]).
  - destruct (Emits_finishAll P jobs t Hjobs) as (added & H & Hadded).
    destruct (finishAll E jobs t) as [t' r]. simpl in *. eauto.
  - destruct (jobs !! _) as [p|] eqn:Hlook; [|now apply IH].
    assert (Hp : Emits P p).
    { rewrite Forall_lookup in Hjobs. eapply Hjobs, Hlook. }
    destruct (Emits_resume P p t Hp) as (Hp' & a1 & H1 & Ha1).
    destruct (resume E p t) as [t' p']. simpl in *. subst t'.
    match goal with
    | |- context [awaitAll E sched ?js ?tr] =>
        destruct (IH js tr) as (a2 & H2 & Ha2)
    end.
    { now apply Forall_insert. }
    rewrite H2. exists (a1 ++ a2). rewrite <- app_assoc.
    split; auto using Forall_app_2.
Qed.

End Scheduler.

(** ** The dispatcher *)

Section Dispatcher.
Context (E : Externals) (amatlPath : string) (options : AmatlOptions.t).

Lemma renderFormats_logs file formats outputFiles :
  Emits isLog (renderFormats E amatlPath file options formats outputFiles).
Proof.
  revert outputFiles.
  induction formats as [|format rest IH]; intros outputFiles;
    cbn [renderFormats]; [constructor|].
  rewrite mbind_prog. apply Emits_bind; [|intros produced; apply IH].
  apply Emits_tryCatch.
  - rewrite mbind_prog. apply Emits_bind; [apply Emits_await; exact I|].
    intros _. constructor; [exact I|constructor].
  - intros e. constructor; [exact I|constructor].
Qed.

Lemma processMarkdownFile_logs file :
  Emits isLog (processMarkdownFile E amatlPath file options).
Proof.
  unfold processMarkdownFile. constructor; [exact I|].
  rewrite mbind_prog. apply Emits_bind; [apply Emits_await; exact I|].
  intros _. rewrite mbind_prog.
  apply Emits_bind; [apply renderFormats_logs|]. intros produced. constructor.
Qed.

Lemma jointWaits_logs added : Forall isLog added -> jointWaits added = [].
Proof.
  induction 1 as [|ev added Hev _ IH]; [reflexivity|].
  destruct ev; simpl in *; auto; contradiction.
Qed.

Lemma mergeResults_outputFiles acc results :
  ProcessResult.outputFiles (mergeResults acc results) =
  ProcessResult.outputFiles acc ++ concat (map ProcessResult.outputFiles results).
Proof.
  unfold mergeResults. revert acc.
  induction results as [|r results IH]; intros acc; simpl.
  - now rewrite app_nil_r.
  - rewrite IH. simpl. now rewrite <- app_assoc.
Qed.

Lemma mergeResults_filesProcessed acc results :
  ProcessResult.filesProcessed (mergeResults acc results) =
  ProcessResult.filesProcessed acc
  + list_sum (map ProcessResult.filesProcessed results).
Proof.
  unfold mergeResults. revert acc.
  induction results as [|r results IH]; intros acc; simpl.
  - lia.
  - rewrite IH. simpl. lia.
Qed.


Lemma JobsOf_nil : JobsOf E amatlPath options [] [].
Proof. split; constructor. Qed.

Lemma JobsOf_length batch batchFiles :
  JobsOf E amatlPath options batch batchFiles -> length batch = length batchFiles.
Proof. intros [H _]. exact (Forall2_length _ _ _ H). Qed.

Lemma JobsOf_started batch batchFiles file t :
  JobsOf E amatlPath options batch batchFiles ->
  JobsOf E amatlPath options (batch ++ [snd (advance (processMarkdownFile E amatlPath file options) t)])
    (batchFiles ++ [file]).
Proof.
  intros [Hout Hlog].
  destruct (Emits_advance isLog _ t (processMarkdownFile_logs file)) as [Hjob _].
  split.
  - apply Forall2_app; [exact Hout|]. constructor; [|constructor].
    apply outcome_advance.
  - apply Forall_app_2; [exact Hlog|]. now constructor.
Qed.

Lemma fulfilled_batch batch batchFiles results :
  JobsOf E amatlPath options batch batchFiles -> Fulfils E batch results ->
  concat (map ProcessResult.outputFiles results) =
    concat (map (jobOutputs E amatlPath options) batchFiles)
  /\ list_sum (map ProcessResult.filesProcessed results) = length batchFiles.
Proof.
  intros [Hout _] Hful. revert results Hful.
  induction Hout as [|p file batch batchFiles Hp Hout IH]; intros results Hful;
    inversion Hful as [|? r ? results' Hr Hrest]; subst; [now split|].
  destruct (IH results' Hrest) as [IHo IHn].
  rewrite Hp in Hr. simpl. rewrite IHo, IHn.
  unfold jobOutputs. rewrite Hr.
  apply jobResult_fulfilled in Hr. subst r. simpl. now split.
Qed.

(** One joint wait that is fulfilled: the results are merged in array
    order and one wait is recorded. *)
Lemma window_merged sched batch batchFiles acc t t1 sched1 results :
  JobsOf E amatlPath options batch batchFiles ->
  awaitAll E sched batch (t ++ [JointWait (length batch)]) =
    (t1, sched1, Ok results) ->
  ProcessResult.outputFiles (mergeResults acc results) =
    ProcessResult.outputFiles acc
    ++ concat (map (jobOutputs E amatlPath options) batchFiles)
  /\ ProcessResult.filesProcessed (mergeResults acc results) =
     ProcessResult.filesProcessed acc + length batchFiles
  /\ jointWaits t1 = jointWaits t ++ [length batchFiles].
Proof.
  intros Hjobs Hwait.
  assert (Hful : Fulfils E batch results).
  { apply (awaitAll_fulfils E sched batch (t ++ [JointWait (length batch)])).
    now rewrite Hwait. }
  destruct (fulfilled_batch _ _ _ Hjobs Hful) as [Ho Hn].
  rewrite mergeResults_outputFiles, mergeResults_filesProcessed, Ho, Hn.
  repeat split.
  destruct (Emits_awaitAll E isLog sched batch (t ++ [JointWait (length batch)])
              (proj2 Hjobs)) as (added & Ht & Hadded).
  rewrite Hwait in Ht. simpl in Ht. subst t1.
  rewrite !jointWaits_app, (jointWaits_logs _ Hadded), app_nil_r. simpl.
  now rewrite (JobsOf_length _ _ Hjobs).
Qed.

(** The two branches of the loop body. *)
Lemma dispatch_push batchSize file rest batch acc sched t :
  (Z.of_nat (length batch) <? batchSize)%Z = true ->
  dispatch E amatlPath options batchSize (file :: rest) batch acc sched t =
  dispatch E amatlPath options batchSize rest
    (batch ++ [snd (advance (processMarkdownFile E amatlPath file options) t)])
    acc sched (fst (advance (processMarkdownFile E amatlPath file options) t)).
Proof.
  intros Hlt. cbn [dispatch]. rewrite Hlt.
  now destruct (advance (processMarkdownFile E amatlPath file options) t).
Qed.

Lemma dispatch_drain batchSize file rest batch acc sched t :
  (Z.of_nat (length batch) <? batchSize)%Z = false ->
  dispatch E amatlPath options batchSize (file :: rest) batch acc sched t =
  match awaitAll E sched batch (t ++ [JointWait (length batch)]) with
  | (t', sched', Ok results) =>
      dispatch E amatlPath options batchSize rest [] (mergeResults acc results)
        sched' t'
  | (t', _, Err e) => (t', Err e)
  end.
Proof. intros Hge. cbn [dispatch]. now rewrite Hge. Qed.

(** A run of the loop that returns has merged the windows one after the
    other, each in the order of its files. *)
Lemma dispatch_returns batchSize files batch batchFiles acc sched t t' r :
  JobsOf E amatlPath options batch batchFiles ->
  dispatch E amatlPath options batchSize files batch acc sched t = (t', Ok r) ->
  ProcessResult.outputFiles r =
    ProcessResult.outputFiles acc
    ++ concat (map (fun window =>
                      concat (map (jobOutputs E amatlPath options) window))
                 (windowsFrom batchSize files batchFiles))
  /\ ProcessResult.filesProcessed r =
     ProcessResult.filesProcessed acc
     + length (concat (windowsFrom batchSize files batchFiles))
  /\ jointWaits t' =
     jointWaits t ++ map length (windowsFrom batchSize files batchFiles).
Proof.
  revert batch batchFiles acc sched t.
  induction files as [|file rest IH]; intros batch batchFiles acc sched t Hjobs;
    cbn [dispatch windowsFrom]; rewrite <- (JobsOf_length _ _ Hjobs).
  - destruct (0 <? length batch)%nat.
    + destruct (awaitAll E sched batch (t ++ [JointWait (length batch)]))
        as [[t1 sched1] [results|e]] eqn:Hwait; [|discriminate].
      intros [= <- <-].
      destruct (window_merged _ _ _ acc _ _ _ _ Hjobs Hwait) as (Ho & Hn & Hw).
      simpl. now rewrite !app_nil_r, Ho, Hn, Hw.
    + intros [= <- <-]. simpl. rewrite !app_nil_r. repeat split. lia.
  - destruct (Z.of_nat (length batch) <? batchSize)%Z.
    + pose proof (JobsOf_started batch batchFiles file t Hjobs) as Hjobs'.
      destruct (Emits_advance isLog _ t (processMarkdownFile_logs file))
        as (_ & added & Ht & Hadded).
      destruct (advance (processMarkdownFile E amatlPath file options) t)
        as [t1 job]. simpl in *. subst t1.
      intros Hrun. destruct (IH _ _ _ _ _ Hjobs' Hrun) as (Ho & Hn & Hw).
      rewrite Ho, Hn, Hw.
      now rewrite jointWaits_app, (jointWaits_logs _ Hadded), app_nil_r.
    + destruct (awaitAll E sched batch (t ++ [JointWait (length batch)]))
        as [[t1 sched1] [results|e]] eqn:Hwait; [|discriminate].
      intros Hrun.
      destruct (IH _ _ _ _ _ JobsOf_nil Hrun) as (Ho & Hn & Hw).
      destruct (window_merged _ _ _ acc _ _ _ _ Hjobs Hwait) as (Ho1 & Hn1 & Hw1).
      rewrite Ho, Hn, Hw, Ho1, Hn1, Hw1. simpl.
      rewrite <- !app_assoc, length_app. repeat split. lia.
Qed.

(** When no job fails the loop returns, whatever the interleaving. *)
Lemma dispatch_total batchSize files batch batchFiles acc sched t :
  JobsOf E amatlPath options batch batchFiles ->
  (forall file, file ∈ batchFiles ++ files ->
                exists r, jobResult E amatlPath options file = Ok r) ->
  exists t' r,
    dispatch E amatlPath options batchSize files batch acc sched t = (t', Ok r).
Proof.
  revert batch batchFiles acc sched t.
  induction files as [|file rest IH];
    intros batch batchFiles acc sched t Hjobs Hok; cbn [dispatch].
  - destruct (0 <? length batch)%nat; [|eauto].
    assert (Hful : exists results, Fulfils E batch results).
    { destruct Hjobs as [Hout _]. clear -Hout Hok.
      rewrite app_nil_r in Hok.
      induction Hout as [|p f batch batchFiles Hp Hout IH].
      - exists []. constructor.
      - destruct IH as [results Hres].
        { intros g Hg. apply Hok. now right. }
        destruct (Hok f) as [r Hr]; [now left|].
        exists (r :: results). constructor; [congruence|exact Hres]. }
    destruct Hful as [results Hful].
    apply (awaitAll_fulfils E sched batch (t ++ [JointWait (length batch)])) in Hful.
    destruct (awaitAll E sched batch (t ++ [JointWait (length batch)]))
      as [[t1 sched1] r1]. simpl in Hful. subst r1. eauto.
  - destruct (Z.of_nat (length batch) <? batchSize)%Z.
    + pose proof (JobsOf_started batch batchFiles file t Hjobs) as Hjobs'.
      destruct (advance (processMarkdownFile E amatlPath file options) t)
        as [t1 job]. simpl in Hjobs'.
      apply (IH _ _ _ _ _ Hjobs').
      intros g Hg. apply Hok. rewrite <- app_assoc in Hg. exact Hg.
    + assert (Hful : exists results, Fulfils E batch results).
      { destruct Hjobs as [Hout _].
        assert (Hok' : forall g, g ∈ batchFiles ->
                                 exists r, jobResult E amatlPath options g = Ok r).
        { intros g Hg. apply Hok. apply elem_of_app. now left. }
        clear -Hout Hok'.
        induction Hout as [|p f batch batchFiles Hp Hout IH].
        - exists []. constructor.
        - destruct IH as [results Hres].
          { intros g Hg. apply Hok'. now right. }
          destruct (Hok' f) as [r Hr]; [now left|].
          exists (r :: results). constructor; [congruence|exact Hres]. }
      destruct Hful as [results Hful].
      apply (awaitAll_fulfils E sched batch (t ++ [JointWait (length batch)]))
        in Hful.
      destruct (awaitAll E sched batch (t ++ [JointWait (length batch)]))
        as [[t1 sched1] r1]. simpl in Hful. subst r1.
      apply (IH _ _ _ _ _ JobsOf_nil).
      intros g Hg. apply Hok. apply elem_of_app. right. now right.
Qed.

End Dispatcher.

(** A call of [processMarkdownFiles] that returns, under any schedule. *)
Lemma processMarkdownFiles_returns
  (E : Externals) (sched : list nat) (amatlPath : string) (files : list string)
  (options : AmatlOptions.t) (t t' : Trace) (r : ProcessResult.t) :
  processMarkdownFiles E sched amatlPath files options t = (t', Ok r) ->
  ProcessResult.outputFiles r =
    concat (map (fun window =>
                   concat (map (jobOutputs E amatlPath options) window))
              (windows (batchSizeOf E) files))
  /\ jointWaits t' = jointWaits t ++ map length (windows (batchSizeOf E) files).
Proof.
  unfold processMarkdownFiles. rewrite interp_await. cbn [perform callOf].
  destruct (io_mkdirP E (AmatlOptions.outputDir options)) as [[]|e]; [|discriminate].
  intros Hrun.
  destruct (dispatch_returns E amatlPath options _ _ _ _ _ _ _ _ _
              (JobsOf_nil E amatlPath options) Hrun) as (Ho & _ & Hw).
  split; [exact Ho|].
  rewrite Hw, jointWaits_app. simpl. now rewrite app_nil_r.
Qed.

(** C8.  Whenever [processMarkdownFiles] returns, for every interleaving
    and completion order of the jobs ([sched] is arbitrary), its
    [outputFiles] are the outputs of the first window, then those of the
    second, and so on; inside a window they follow the order in which the
    jobs were put in the array; and the joint waits recorded are those of
    these windows, in order. *)
Theorem merged_outputs_follow_windows
  (E : Externals) (sched : list nat) (amatlPath : string) (files : list string)
  (options : AmatlOptions.t) (t t' : Trace) (r : ProcessResult.t) :
  processMarkdownFiles E sched amatlPath files options t = (t', Ok r) ->
  ProcessResult.outputFiles r =
    concat (map (fun window =>
                   concat (map (jobOutputs E amatlPath options) window))
              (windows (batchSizeOf E) files))
  /\ jointWaits t' = jointWaits t ++ map length (windows (batchSizeOf E) files).
Proof. apply processMarkdownFiles_returns. Qed.

(** Two completion orders of one window: the renderer is invoked in a
    different order, the merged result is the same. *)
Example completion_order_is_not_merge_order :
  execCalls (fst (processMarkdownFiles Demo.hostThreeCores [0; 0; 0; 0] "amatl"
                    ["a.md"; "b.md"] (Demo.withFormat "html,pdf" Demo.options) []))
  <> execCalls (fst (processMarkdownFiles Demo.hostThreeCores [1; 1; 1; 1] "amatl"
                       ["a.md"; "b.md"] (Demo.withFormat "html,pdf" Demo.options) []))
  /\ snd (processMarkdownFiles Demo.hostThreeCores [0; 0; 0; 0] "amatl"
            ["a.md"; "b.md"] (Demo.withFormat "html,pdf" Demo.options) [])
     = Ok {| ProcessResult.filesProcessed := 2;
             ProcessResult.outputFiles :=
               ["out/a.html"; "out/a.pdf"; "out/b.html"; "out/b.pdf"] |}
  /\ snd (processMarkdownFiles Demo.hostThreeCores [1; 1; 1; 1] "amatl"
            ["a.md"; "b.md"] (Demo.withFormat "html,pdf" Demo.options) [])
     = Ok {| ProcessResult.filesProcessed := 2;
             ProcessResult.outputFiles :=
               ["out/a.html"; "out/a.pdf"; "out/b.html"; "out/b.pdf"] |}.
Proof.
  split; [|split]; [|vm_compute; reflexivity|vm_compute; reflexivity].
  vm_compute. discriminate.
Qed.

Lemma merged_outputs_follow_windows_witness :
  ProcessResult.outputFiles
    {| ProcessResult.filesProcessed := 3;
       ProcessResult.outputFiles :=
         ["out/a.html"; "out/a.pdf"; "out/b.html"; "out/b.pdf";
          "out/d.html"; "out/d.pdf"] |} =
  concat (map (fun window =>
                 concat (map (jobOutputs Demo.hostThreeCores "amatl"
                                (Demo.withFormat "html,pdf" Demo.options)) window))
            (windows (batchSizeOf Demo.hostThreeCores)
               ["a.md"; "b.md"; "c.md"; "d.md"]))
  /\ jointWaits
       (fst (processMarkdownFiles Demo.hostThreeCores [1; 1; 0; 1; 0; 0] "amatl"
               ["a.md"; "b.md"; "c.md"; "d.md"]
               (Demo.withFormat "html,pdf" Demo.options) [])) =
     jointWaits [] ++ map length (windows (batchSizeOf Demo.hostThreeCores)
                                    ["a.md"; "b.md"; "c.md"; "d.md"]).
Proof.
  apply (merged_outputs_follow_windows Demo.hostThreeCores [1; 1; 0; 1; 0; 0]
           "amatl" ["a.md"; "b.md"; "c.md"; "d.md"]
           (Demo.withFormat "html,pdf" Demo.options) []).
  vm_compute. reflexivity.
Defined.

(** ** How many files the loop handles *)

Section Counting.

(** From a batch of [b] files and [n] files to come, with windows of
    size [k]: one file in every [k + 1] is passed over. *)
Lemma windowsFrom_count (k : nat) files batch :
  1 <= k -> length batch <= k ->
  length (concat (windowsFrom (Z.of_nat k) files batch)) =
    length batch + length files - (length files + length batch) / (k + 1)
  /\ length (windowsFrom (Z.of_nat k) files batch) =
     (length files + length batch + k) / (k + 1).
Proof.
  intros Hk. revert batch.
  induction files as [|file rest IH]; intros batch Hb; cbn [windowsFrom].
  - simpl length. rewrite Nat.add_0_r, Nat.add_0_l.
    destruct (Nat.ltb_spec 0 (length batch)) as [Hpos|Hzero].
    + simpl. rewrite app_nil_r.
      rewrite (Nat.div_small (length batch) (k + 1)) by lia.
      split; [lia|].
      apply (Nat.div_unique _ _ 1 (length batch - 1)); lia.
    + assert (Hlen : length batch = 0) by lia. rewrite Hlen. simpl.
      rewrite Nat.Div0.div_0_l.
      split; [reflexivity|]. symmetry. apply Nat.div_small. lia.
  - destruct (Z.ltb_spec (Z.of_nat (length batch)) (Z.of_nat k)) as [Hlt|Hge].
    + destruct (IH (batch ++ [file])) as [IHc IHw].
      { rewrite length_app. simpl. lia. }
      rewrite IHc, IHw, length_app. simpl length.
      replace (length rest + (length batch + 1)) with (S (length rest) + length batch)
        by lia.
      split; [lia|reflexivity].
    + assert (Hfull : length batch = k) by lia.
      destruct (IH []) as [IHc IHw]; [simpl; lia|].
      cbn [concat map length] in *. rewrite length_app, IHc, IHw.
      rewrite Hfull, !Nat.add_0_r, Nat.add_0_l.
      set (n := length rest).
      assert (H1 : (S n + k) / (k + 1) = n / (k + 1) + 1).
      { replace (S n + k) with (n + 1 * (k + 1)) by lia.
        apply Nat.div_add. lia. }
      assert (H2 : (S n + k + k) / (k + 1) = (n + k) / (k + 1) + 1).
      { replace (S n + k + k) with (n + k + 1 * (k + 1)) by lia.
        apply Nat.div_add. lia. }
      assert (H3 : n / (k + 1) <= n).
      { apply Nat.Div0.div_le_upper_bound. nia. }
      rewrite H1, H2. split; lia.
Qed.

End Counting.

(** What the loop does when no job fails: of [N] files it handles
    [N - N / (K + 1)], in [(N + K) / (K + 1)] joint waits, where [K] is the
    batch size: the file that arrives at a full window is passed over. *)
Lemma dispatcher_passes_over_files
  (E : Externals) (sched : list nat) (amatlPath : string) (files : list string)
  (options : AmatlOptions.t) (t : Trace) :
  io_mkdirP E (AmatlOptions.outputDir options) = Ok tt ->
  (forall file, file ∈ files -> exists r, jobResult E amatlPath options file = Ok r) ->
  let K := Z.to_nat (batchSizeOf E) in
  exists t' r,
    processMarkdownFiles E sched amatlPath files options t = (t', Ok r)
    /\ ProcessResult.filesProcessed r = length files - length files / (K + 1)
    /\ length (jointWaits t') = length (jointWaits t) + (length files + K) / (K + 1).
Proof.
  intros Hdir Hok K.
  unfold processMarkdownFiles. rewrite interp_await. cbn [perform callOf].
  rewrite Hdir.
  destruct (dispatch_total E amatlPath options (batchSizeOf E) files [] []
              {| ProcessResult.filesProcessed := 0; ProcessResult.outputFiles := [] |}
              sched (t ++ [Issued (CallMkdirP (AmatlOptions.outputDir options))])
              (JobsOf_nil E amatlPath options) Hok) as (t' & r & Hrun).
  exists t', r. split; [exact Hrun|].
  destruct (dispatch_returns E amatlPath options _ _ _ _ _ _ _ _ _
              (JobsOf_nil E amatlPath options) Hrun) as (_ & Hn & Hw).
  assert (HK : batchSizeOf E = Z.of_nat K /\ 1 <= K).
  { unfold K, batchSizeOf. destruct (Z.ltb_spec (Z.of_nat (cpus E) - 1) 1); lia. }
  destruct HK as [HK HK1]. rewrite HK in Hn, Hw.
  destruct (windowsFrom_count K files [] HK1) as [Hc Hl]; [simpl; lia|].
  simpl in Hc, Hl. rewrite Nat.add_0_r in Hc, Hl.
  split.
  - rewrite Hn, Hc. simpl. reflexivity.
  - rewrite Hw, jointWaits_app, !length_app, length_map, Hl. simpl. lia.
Qed.

(** C1 fails on the code.  With a batch size of 1 (two processors) and
    the files [a.md] and [b.md], no job failing, whatever the
    interleaving, this is the whole run: the job of [a.md] is started and
    waited for in one joint wait; no job is ever started for [b.md], which
    arrives when the window is full; one file is counted, not two, and
    the only output is the one of [a.md]. *)
Theorem dispatcher_skips_file_at_full_window (sched : list nat) :
  batchSizeOf Demo.host = 1%Z
  /\ processMarkdownFiles Demo.host sched "amatl" ["a.md"; "b.md"]
       Demo.options [] =
     ([Issued (CallMkdirP "out");
       LogInfo "Processing: a.md";
       Issued (CallMkdirP "out");
       JointWait 1;
       Issued (CallExec "amatl"
                 ["render"; "html"; "-o"; "out/a.html"; "--html-layout";
                  "amatl://document.html"; "a.md"]);
       LogInfo "Generated: out/a.html"],
      Ok {| ProcessResult.filesProcessed := 1;
            ProcessResult.outputFiles := ["out/a.html"] |}).
Proof.
  split; [reflexivity|].
  unfold processMarkdownFiles. rewrite interp_await.
  change (perform Demo.host (MkdirP (AmatlOptions.outputDir Demo.options)))
    with (Ok tt : result unit).
  rewrite dispatch_push by reflexivity.
  rewrite dispatch_drain by reflexivity.
  cbn [app].
  match goal with
  | |- context [awaitAll Demo.host sched [?job] ?tr] =>
      destruct (awaitAll_single Demo.host sched job tr) as [sched' ->]
  end.
  vm_compute. reflexivity.
Qed.


(** * Further properties *)

(** ** validateInputs *)

Section Validation.

Lemma validateFormats_Ok formats :
  validateFormats formats = Ok tt <->
  Forall (fun format => format ∈ supportedFormats) formats.
Proof.
  induction formats as [|format rest IH]; simpl.
  - split; [constructor|reflexivity].
  - destruct (decide (format ∈ ["html"; "pdf"; "markdown"])) as [Hin|Hout].
    + rewrite bool_decide_eq_true_2 by exact Hin. simpl. rewrite IH.
      split; [now constructor|now inversion 1].
    + rewrite bool_decide_eq_false_2 by exact Hout. simpl.
      split; [discriminate|]. inversion 1; subst. contradiction.
Qed.

Lemma validateFormats_first_invalid good bad rest :
  Forall (fun format => format ∈ supportedFormats) good ->
  bad ∉ supportedFormats ->
  validateFormats (good ++ bad :: rest) =
  Err (newError ("Invalid format: " +:+ bad
                 +:+ ". Supported formats: html, pdf, markdown, both")).
Proof.
  intros Hgood Hbad. induction Hgood as [|format good Hf _ IH]; simpl.
  - now rewrite bool_decide_eq_false_2 by exact Hbad.
  - rewrite bool_decide_eq_true_2 by exact Hf. exact IH.
Qed.

Lemma truthy_true_iff s : Js.truthy s = true <-> s <> EmptyString.
Proof. destruct s; simpl; split; congruence. Qed.

End Validation.

(** X1.  [validateInputs] accepts the options exactly when the patterns and
    the output directory are not empty and every format of the
    comma-separated list, lower-cased and trimmed, is [html], [pdf] or
    [markdown]. *)
Theorem validateInputs_accepts (options : AmatlOptions.t) :
  validateInputs options = Ok tt <->
  AmatlOptions.patterns options <> EmptyString
  /\ AmatlOptions.outputDir options <> EmptyString
  /\ Forall (fun format => format ∈ ["html"; "pdf"; "markdown"])
       (formatsOf options).
Proof.
  unfold validateInputs.
  destruct (AmatlOptions.patterns options) as [|c p]; simpl.
  - split; [discriminate|]. now intros [H _].
  - destruct (AmatlOptions.outputDir options) as [|d o]; simpl.
    + split; [discriminate|]. now intros (_ & H & _).
    + rewrite validateFormats_Ok. unfold supportedFormats.
      split; [intros H; repeat split; auto; discriminate|tauto].
Qed.

Lemma validateInputs_accepts_witness :
  validateInputs (Demo.withFormat " HTML ,pdf, Markdown" Demo.options) = Ok tt.
Proof.
  apply (proj2 (validateInputs_accepts
                  (Demo.withFormat " HTML ,pdf, Markdown" Demo.options))).
  split; [discriminate|]. split; [discriminate|].
  vm_compute. repeat constructor.
Defined.

(** X2.  The checks of [validateInputs] run in order and the first one that
    fails is the one reported: empty patterns, then an empty output
    directory, then the first format of the list that is not supported; the
    formats before it do not matter, nor do the ones after it. *)
Theorem validateInputs_reports_first_failure (options : AmatlOptions.t) :
  (AmatlOptions.patterns options = EmptyString ->
   validateInputs options = Err (newError "Patterns is required"))
  /\ (AmatlOptions.patterns options <> EmptyString ->
      AmatlOptions.outputDir options = EmptyString ->
      validateInputs options = Err (newError "Output directory is required"))
  /\ (AmatlOptions.patterns options <> EmptyString ->
      AmatlOptions.outputDir options <> EmptyString ->
      forall good bad rest,
        formatsOf options = good ++ bad :: rest ->
        Forall (fun format => format ∈ ["html"; "pdf"; "markdown"]) good ->
        bad ∉ ["html"; "pdf"; "markdown"] ->
        validateInputs options =
        Err (newError ("Invalid format: " +:+ bad
                       +:+ ". Supported formats: html, pdf, markdown, both"))).
Proof.
  unfold validateInputs. split; [|split].
  - now intros ->.
  - intros Hp ->. apply truthy_true_iff in Hp. now rewrite Hp.
  - intros Hp Ho good bad rest Hformats Hgood Hbad.
    apply truthy_true_iff in Hp, Ho. rewrite Hp, Ho. simpl.
    rewrite Hformats. now apply validateFormats_first_invalid.
Qed.

Lemma validateInputs_reports_first_failure_witness :
  validateInputs (Demo.withFormat "HTML, docx ,pdf,odt" Demo.options) =
  Err (newError "Invalid format: docx. Supported formats: html, pdf, markdown, both").
Proof.
  destruct (validateInputs_reports_first_failure
              (Demo.withFormat "HTML, docx ,pdf,odt" Demo.options))
    as (_ & _ & H).
  apply (H ltac:(discriminate) ltac:(discriminate) ["html"] "docx" ["pdf"; "odt"]).
  - reflexivity.
  - repeat constructor.
  - rewrite !elem_of_cons, elem_of_nil.
    intros [H'|[H'|[H'|[]]]]; discriminate H'.
Defined.

(** ** The list of formats *)

Section Formats.

Lemma rev_involutive_s (s : string) : String.rev (String.rev s) = s.
Proof.
  induction s as [|c s IH]; [reflexivity|].
  rewrite rev_String, rev_app_distr_s, IH. reflexivity.
Qed.

Lemma lower_char_idempotent c : Js.lower_char (Js.lower_char c) = Js.lower_char c.
Proof. destruct c as [[] [] [] [] [] [] [] []]; reflexivity. Qed.

Lemma toLowerCase_idempotent s : Js.toLowerCase (Js.toLowerCase s) = Js.toLowerCase s.
Proof.
  induction s as [|c s IH]; simpl; [reflexivity|].
  now rewrite lower_char_idempotent, IH.
Qed.

Lemma toLowerCase_app a b :
  Js.toLowerCase (a +:+ b) = Js.toLowerCase a +:+ Js.toLowerCase b.
Proof.
  induction a as [|c a IH]; [reflexivity|].
  rewrite app_String. simpl. now rewrite IH, app_String.
Qed.

Lemma toLowerCase_rev s : Js.toLowerCase (String.rev s) = String.rev (Js.toLowerCase s).
Proof.
  induction s as [|c s IH]; [reflexivity|].
  simpl. now rewrite !rev_String, toLowerCase_app, IH.
Qed.

Lemma toLowerCase_trimStart s :
  Js.toLowerCase s = s -> Js.toLowerCase (Js.trimStart s) = Js.trimStart s.
Proof.
  induction s as [|c s IH]; simpl; [reflexivity|].
  intros [= Hc Hs]. destruct (Js.is_white c).
  - now apply IH.
  - simpl. now rewrite Hc, Hs.
Qed.

Lemma toLowerCase_trim s :
  Js.toLowerCase s = s -> Js.toLowerCase (Js.trim s) = Js.trim s.
Proof.
  intros Hs. unfold Js.trim. rewrite toLowerCase_rev. f_equal.
  apply toLowerCase_trimStart. rewrite toLowerCase_rev. f_equal.
  now apply toLowerCase_trimStart.
Qed.

Lemma toLowerCase_split sep s :
  Js.toLowerCase s = s ->
  Forall (fun piece => Js.toLowerCase piece = piece) (Js.split sep s).
Proof.
  induction s as [|c s IH]; simpl.
  - now repeat constructor.
  - intros [= Hc Hs]. specialize (IH Hs). destruct (Ascii.eqb c sep).
    + now constructor.
    + destruct (Js.split sep s) as [|piece pieces].
      * repeat constructor. simpl. now rewrite Hc.
      * inversion IH as [|? ? Hp Hps]; subst. constructor; [|exact Hps].
        simpl. now rewrite Hc, Hp.
Qed.

(** [trimStart] removes a prefix. *)
Lemma trimStart_prefix s : exists blanks, s = blanks +:+ Js.trimStart s.
Proof.
  induction s as [|c s (blanks & IH)]; simpl.
  - now exists EmptyString.
  - destruct (Js.is_white c).
    + exists (String c blanks). now rewrite app_String, <- IH.
    + now exists EmptyString.
Qed.

Lemma trimStart_startsWhite s : startsWhite (Js.trimStart s) = false.
Proof.
  induction s as [|c s IH]; simpl; [reflexivity|].
  destruct (Js.is_white c) eqn:Hc; [exact IH|]. simpl. exact Hc.
Qed.

Lemma trimStart_fixed s : startsWhite s = false -> Js.trimStart s = s.
Proof. destruct s as [|c s]; simpl; [reflexivity|]. now intros ->. Qed.

Lemma startsWhite_app a b :
  a <> EmptyString -> startsWhite (a +:+ b) = startsWhite a.
Proof. destruct a; [congruence|reflexivity]. Qed.

Lemma trim_starts s : startsWhite (Js.trim s) = false.
Proof.
  unfold Js.trim.
  destruct (trimStart_prefix (String.rev (Js.trimStart s))) as (blanks & Hb).
  set (v := Js.trimStart (String.rev (Js.trimStart s))) in *.
  apply (f_equal String.rev) in Hb.
  rewrite rev_involutive_s, rev_app_distr_s in Hb.
  destruct (String.rev v) as [|c r] eqn:Hv; [reflexivity|].
  pose proof (trimStart_startsWhite s) as Hu. rewrite Hb in Hu.
  rewrite startsWhite_app in Hu by discriminate. exact Hu.
Qed.

Lemma trim_ends s : startsWhite (String.rev (Js.trim s)) = false.
Proof.
  unfold Js.trim. rewrite rev_involutive_s. apply trimStart_startsWhite.
Qed.

Lemma trim_idempotent s : Js.trim (Js.trim s) = Js.trim s.
Proof.
  unfold Js.trim at 1.
  rewrite (trimStart_fixed _ (trim_starts s)).
  rewrite (trimStart_fixed _ (trim_ends s)).
  apply rev_involutive_s.
Qed.

(** *** Properties kept character by character *)

Lemma allChars_app test a b :
  allChars test (a +:+ b) = allChars test a && allChars test b.
Proof.
  induction a as [|c a IH]; [reflexivity|].
  rewrite app_String. cbn [allChars]. now rewrite IH, andb_assoc.
Qed.

Lemma allChars_rev test s : allChars test (String.rev s) = allChars test s.
Proof.
  induction s as [|c s IH]; [reflexivity|].
  rewrite rev_String, allChars_app, IH. cbn [allChars].
  rewrite andb_true_r. apply andb_comm.
Qed.

Lemma allChars_trimStart test s :
  allChars test s = true -> allChars test (Js.trimStart s) = true.
Proof.
  destruct (trimStart_prefix s) as (blanks & Hs).
  rewrite Hs at 1. rewrite allChars_app. intros H.
  now apply andb_true_iff in H.
Qed.

Lemma allChars_trim test s :
  allChars test s = true -> allChars test (Js.trim s) = true.
Proof.
  intros Hs. unfold Js.trim. rewrite allChars_rev.
  apply allChars_trimStart. rewrite allChars_rev.
  now apply allChars_trimStart.
Qed.

Lemma allChars_split test sep s :
  allChars test s = true ->
  Forall (fun piece => allChars test piece = true) (Js.split sep s).
Proof.
  induction s as [|c s IH]; cbn [allChars Js.split].
  - now repeat constructor.
  - intros H. apply andb_true_iff in H. destruct H as [Hc Hs].
    specialize (IH Hs). destruct (Ascii.eqb c sep).
    + now constructor.
    + destruct (Js.split sep s) as [|piece pieces].
      * repeat constructor. cbn [allChars]. now rewrite Hc.
      * inversion IH as [|? ? Hp Hps]; subst. constructor; [|exact Hps].
        cbn [allChars]. now rewrite Hc, Hp.
Qed.

Lemma lower_char_ascii c :
  (Ascii.nat_of_ascii c <? 128)%nat = true ->
  (Ascii.nat_of_ascii (Js.lower_char c) <? 128)%nat = true.
Proof.
  destruct c as [[] [] [] [] [] [] [] []]; intros H;
    first [reflexivity | discriminate H].
Qed.

Lemma lower_char_not_upper c : isUpper (Js.lower_char c) = false.
Proof. destruct c as [[] [] [] [] [] [] [] []]; reflexivity. Qed.

Lemma toLowerCase_ascii s : isAscii s = true -> isAscii (Js.toLowerCase s) = true.
Proof.
  unfold isAscii. induction s as [|c s IH]; cbn [allChars Js.toLowerCase];
    [reflexivity|].
  intros H. apply andb_true_iff in H. destruct H as [Hc Hs].
  now rewrite (lower_char_ascii c Hc), IH.
Qed.

Lemma toLowerCase_lacksUpper s : lacksUpper (Js.toLowerCase s) = true.
Proof.
  unfold lacksUpper. induction s as [|c s IH]; cbn [allChars Js.toLowerCase];
    [reflexivity|].
  now rewrite lower_char_not_upper, IH.
Qed.

End Formats.

(** X3.  For a [format] input made of ASCII characters, whatever its case
    and its spacing, the formats a job renders and [validateInputs] checks
    are normalised: there is at least one, and each is an ASCII string
    that holds no upper-case letter and neither starts nor ends with a
    white-space character; so lower-casing or trimming it again changes
    nothing. *)
Theorem formats_are_normalised (options : AmatlOptions.t) :
  isAscii (AmatlOptions.format options) = true ->
  formatsOf options <> []
  /\ forall format,
       format ∈ formatsOf options ->
       isAscii format = true
       /\ lacksUpper format = true
       /\ startsWhite format = false
       /\ startsWhite (String.rev format) = false
       /\ Js.toLowerCase format = format
       /\ Js.trim format = format.
Proof.
  intros Hascii. unfold formatsOf. split.
  - intros H. apply map_eq_nil in H. now apply split_not_nil in H.
  - intros format Hin. apply list_elem_of_In, in_map_iff in Hin.
    destruct Hin as (piece & <- & Hpiece).
    apply list_elem_of_In in Hpiece.
    split; [|split; [|split; [|split; [|split]]]].
    + apply allChars_trim.
      pose proof (allChars_split _ ","
                    (Js.toLowerCase (AmatlOptions.format options))
                    (toLowerCase_ascii _ Hascii)) as Hall.
      rewrite Forall_forall in Hall. now apply Hall.
    + apply allChars_trim.
      pose proof (allChars_split _ ","
                    (Js.toLowerCase (AmatlOptions.format options))
                    (toLowerCase_lacksUpper _)) as Hall.
      rewrite Forall_forall in Hall. now apply Hall.
    + apply trim_starts.
    + apply trim_ends.
    + apply toLowerCase_trim.
      pose proof (toLowerCase_split ","
                    (Js.toLowerCase (AmatlOptions.format options))
                    (toLowerCase_idempotent _)) as Hall.
      rewrite Forall_forall in Hall. now apply Hall.
    + apply trim_idempotent.
Qed.

Lemma formats_are_normalised_witness :
  formatsOf (Demo.withFormat " HTML ,Pdf" Demo.options) = ["html"; "pdf"]
  /\ isAscii "pdf" = true
  /\ lacksUpper "pdf" = true
  /\ startsWhite "pdf" = false
  /\ startsWhite (String.rev "pdf") = false
  /\ Js.toLowerCase "pdf" = "pdf"
  /\ Js.trim "pdf" = "pdf".
Proof.
  split; [reflexivity|].
  destruct (formats_are_normalised (Demo.withFormat " HTML ,Pdf" Demo.options))
    as [_ H].
  - reflexivity.
  - apply (H "pdf"). apply list_elem_of_In. vm_compute. auto.
Defined.

Section BlankFormats.

Lemma trailing_comma_blank (options : AmatlOptions.t) (s : string) :
  AmatlOptions.format options = s +:+ "," -> EmptyString ∈ formatsOf options.
Proof.
  intros Hformat. unfold formatsOf. rewrite Hformat, toLowerCase_app.
  change (Js.toLowerCase ",") with (String ","%char EmptyString).
  rewrite split_app_sep, map_app. apply elem_of_app. right.
  cbn. left.
Qed.

Lemma unsupported_entry_rejected (options : AmatlOptions.t) (entry : string) :
  entry ∈ formatsOf options -> entry ∉ supportedFormats ->
  exists e, validateInputs options = Err e.
Proof.
  intros Hin Hbad.
  destruct (validateInputs options) as [[]|e] eqn:Hv; [|eauto].
  exfalso. unfold validateInputs in Hv.
  destruct (negb (Js.truthy (AmatlOptions.patterns options))); [discriminate|].
  destruct (negb (Js.truthy (AmatlOptions.outputDir options))); [discriminate|].
  apply validateFormats_Ok in Hv. rewrite Forall_forall in Hv.
  exact (Hbad (Hv _ Hin)).
Qed.

End BlankFormats.

(** X4.  The format [both], which the error message lists among the
    supported formats, is rejected.  So is every list with a blank entry: a
    format input that ends with a comma is rejected, and an empty format
    input is rejected with the [Invalid format] message for the empty
    format. *)
Theorem validateInputs_rejects_both_and_blank (options : AmatlOptions.t) :
  ("both" ∈ formatsOf options -> exists e, validateInputs options = Err e)
  /\ (forall s, AmatlOptions.format options = s +:+ "," ->
                exists e, validateInputs options = Err e)
  /\ (AmatlOptions.format options = EmptyString ->
      AmatlOptions.patterns options <> EmptyString ->
      AmatlOptions.outputDir options <> EmptyString ->
      validateInputs options =
      Err (newError "Invalid format: . Supported formats: html, pdf, markdown, both")).
Proof.
  split; [|split].
  - intros Hboth. apply unsupported_entry_rejected with "both"; [exact Hboth|].
    unfold supportedFormats. rewrite !elem_of_cons, elem_of_nil.
    intros [H|[H|[H|[]]]]; discriminate H.
  - intros s Hformat.
    apply unsupported_entry_rejected with EmptyString;
      [now apply trailing_comma_blank with s|].
    unfold supportedFormats. rewrite !elem_of_cons, elem_of_nil.
    intros [H|[H|[H|[]]]]; discriminate H.
  - intros Hformat Hp Ho. unfold validateInputs, formatsOf.
    apply truthy_true_iff in Hp, Ho. rewrite Hp, Ho, Hformat. reflexivity.
Qed.

Lemma validateInputs_rejects_both_and_blank_witness :
  (exists e, validateInputs (Demo.withFormat "html, Both" Demo.options) = Err e)
  /\ (exists e, validateInputs (Demo.withFormat "html,pdf," Demo.options) = Err e)
  /\ validateInputs (Demo.withFormat EmptyString Demo.options) =
     Err (newError "Invalid format: . Supported formats: html, pdf, markdown, both").
Proof.
  split; [|split].
  - apply (proj1 (validateInputs_rejects_both_and_blank
                    (Demo.withFormat "html, Both" Demo.options))).
    vm_compute. repeat constructor.
  - apply (proj1 (proj2 (validateInputs_rejects_both_and_blank
                           (Demo.withFormat "html,pdf," Demo.options))) "html,pdf").
    reflexivity.
  - apply (proj2 (proj2 (validateInputs_rejects_both_and_blank
                           (Demo.withFormat EmptyString Demo.options)))).
    + reflexivity.
    + discriminate.
    + discriminate.
Defined.

(** ** The archive address *)

Section ArchiveName.

Lemma removeFirst_first c (before after : string) :
  lacks c before = true ->
  Js.removeFirst c (before +:+ String c after) = before +:+ after.
Proof.
  induction before as [|d before IH]; intros Hlacks.
  - rewrite !app_empty_l. cbn [Js.removeFirst]. now rewrite Ascii.eqb_refl.
  - cbn [lacks] in Hlacks. apply andb_true_iff in Hlacks.
    destruct Hlacks as [Hd Hrest]. apply negb_true_iff in Hd.
    rewrite !app_String. cbn [Js.removeFirst]. rewrite Hd. now rewrite IH.
Qed.

Lemma removeFirst_lacks c (s : string) :
  lacks c s = true -> Js.removeFirst c s = s.
Proof.
  induction s as [|d s IH]; intros Hlacks; [reflexivity|].
  cbn [lacks] in Hlacks. apply andb_true_iff in Hlacks.
  destruct Hlacks as [Hd Hrest]. apply negb_true_iff in Hd.
  cbn [Js.removeFirst]. rewrite Hd. now rewrite IH.
Qed.

End ArchiveName.

(** X5.  The address of the release archive holds the version twice: as it
    is in the directory part, and with its first letter [v] removed in the
    file name.  The letter removed is the first [v] of the version wherever
    it stands, so a version without a leading [v] loses a [v] further on; a
    version with no [v] at all is used as it is in both places. *)
Theorem download_url_drops_first_v (osName archName : string) :
  (forall before after,
     lacks "v" before = true ->
     downloadUrlOf (before +:+ "v" +:+ after) osName archName =
     "https://github.com/Bornholm/amatl/releases/download/"
     +:+ (before +:+ "v" +:+ after)
     +:+ "/amatl_" +:+ (before +:+ after)
     +:+ "_" +:+ osName +:+ "_" +:+ archName +:+ ".tar.gz")
  /\ (forall version,
        lacks "v" version = true ->
        downloadUrlOf version osName archName =
        "https://github.com/Bornholm/amatl/releases/download/" +:+ version
        +:+ "/amatl_" +:+ version
        +:+ "_" +:+ osName +:+ "_" +:+ archName +:+ ".tar.gz").
Proof.
  split.
  - intros before after Hlacks. unfold downloadUrlOf.
    change ("v" +:+ after) with (String "v"%char after).
    now rewrite removeFirst_first.
  - intros version Hlacks. unfold downloadUrlOf.
    now rewrite removeFirst_lacks.
Qed.

Lemma download_url_drops_first_v_witness :
  downloadUrlOf "v0.25.1" "linux" "amd64" =
    "https://github.com/Bornholm/amatl/releases/download/v0.25.1/amatl_0.25.1_linux_amd64.tar.gz"
  /\ downloadUrlOf "1.0.0-dev" "darwin" "arm64" =
     "https://github.com/Bornholm/amatl/releases/download/1.0.0-dev/amatl_1.0.0-de_darwin_arm64.tar.gz"
  /\ downloadUrlOf "0.25.1" "windows" "amd64" =
     "https://github.com/Bornholm/amatl/releases/download/0.25.1/amatl_0.25.1_windows_amd64.tar.gz".
Proof.
  split; [|split].
  - apply (proj1 (download_url_drops_first_v "linux" "amd64") EmptyString "0.25.1").
    reflexivity.
  - apply (proj1 (download_url_drops_first_v "darwin" "arm64") "1.0.0-de" EmptyString).
    reflexivity.
  - apply (proj2 (download_url_drops_first_v "windows" "amd64") "0.25.1").
    reflexivity.
Defined.

(** ** Installation, step by step *)

Section InstallSteps.
Context (E : Externals).

(** On a cache miss on a supported host, with the version resolved: the
    remaining steps, each of which may fail. *)
Lemma installAmatl_steps version t osName archName t1 actualVersion :
  Js.truthy (tc_find E "amatl" version) = false ->
  osNameTable (platform E) = Some osName ->
  archNameTable (arch E) = Some archName ->
  resolved E version t = (t1, Ok (Some actualVersion)) ->
  let downloadUrl := downloadUrlOf actualVersion osName archName in
  let begun := t1 ++ [LogInfo ("Downloading amatl from: " +:+ downloadUrl);
                      Issued (CallDownloadTool downloadUrl)] in
  interp E (installAmatl E version) t =
  match tc_downloadTool E downloadUrl with
  | Err e => (begun, Err e)
  | Ok downloadPath =>
      match tc_extractTar E downloadPath "xz" with
      | Err e => (begun ++ [Issued (CallExtractTar downloadPath "xz")], Err e)
      | Ok extractedPath =>
          let extracted :=
            begun ++ [Issued (CallExtractTar downloadPath "xz");
                      Issued (CallCacheDir extractedPath "amatl" actualVersion)] in
          match tc_cacheDir E extractedPath "amatl" actualVersion with
          | Err e => (extracted, Err e)
          | Ok toolPath =>
              let binaryPath := binaryPathOf E toolPath in
              let done :=
                [LogInfo ("amatl installed successfully at " +:+ binaryPath)] in
              if String.eqb (platform E) "win32"
              then (extracted ++ done, Ok binaryPath)
              else
                match exec_exec E "chmod" ["+x"; binaryPath] with
                | Err e =>
                    (extracted ++ [Issued (CallExec "chmod" ["+x"; binaryPath])],
                     Err e)
                | Ok _ =>
                    (extracted ++ [Issued (CallExec "chmod" ["+x"; binaryPath])]
                       ++ done, Ok binaryPath)
                end
          end
      end
  end.
Proof.
  intros Hmiss Hos Harch Hres downloadUrl begun.
  unfold installAmatl. cbn [interp]. rewrite Hmiss.
  rewrite mbind_prog, interp_bind, osNameOf_table, Hos. cbn [interp].
  rewrite mbind_prog, interp_bind, archNameOf_table, Harch. cbn [interp].
  rewrite mbind_prog, interp_bind.
  assert (Hres' : interp E (if String.eqb version "latest"
                            then getLatestAmatlVersion else Ret (Some version))
                    (t ++ [LogInfo ("Installing amatl version: " +:+ version)])
                  = (t1, Ok (Some actualVersion))).
  { unfold resolved in Hres. destruct (String.eqb version "latest"); exact Hres. }
  rewrite Hres'. cbn [interp].
  rewrite mbind_prog, interp_bind, interp_await. cbn [perform callOf].
  fold downloadUrl. unfold begun. rewrite <- !app_assoc. cbn [app].
  destruct (tc_downloadTool E downloadUrl) as [downloadPath|e]; [|reflexivity].
  rewrite mbind_prog, interp_bind, interp_await. cbn [perform callOf].
  rewrite <- !app_assoc. cbn [app].
  destruct (tc_extractTar E downloadPath "xz") as [extractedPath|e]; [|reflexivity].
  rewrite mbind_prog, interp_bind, interp_await. cbn [perform callOf].
  rewrite <- !app_assoc. cbn [app].
  destruct (tc_cacheDir E extractedPath "amatl" actualVersion) as [toolPath|e];
    [|reflexivity].
  rewrite mbind_prog, interp_bind. fold (binaryPathOf E toolPath).
  destruct (String.eqb (platform E) "win32"); cbn [negb interp].
  - now rewrite <- !app_assoc.
  - rewrite interp_await. cbn [perform callOf].
    destruct (exec_exec E "chmod" ["+x"; binaryPathOf E toolPath]) as [[]|e];
      cbn [interp]; now rewrite <- !app_assoc.
Qed.

(** The release query when the endpoint answers with a JSON object. *)
Lemma getLatestAmatlVersion_object t response tag_name :
  fetch E latestReleaseUrl = Ok response ->
  response_json E response = Ok (JObject tag_name) ->
  interp E getLatestAmatlVersion t =
  (t ++ [Issued (CallFetch latestReleaseUrl); Issued CallJson], Ok tag_name).
Proof.
  intros Hfetch Hjson. unfold getLatestAmatlVersion.
  rewrite interp_tryCatch, mbind_prog, interp_bind, interp_await.
  cbn [perform callOf]. rewrite Hfetch.
  rewrite mbind_prog, interp_bind, interp_await. cbn [perform callOf].
  rewrite Hjson. cbn [interp]. now rewrite <- app_assoc.
Qed.

Lemma installAmatl_offline version :
  version <> "latest" -> Emits offline (installAmatl E version).
Proof.
  intros Hpinned. unfold installAmatl.
  constructor; [exact I|].
  destruct (Js.truthy (tc_find E "amatl" version)).
  { constructor; [exact I|constructor]. }
  rewrite mbind_prog. apply Emits_bind.
  { unfold osNameOf. repeat (destruct (String.eqb _ _); [constructor|]). constructor. }
  intros osName. rewrite mbind_prog. apply Emits_bind.
  { unfold archNameOf. repeat (destruct (String.eqb _ _); [constructor|]). constructor. }
  intros archName. rewrite mbind_prog. apply Emits_bind.
  { destruct (String.eqb_spec version "latest") as [->|_]; [congruence|constructor]. }
  intros [actualVersion|]; [|constructor].
  constructor; [exact I|].
  rewrite mbind_prog. apply Emits_bind; [apply Emits_await; exact I|].
  intros downloadPath. rewrite mbind_prog. apply Emits_bind; [apply Emits_await; exact I|].
  intros extractedPath. rewrite mbind_prog. apply Emits_bind; [apply Emits_await; exact I|].
  intros toolPath. rewrite mbind_prog. apply Emits_bind.
  { destruct (negb _); [apply Emits_await; exact I|constructor]. }
  intros _. constructor; [exact I|constructor].
Qed.

End InstallSteps.

(** X6.  When the tool cache holds an entry for the requested version,
    [installAmatl] logs two lines and returns [path.join(toolPath, 'amatl')]
    at once: it issues no call at all and looks at neither the platform nor
    the architecture, so the returned name is [amatl] on every host, Windows
    and unsupported ones included. *)
Theorem install_uses_cached_copy (E : Externals) (version : string) (t : Trace) :
  tc_find E "amatl" version <> EmptyString ->
  interp E (installAmatl E version) t =
  (t ++ [LogInfo ("Installing amatl version: " +:+ version);
         LogInfo ("Found cached amatl at " +:+ tc_find E "amatl" version)],
   Ok (Path.join [tc_find E "amatl" version; "amatl"])).
Proof.
  intros Hhit. unfold installAmatl. cbn [interp].
  destruct (tc_find E "amatl" version) as [|c s] eqn:Hfind; [congruence|].
  cbn [Js.truthy interp]. now rewrite <- app_assoc.
Qed.

Lemma install_uses_cached_copy_witness :
  interp Hosts.cachedWindows (installAmatl Hosts.cachedWindows "v1.0.0") [] =
  ([LogInfo "Installing amatl version: v1.0.0";
    LogInfo "Found cached amatl at /tools/amatl/1.0.0/x64"],
   Ok "/tools/amatl/1.0.0/x64/amatl").
Proof.
  apply (install_uses_cached_copy Hosts.cachedWindows "v1.0.0" []).
  vm_compute. discriminate.
Defined.

(** X7.  On a cache miss on a supported host, when every step succeeds, the
    calls are, in this order: download of the release archive, [extractTar]
    with the flag [xz], [cacheDir] under the resolved version (the cache was
    looked up under the requested one), and [chmod +x] on the binary, which
    is skipped exactly on [win32]; the returned path is [amatl.exe] under
    the cached directory on [win32] and [amatl] elsewhere. *)
Theorem install_fresh_sequence
  (E : Externals) (version : string) (t t1 : Trace)
  (osName archName actualVersion downloadPath extractedPath toolPath : string) :
  Js.truthy (tc_find E "amatl" version) = false ->
  osNameTable (platform E) = Some osName ->
  archNameTable (arch E) = Some archName ->
  resolved E version t = (t1, Ok (Some actualVersion)) ->
  tc_downloadTool E (downloadUrlOf actualVersion osName archName) = Ok downloadPath ->
  tc_extractTar E downloadPath "xz" = Ok extractedPath ->
  tc_cacheDir E extractedPath "amatl" actualVersion = Ok toolPath ->
  (platform E <> "win32" ->
   exec_exec E "chmod" ["+x"; Path.join [toolPath; "amatl"]] = Ok tt) ->
  let binaryPath :=
    Path.join [toolPath; if String.eqb (platform E) "win32" then "amatl.exe" else "amatl"] in
  interp E (installAmatl E version) t =
  (t1 ++ [LogInfo ("Downloading amatl from: "
                   +:+ downloadUrlOf actualVersion osName archName);
          Issued (CallDownloadTool (downloadUrlOf actualVersion osName archName));
          Issued (CallExtractTar downloadPath "xz");
          Issued (CallCacheDir extractedPath "amatl" actualVersion)]
      ++ (if String.eqb (platform E) "win32" then []
          else [Issued (CallExec "chmod" ["+x"; binaryPath])])
      ++ [LogInfo ("amatl installed successfully at " +:+ binaryPath)],
   Ok binaryPath).
Proof.
  intros Hmiss Hos Harch Hres Hdl Hex Hcache Hchmod binaryPath.
  rewrite (installAmatl_steps E version t osName archName t1 actualVersion
             Hmiss Hos Harch Hres).
  cbv zeta. rewrite Hdl, Hex, Hcache.
  unfold binaryPath, binaryPathOf in *.
  destruct (String.eqb_spec (platform E) "win32") as [Hwin|Hunix].
  - now rewrite <- !app_assoc.
  - rewrite (Hchmod Hunix). now rewrite <- !app_assoc.
Qed.

Lemma install_fresh_sequence_witness :
  interp Demo.host (installAmatl Demo.host "v1.0.0") [] =
  ([LogInfo "Installing amatl version: v1.0.0";
    LogInfo "Downloading amatl from: https://github.com/Bornholm/amatl/releases/download/v1.0.0/amatl_1.0.0_linux_amd64.tar.gz";
    Issued (CallDownloadTool "https://github.com/Bornholm/amatl/releases/download/v1.0.0/amatl_1.0.0_linux_amd64.tar.gz");
    Issued (CallExtractTar "/tmp/download" "xz");
    Issued (CallCacheDir "/tmp/extracted" "amatl" "v1.0.0");
    Issued (CallExec "chmod" ["+x"; "/tools/amatl/amatl"]);
    LogInfo "amatl installed successfully at /tools/amatl/amatl"],
   Ok "/tools/amatl/amatl").
Proof.
  apply (install_fresh_sequence Demo.host "v1.0.0" []
           [LogInfo "Installing amatl version: v1.0.0"]
           "linux" "amd64" "v1.0.0" "/tmp/download" "/tmp/extracted" "/tools/amatl");
    try reflexivity.
Defined.

(** X8.  On a cache miss on a supported host the installation stops at the
    first step that fails, with that step's error unchanged and nothing
    issued after it: a failed download is followed by no extraction, a
    failed extraction by no caching, a failed caching by no [chmod], and
    none of them by the success line. *)
Theorem install_stops_at_first_failure
  (E : Externals) (version : string) (t t1 : Trace)
  (osName archName actualVersion : string) (e : JsError) :
  Js.truthy (tc_find E "amatl" version) = false ->
  osNameTable (platform E) = Some osName ->
  archNameTable (arch E) = Some archName ->
  resolved E version t = (t1, Ok (Some actualVersion)) ->
  let downloadUrl := downloadUrlOf actualVersion osName archName in
  let begun := t1 ++ [LogInfo ("Downloading amatl from: " +:+ downloadUrl);
                      Issued (CallDownloadTool downloadUrl)] in
  (tc_downloadTool E downloadUrl = Err e ->
   interp E (installAmatl E version) t = (begun, Err e))
  /\ (forall downloadPath,
        tc_downloadTool E downloadUrl = Ok downloadPath ->
        tc_extractTar E downloadPath "xz" = Err e ->
        interp E (installAmatl E version) t =
        (begun ++ [Issued (CallExtractTar downloadPath "xz")], Err e))
  /\ (forall downloadPath extractedPath,
        tc_downloadTool E downloadUrl = Ok downloadPath ->
        tc_extractTar E downloadPath "xz" = Ok extractedPath ->
        tc_cacheDir E extractedPath "amatl" actualVersion = Err e ->
        interp E (installAmatl E version) t =
        (begun ++ [Issued (CallExtractTar downloadPath "xz");
                   Issued (CallCacheDir extractedPath "amatl" actualVersion)],
         Err e))
  /\ (forall downloadPath extractedPath toolPath,
        tc_downloadTool E downloadUrl = Ok downloadPath ->
        tc_extractTar E downloadPath "xz" = Ok extractedPath ->
        tc_cacheDir E extractedPath "amatl" actualVersion = Ok toolPath ->
        platform E <> "win32" ->
        exec_exec E "chmod" ["+x"; Path.join [toolPath; "amatl"]] = Err e ->
        interp E (installAmatl E version) t =
        (begun ++ [Issued (CallExtractTar downloadPath "xz");
                   Issued (CallCacheDir extractedPath "amatl" actualVersion);
                   Issued (CallExec "chmod" ["+x"; Path.join [toolPath; "amatl"]])],
         Err e)).
Proof.
  intros Hmiss Hos Harch Hres downloadUrl begun.
  pose proof (installAmatl_steps E version t osName archName t1 actualVersion
                Hmiss Hos Harch Hres) as Hsteps.
  cbv zeta in Hsteps. fold downloadUrl in Hsteps. fold begun in Hsteps.
  repeat split.
  - intros Hdl. now rewrite Hsteps, Hdl.
  - intros downloadPath Hdl Hex. now rewrite Hsteps, Hdl, Hex.
  - intros downloadPath extractedPath Hdl Hex Hcache.
    now rewrite Hsteps, Hdl, Hex, Hcache.
  - intros downloadPath extractedPath toolPath Hdl Hex Hcache Hunix Hchmod.
    rewrite Hsteps, Hdl, Hex, Hcache. unfold binaryPathOf.
    destruct (String.eqb_spec (platform E) "win32") as [Hwin|_]; [contradiction|].
    rewrite Hchmod. now rewrite <- !app_assoc.
Qed.

Lemma install_stops_at_first_failure_witness :
  interp Hosts.brokenArchive (installAmatl Hosts.brokenArchive "v1.0.0") [] =
  ([LogInfo "Installing amatl version: v1.0.0";
    LogInfo "Downloading amatl from: https://github.com/Bornholm/amatl/releases/download/v1.0.0/amatl_1.0.0_linux_amd64.tar.gz";
    Issued (CallDownloadTool "https://github.com/Bornholm/amatl/releases/download/v1.0.0/amatl_1.0.0_linux_amd64.tar.gz");
    Issued (CallExtractTar "/tmp/download" "xz")],
   Err (newError "The process 'tar' failed with exit code 2")).
Proof.
  refine (proj1 (proj2 (install_stops_at_first_failure Hosts.brokenArchive "v1.0.0" []
           [LogInfo "Installing amatl version: v1.0.0"]
           "linux" "amd64" "v1.0.0"
           (newError "The process 'tar' failed with exit code 2")
           _ _ _ _)) "/tmp/download" _ _); reflexivity.
Defined.

(** X9.  When the release endpoint answers with a JSON object that has no
    [tag_name] (an error body of the API, say), the release query returns
    [undefined] without a warning, and [installAmatl('latest')] on a cache
    miss on a supported host does not fall back to v0.25.1: it throws a
    [TypeError] right after the query, before any download. *)
Theorem latest_without_tag_is_fatal
  (E : Externals) (t : Trace) (response : Response) (osName archName : string) :
  fetch E latestReleaseUrl = Ok response ->
  response_json E response = Ok (JObject None) ->
  Js.truthy (tc_find E "amatl" "latest") = false ->
  osNameTable (platform E) = Some osName ->
  archNameTable (arch E) = Some archName ->
  interp E getLatestAmatlVersion t =
    (t ++ [Issued (CallFetch latestReleaseUrl); Issued CallJson], Ok None)
  /\ interp E (installAmatl E "latest") t =
     (t ++ [LogInfo "Installing amatl version: latest";
            Issued (CallFetch latestReleaseUrl); Issued CallJson],
      Err (JsErr "TypeError"
             "Cannot read properties of undefined (reading 'replace')")).
Proof.
  intros Hfetch Hjson Hmiss Hos Harch. split.
  - now apply getLatestAmatlVersion_object with response.
  - unfold installAmatl. cbn [interp]. rewrite Hmiss.
    rewrite mbind_prog, interp_bind, osNameOf_table, Hos. cbn [interp].
    rewrite mbind_prog, interp_bind, archNameOf_table, Harch. cbn [interp].
    rewrite mbind_prog, interp_bind. cbn [String.eqb Ascii.eqb Bool.eqb].
    rewrite (getLatestAmatlVersion_object E _ response None Hfetch Hjson).
    cbn [interp]. now rewrite <- app_assoc.
Qed.

Lemma latest_without_tag_is_fatal_witness :
  interp Demo.hostNoTag getLatestAmatlVersion [] =
    ([Issued (CallFetch latestReleaseUrl); Issued CallJson], Ok None)
  /\ interp Demo.hostNoTag (installAmatl Demo.hostNoTag "latest") [] =
     ([LogInfo "Installing amatl version: latest";
       Issued (CallFetch latestReleaseUrl); Issued CallJson],
      Err (JsErr "TypeError"
             "Cannot read properties of undefined (reading 'replace')")).
Proof.
  apply (latest_without_tag_is_fatal Demo.hostNoTag [] "{}" "linux" "amd64");
    reflexivity.
Defined.

(** X10.  The release API is contacted for the version ["latest"] only: for
    any other requested version no [fetch] and no [response.json()] is ever
    issued, whatever the host and whatever fails; and for ["latest"] with a
    tag in the answer, the archive requested is the one of that tag. *)
Theorem pinned_version_skips_release_query
  (E : Externals) (version : string) (t : Trace) :
  (version <> "latest" ->
   exists added,
     fst (interp E (installAmatl E version) t) = t ++ added
     /\ Forall offline added)
  /\ (forall response tag osName archName,
        version = "latest" ->
        Js.truthy (tc_find E "amatl" "latest") = false ->
        osNameTable (platform E) = Some osName ->
        archNameTable (arch E) = Some archName ->
        fetch E latestReleaseUrl = Ok response ->
        response_json E response = Ok (JObject (Some tag)) ->
        exists rest,
          fst (interp E (installAmatl E version) t) =
          t ++ [LogInfo "Installing amatl version: latest";
                Issued (CallFetch latestReleaseUrl); Issued CallJson;
                LogInfo ("Downloading amatl from: " +:+ downloadUrlOf tag osName archName);
                Issued (CallDownloadTool (downloadUrlOf tag osName archName))]
            ++ rest).
Proof.
  split.
  - intros Hpinned. apply Emits_interp. now apply installAmatl_offline.
  - intros response tag osName archName -> Hmiss Hos Harch Hfetch Hjson.
    assert (Hres : resolved E "latest" t =
                   (t ++ [LogInfo "Installing amatl version: latest";
                          Issued (CallFetch latestReleaseUrl); Issued CallJson],
                    Ok (Some tag))).
    { unfold resolved. cbn [String.eqb Ascii.eqb Bool.eqb].
      rewrite (getLatestAmatlVersion_object E _ response (Some tag) Hfetch Hjson).
      now rewrite <- app_assoc. }
    rewrite (installAmatl_steps E "latest" t osName archName _ tag
               Hmiss Hos Harch Hres).
    cbv zeta.
    destruct (tc_downloadTool E _) as [downloadPath|e].
    2:{ exists []. cbn [fst]. now rewrite <- !app_assoc. }
    destruct (tc_extractTar E _ _) as [extractedPath|e].
    2:{ eexists. cbn [fst]. rewrite <- !app_assoc. cbn [app]. reflexivity. }
    destruct (tc_cacheDir E _ _ _) as [toolPath|e].
    2:{ eexists. cbn [fst]. rewrite <- !app_assoc. cbn [app]. reflexivity. }
    destruct (String.eqb (platform E) "win32").
    { eexists. cbn [fst]. rewrite <- !app_assoc. cbn [app]. reflexivity. }
    destruct (exec_exec E _ _) as [[]|e];
      eexists; cbn [fst]; rewrite <- !app_assoc; cbn [app]; reflexivity.
Qed.

Lemma pinned_version_skips_release_query_witness :
  (exists added,
     fst (interp Demo.host (installAmatl Demo.host "v1.0.0") []) = [] ++ added
     /\ Forall offline added)
  /\ exists rest,
       fst (interp Hosts.tagged (installAmatl Hosts.tagged "latest") []) =
       [] ++ [LogInfo "Installing amatl version: latest";
              Issued (CallFetch latestReleaseUrl); Issued CallJson;
              LogInfo "Downloading amatl from: https://github.com/Bornholm/amatl/releases/download/v1.2.3/amatl_1.2.3_linux_amd64.tar.gz";
              Issued (CallDownloadTool "https://github.com/Bornholm/amatl/releases/download/v1.2.3/amatl_1.2.3_linux_amd64.tar.gz")]
         ++ rest.
Proof.
  split.
  - apply (proj1 (pinned_version_skips_release_query Demo.host "v1.0.0" [])).
    discriminate.
  - apply (proj2 (pinned_version_skips_release_query Hosts.tagged "latest" [])
             "v1.2.3" "v1.2.3" "linux" "amd64"); reflexivity.
Defined.

(** ** The job of one file, format after format *)

Section JobSteps.
Context (E : Externals) (amatlPath file : string) (options : AmatlOptions.t).

(** Formats that render are gone through one after the other. *)
Lemma renderFormats_run done more outputFiles t :
  Forall (renders E amatlPath options file) done ->
  interp E (renderFormats E amatlPath file options (done ++ more) outputFiles) t =
  interp E
    (renderFormats E amatlPath file options more
       (outputFiles ++ map (outputFileOf E options file) done))
    (t ++ rendered E amatlPath options file done).
Proof.
  intros Hdone. revert outputFiles t.
  induction Hdone as [|format done Hformat _ IH]; intros outputFiles t.
  - cbn [app map rendered flat_map]. now rewrite !app_nil_r.
  - cbn [app]. rewrite renderFormats_step. unfold renders in Hformat.
    rewrite Hformat, IH. cbn [map rendered flat_map].
    now rewrite <- !app_assoc.
Qed.

Lemma renderFormats_outcome formats outputFiles :
  (exists produced,
     outcome E (renderFormats E amatlPath file options formats outputFiles)
     = Ok produced)
  <-> Forall (renders E amatlPath options file) formats.
Proof.
  revert outputFiles.
  induction formats as [|format rest IH]; intros outputFiles.
  - split; [constructor|]. intros _. now exists outputFiles.
  - rewrite <- (interp_outcome E _ []), renderFormats_step.
    unfold renders at 1.
    destruct (exec_exec E amatlPath (renderArgs E options file format))
      as [[]|e] eqn:Hexec.
    + rewrite interp_outcome, IH. split.
      * intros Hrest. constructor; [exact Hexec|exact Hrest].
      * intros Hall. now inversion Hall.
    + cbn [snd]. split.
      * intros [produced [=]].
      * intros Hall. inversion Hall as [|? ? Hformat _]; subst.
        unfold renders in Hformat. congruence.
Qed.

End JobSteps.

(** X11.  A job stops at its first failure, wherever it occurs.  When the
    subdirectory cannot be created the renderer is never spawned.  When the
    formats rendered so far succeeded and the next one fails, the job logs
    the failure with [core.error] and rejects with the renderer's error
    unchanged; the formats after it are never attempted, and the paths
    generated so far are not returned. *)
Theorem job_stops_at_first_failure
  (E : Externals) (amatlPath file : string) (options : AmatlOptions.t)
  (e : JsError) (t : Trace) :
  (io_mkdirP E (outputSubDirOf E options file) = Err e ->
   interp E (processMarkdownFile E amatlPath file options) t =
   (t ++ [LogInfo ("Processing: " +:+ file);
          Issued (CallMkdirP (outputSubDirOf E options file))], Err e))
  /\ (forall done failing rest,
        formatsOf options = done ++ failing :: rest ->
        io_mkdirP E (outputSubDirOf E options file) = Ok tt ->
        Forall (fun format =>
                  exec_exec E amatlPath (renderArgs E options file format) = Ok tt)
          done ->
        exec_exec E amatlPath (renderArgs E options file failing) = Err e ->
        interp E (processMarkdownFile E amatlPath file options) t =
        (t ++ [LogInfo ("Processing: " +:+ file);
               Issued (CallMkdirP (outputSubDirOf E options file))]
           ++ flat_map
                (fun format =>
                   [Issued (CallExec amatlPath (renderArgs E options file format));
                    LogInfo ("Generated: " +:+ outputFileOf E options file format)])
                done
           ++ [Issued (CallExec amatlPath (renderArgs E options file failing));
               LogError ("Failed to process " +:+ file +:+ " to " +:+ failing
                         +:+ ": " +:+ showError e)],
         Err e)).
Proof.
  split.
  - intros Hmkdir. now rewrite processMarkdownFile_start, Hmkdir.
  - intros done failing rest Hformats Hmkdir Hdone Hfail.
    rewrite processMarkdownFile_start, Hmkdir, Hformats.
    rewrite (renderFormats_run E amatlPath file options done (failing :: rest) [] _ Hdone).
    rewrite renderFormats_step, Hfail. unfold rendered.
    now rewrite <- !app_assoc.
Qed.

Lemma job_stops_at_first_failure_witness :
  interp Hosts.readOnlySub
    (processMarkdownFile Hosts.readOnlySub "amatl" "sub/b.md" Demo.options) [] =
  ([LogInfo "Processing: sub/b.md"; Issued (CallMkdirP "out/sub")],
   Err (newError "EACCES: permission denied, mkdir 'out/sub'"))
  /\ interp Demo.hostNoPdf
       (processMarkdownFile Demo.hostNoPdf "amatl" "a.md"
          (Demo.withFormat "markdown,html,pdf,html" Demo.options)) [] =
     ([LogInfo "Processing: a.md"; Issued (CallMkdirP "out")]
        ++ flat_map
             (fun format =>
                [Issued (CallExec "amatl"
                           (renderArgs Demo.hostNoPdf
                              (Demo.withFormat "markdown,html,pdf,html" Demo.options)
                              "a.md" format));
                 LogInfo ("Generated: " +:+
                          outputFileOf Demo.hostNoPdf
                            (Demo.withFormat "markdown,html,pdf,html" Demo.options)
                            "a.md" format)])
             ["markdown"; "html"]
        ++ [Issued (CallExec "amatl"
                      (renderArgs Demo.hostNoPdf
                         (Demo.withFormat "markdown,html,pdf,html" Demo.options)
                         "a.md" "pdf"));
            LogError "Failed to process a.md to pdf: Error: The process 'amatl' failed with exit code 1"],
      Err (newError "The process 'amatl' failed with exit code 1")).
Proof.
  split.
  - apply (proj1 (job_stops_at_first_failure Hosts.readOnlySub "amatl" "sub/b.md"
                    Demo.options _ [])).
    reflexivity.
  - apply (proj2 (job_stops_at_first_failure Demo.hostNoPdf "amatl" "a.md"
                    (Demo.withFormat "markdown,html,pdf,html" Demo.options)
                    (newError "The process 'amatl' failed with exit code 1") [])
             ["markdown"; "html"] "pdf" ["html"]).
    + reflexivity.
    + reflexivity.
    + repeat constructor.
    + reflexivity.
Defined.

(** X12.  A job is fulfilled exactly when its subdirectory can be created
    and the renderer succeeds for every requested format.  It then spawns
    the renderer once per format, in the order of the format list (a format
    listed twice is rendered twice), and returns [filesProcessed = 1] with
    one output path per format in that order. *)
Theorem job_succeeds_iff
  (E : Externals) (amatlPath file : string) (options : AmatlOptions.t) (t : Trace) :
  ((exists r, snd (interp E (processMarkdownFile E amatlPath file options) t) = Ok r)
   <-> io_mkdirP E (outputSubDirOf E options file) = Ok tt
       /\ Forall (fun format =>
                    exec_exec E amatlPath (renderArgs E options file format) = Ok tt)
            (formatsOf options))
  /\ (io_mkdirP E (outputSubDirOf E options file) = Ok tt ->
      Forall (fun format =>
                exec_exec E amatlPath (renderArgs E options file format) = Ok tt)
        (formatsOf options) ->
      interp E (processMarkdownFile E amatlPath file options) t =
      (t ++ [LogInfo ("Processing: " +:+ file);
             Issued (CallMkdirP (outputSubDirOf E options file))]
         ++ flat_map
              (fun format =>
                 [Issued (CallExec amatlPath (renderArgs E options file format));
                  LogInfo ("Generated: " +:+ outputFileOf E options file format)])
              (formatsOf options),
       Ok {| ProcessResult.filesProcessed := 1;
             ProcessResult.outputFiles :=
               map (outputFileOf E options file) (formatsOf options) |})).
Proof.
  split.
  - rewrite processMarkdownFile_start.
    destruct (io_mkdirP E (outputSubDirOf E options file)) as [[]|e].
    + pose proof (renderFormats_outcome E amatlPath file options
                    (formatsOf options) []) as Hiff.
      rewrite <- (interp_outcome E _
                    (t ++ [LogInfo ("Processing: " +:+ file);
                           Issued (CallMkdirP (outputSubDirOf E options file))]))
        in Hiff.
      destruct (interp E (renderFormats E amatlPath file options (formatsOf options) []) _)
        as [t' [produced|e]]; cbn [snd] in *.
      * split; [intros _; split; [reflexivity|apply Hiff; eauto]|eauto].
      * split; [intros [r [=]]|].
        intros [_ Hall]. apply Hiff in Hall. destruct Hall as [produced [=]].
    + cbn [snd]. split; [intros [r [=]]|intros [[=] _]].
  - intros Hmkdir Hall.
    rewrite processMarkdownFile_start, Hmkdir.
    rewrite <- (app_nil_r (formatsOf options)) at 1.
    rewrite (renderFormats_run E amatlPath file options (formatsOf options) [] [] _ Hall).
    cbn [renderFormats interp app]. unfold rendered.
    now rewrite <- !app_assoc.
Qed.

Lemma job_succeeds_iff_witness :
  interp Demo.host
    (processMarkdownFile Demo.host "amatl" "sub/b.md"
       (Demo.withFormat "pdf, markdown ,pdf" Demo.options)) [] =
  ([LogInfo "Processing: sub/b.md"; Issued (CallMkdirP "out/sub")]
     ++ flat_map
          (fun format =>
             [Issued (CallExec "amatl"
                        (renderArgs Demo.host
                           (Demo.withFormat "pdf, markdown ,pdf" Demo.options)
                           "sub/b.md" format));
              LogInfo ("Generated: " +:+
                       outputFileOf Demo.host
                         (Demo.withFormat "pdf, markdown ,pdf" Demo.options)
                         "sub/b.md" format)])
          ["pdf"; "markdown"; "pdf"],
   Ok {| ProcessResult.filesProcessed := 1;
         ProcessResult.outputFiles :=
           ["out/sub/b.pdf"; "out/sub/b.md"; "out/sub/b.pdf"] |}).
Proof.
  apply (proj2 (job_succeeds_iff Demo.host "amatl" "sub/b.md"
                  (Demo.withFormat "pdf, markdown ,pdf" Demo.options) [])).
  - reflexivity.
  - repeat constructor.
Defined.

(** ** The dispatcher, whatever the interleaving *)

Section Rejections.
Context (E : Externals) {A : Type}.
Implicit Types (p : Prog A) (jobs : list (Prog A)).

Lemma Emits_weaken (P Q : Event -> Prop) p :
  (forall ev, P ev -> Q ev) -> Emits P p -> Emits Q p.
Proof.
  intros HPQ Hp.
  induction Hp as [a|e|ev k Hev Hk IH|R op k Hop Hk IH]; constructor; auto.
Qed.

Lemma firstRejection_elem jobs e :
  firstRejection jobs = Some e -> exists p, p ∈ jobs /\ outcome E p = Err e.
Proof.
  induction jobs as [|p jobs IH]; cbn [firstRejection]; [discriminate|].
  destruct p as [a|e'|ev k|R op k].
  2:{ intros [= ->]. exists (Throw e). split; [left|reflexivity]. }
  all: intros Hrej; destruct (IH Hrej) as (q & Hq & Hout);
    exists q; split; [now right|exact Hout].
Qed.

Lemma finishAll_rejects jobs t e :
  snd (finishAll E jobs t) = Err e -> exists p, p ∈ jobs /\ outcome E p = Err e.
Proof.
  revert t. induction jobs as [|p jobs IH]; intros t; cbn [finishAll];
    [discriminate|].
  pose proof (finish_outcome E p t) as Hp.
  destruct (finish E p t) as [t' [a|e']]; cbn [snd] in Hp.
  - specialize (IH t').
    destruct (finishAll E jobs t') as [t'' [values|e'']]; cbn [snd] in *;
      [discriminate|].
    intros [= ->]. destruct (IH eq_refl) as (q & Hq & Hout).
    exists q. split; [now right|exact Hout].
  - cbn [snd]. intros [= ->]. exists p. split; [left|now symmetry].
Qed.

(** A rejection of [Promise.all] is the rejection of one of its jobs. *)
Lemma awaitAll_rejects sched jobs t e :
  snd (awaitAll E sched jobs t) = Err e ->
  exists p, p ∈ jobs /\ outcome E p = Err e.
Proof.
  revert jobs t. induction sched as [|n sched IH]; intros jobs t;
    cbn [awaitAll];
    (destruct (firstRejection jobs) as [e'|] eqn:Hrej;
     [cbn [snd]; intros [= ->]; now apply firstRejection_elem|]);
    (destruct (allFulfilled jobs) as [values|]; [discriminate|]).
  - pose proof (finishAll_rejects jobs t e) as Hfin.
    destruct (finishAll E jobs t) as [t' r]. exact Hfin.
  - destruct (jobs !! _) as [p|] eqn:Hlook; [|apply IH].
    pose proof (outcome_resume E p t) as Hres.
    destruct (resume E p t) as [t' p']. cbn [snd] in Hres.
    intros Hwait. destruct (IH _ _ Hwait) as (q & Hq & Hout).
    apply list_elem_of_lookup in Hq. destruct Hq as [j Hj].
    apply list_lookup_insert_Some in Hj.
    destruct Hj as [(_ & Hq & _)|(_ & Hj)].
    + subst q. exists p.
      split; [now apply list_elem_of_lookup_2 in Hlook|congruence].
    + exists q. split; [now apply list_elem_of_lookup_2 in Hj|exact Hout].
Qed.

End Rejections.

Section DispatchFacts.
Context (E : Externals) (amatlPath : string) (options : AmatlOptions.t).

Lemma batch_fulfilled batch batchFiles results :
  JobsOf E amatlPath options batch batchFiles -> Fulfils E batch results ->
  forall file, file ∈ batchFiles ->
    exists r, jobResult E amatlPath options file = Ok r.
Proof.
  intros [Hout _] Hful. revert results Hful.
  induction Hout as [|p f batch batchFiles Hp Hout IH]; intros results Hful file Hin.
  - inversion Hin.
  - inversion Hful as [|? r ? results' Hr Hrest]; subst.
    apply elem_of_cons in Hin. destruct Hin as [->|Hin].
    + exists r. congruence.
    + now apply (IH results').
Qed.

Lemma batch_rejected batch batchFiles p e :
  JobsOf E amatlPath options batch batchFiles ->
  p ∈ batch -> outcome E p = Err e ->
  exists file, file ∈ batchFiles /\ jobResult E amatlPath options file = Err e.
Proof.
  intros [Hout _] Hin Hp.
  induction Hout as [|q f batch batchFiles Hq Hout IH]; [inversion Hin|].
  apply elem_of_cons in Hin. destruct Hin as [->|Hin].
  - exists f. split; [left|congruence].
  - destruct (IH Hin) as (g & Hg & Hres). exists g. split; [now right|exact Hres].
Qed.

(** The loop returns exactly when every job it waits for is fulfilled, and
    an error it ends with is the error of one of those jobs. *)
Lemma dispatch_outcome batchSize files batch batchFiles acc sched t :
  JobsOf E amatlPath options batch batchFiles ->
  match snd (dispatch E amatlPath options batchSize files batch acc sched t) with
  | Ok _ =>
      forall file, file ∈ concat (windowsFrom batchSize files batchFiles) ->
        exists r, jobResult E amatlPath options file = Ok r
  | Err e =>
      exists file, file ∈ concat (windowsFrom batchSize files batchFiles)
                   /\ jobResult E amatlPath options file = Err e
  end.
Proof.
  revert batch batchFiles acc sched t.
  induction files as [|file rest IH]; intros batch batchFiles acc sched t Hjobs;
    cbn [dispatch windowsFrom]; rewrite <- (JobsOf_length _ _ _ _ _ Hjobs).
  - destruct (0 <? length batch)%nat.
    + pose proof (awaitAll_fulfils E sched batch (t ++ [JointWait (length batch)]))
        as Hful.
      pose proof (awaitAll_rejects E sched batch (t ++ [JointWait (length batch)]))
        as Hrej.
      destruct (awaitAll E sched batch (t ++ [JointWait (length batch)]))
        as [[t1 sched1] [results|e]]; cbn [snd concat] in *; rewrite app_nil_r.
      * apply (batch_fulfilled batch batchFiles results Hjobs). now apply Hful.
      * destruct (Hrej e eq_refl) as (p & Hp & Hout).
        now apply (batch_rejected batch batchFiles p e).
    + cbn [snd concat]. intros file Hin. inversion Hin.
  - destruct (Z.of_nat (length batch) <? batchSize)%Z.
    + pose proof (JobsOf_started E amatlPath options batch batchFiles file t Hjobs)
        as Hjobs'.
      destruct (advance (processMarkdownFile E amatlPath file options) t)
        as [t1 job]. cbn [snd] in Hjobs'.
      apply (IH _ _ acc sched t1 Hjobs').
    + pose proof (awaitAll_fulfils E sched batch (t ++ [JointWait (length batch)]))
        as Hful.
      pose proof (awaitAll_rejects E sched batch (t ++ [JointWait (length batch)]))
        as Hrej.
      destruct (awaitAll E sched batch (t ++ [JointWait (length batch)]))
        as [[t1 sched1] [results|e]]; cbn [snd concat] in *.
      * specialize (IH [] [] (mergeResults acc results) sched1 t1
                      (JobsOf_nil E amatlPath options)).
        destruct (snd (dispatch E amatlPath options batchSize rest []
                         (mergeResults acc results) sched1 t1)) as [r|e].
        -- intros g Hg. apply elem_of_app in Hg. destruct Hg as [Hg|Hg].
           ++ apply (batch_fulfilled batch batchFiles results Hjobs);
                [now apply Hful|exact Hg].
           ++ now apply IH.
        -- destruct IH as (g & Hg & Hres). exists g.
           split; [apply elem_of_app; now right|exact Hres].
      * destruct (Hrej e eq_refl) as (p & Hp & Hout).
        destruct (batch_rejected batch batchFiles p e Hjobs Hp Hout)
          as (g & Hg & Hres).
        exists g. split; [apply elem_of_app; now left|exact Hres].
Qed.

(** What the loop adds to the trace is what its jobs emit, and the joint
    waits. *)
Lemma dispatch_emits (P : Event -> Prop) batchSize files batch acc sched t :
  (forall n, P (JointWait n)) ->
  Forall (Emits P) batch ->
  Forall (fun file => Emits P (processMarkdownFile E amatlPath file options)) files ->
  exists added,
    fst (dispatch E amatlPath options batchSize files batch acc sched t) = t ++ added
    /\ Forall P added.
Proof.
  intros Hwait. revert batch acc sched t.
  induction files as [|file rest IH]; intros batch acc sched t Hbatch Hfiles;
    cbn [dispatch].
  - destruct (0 <? length batch)%nat.
    + destruct (Emits_awaitAll E P sched batch (t ++ [JointWait (length batch)]) Hbatch)
        as (added & Ht & Hadded).
      destruct (awaitAll E sched batch (t ++ [JointWait (length batch)]))
        as [[t1 sched1] [results|e]]; cbn [fst] in *; subst t1;
        exists (JointWait (length batch) :: added);
        rewrite <- app_assoc; (split; [reflexivity|constructor; auto]).
    + exists []. cbn [fst]. now rewrite app_nil_r.
  - inversion Hfiles as [|? ? Hfile Hrest]; subst.
    destruct (Z.of_nat (length batch) <? batchSize)%Z.
    + destruct (Emits_advance P _ t Hfile) as (Hjob & a1 & Ht & Ha1).
      destruct (advance (processMarkdownFile E amatlPath file options) t)
        as [t1 job]. cbn [fst snd] in *. subst t1.
      destruct (IH (batch ++ [job]) acc sched (t ++ a1)) as (a2 & Ht2 & Ha2).
      { apply Forall_app_2; [exact Hbatch|now constructor]. }
      { exact Hrest. }
      exists (a1 ++ a2). rewrite Ht2, <- app_assoc.
      split; [reflexivity|now apply Forall_app_2].
    + destruct (Emits_awaitAll E P sched batch (t ++ [JointWait (length batch)]) Hbatch)
        as (a1 & Ht & Ha1).
      destruct (awaitAll E sched batch (t ++ [JointWait (length batch)]))
        as [[t1 sched1] [results|e]]; cbn [fst] in *; subst t1.
      * destruct (IH [] (mergeResults acc results) sched1
                    ((t ++ [JointWait (length batch)]) ++ a1)) as (a2 & Ht2 & Ha2).
        { constructor. }
        { exact Hrest. }
        exists (JointWait (length batch) :: a1 ++ a2).
        rewrite Ht2, <- !app_assoc.
        split; [reflexivity|constructor; auto using Forall_app_2].
      * exists (JointWait (length batch) :: a1). rewrite <- app_assoc.
        split; [reflexivity|constructor; auto].
Qed.

Lemma renderFormats_processing files file formats outputFiles :
  file ∈ files ->
  (forall format, format ∈ formats -> format ∈ formatsOf options) ->
  Emits (processingEvent E amatlPath options files)
    (renderFormats E amatlPath file options formats outputFiles).
Proof.
  intros Hfile. revert outputFiles.
  induction formats as [|format rest IH]; intros outputFiles Hformats;
    cbn [renderFormats]; [constructor|].
  rewrite mbind_prog. apply Emits_bind.
  - apply Emits_tryCatch.
    + rewrite mbind_prog. apply Emits_bind.
      * apply Emits_await. cbn [callOf processingEvent].
        split; [reflexivity|]. exists file, format.
        split; [exact Hfile|]. split; [apply Hformats; left|reflexivity].
      * intros _. constructor; [exact I|constructor].
    + intros e. constructor; [exact I|constructor].
  - intros produced. apply IH. intros f Hf. apply Hformats. now right.
Qed.

Lemma processMarkdownFile_processing files file :
  file ∈ files ->
  Emits (processingEvent E amatlPath options files)
    (processMarkdownFile E amatlPath file options).
Proof.
  intros Hfile. unfold processMarkdownFile. constructor; [exact I|].
  rewrite mbind_prog. apply Emits_bind.
  - apply Emits_await. cbn [callOf processingEvent]. right. now exists file.
  - intros _. rewrite mbind_prog. apply Emits_bind.
    + now apply renderFormats_processing.
    + intros produced. constructor.
Qed.

(** Files that fit in the window make one window. *)
Lemma windowsFrom_fits batchSize files batch :
  (Z.of_nat (length batch + length files) <= batchSize)%Z ->
  windowsFrom batchSize files batch =
  if (0 <? length (batch ++ files))%nat then [batch ++ files] else [].
Proof.
  revert batch. induction files as [|file rest IH]; intros batch Hfit;
    cbn [windowsFrom].
  - now rewrite app_nil_r.
  - cbn [length] in Hfit.
    destruct (Z.ltb_spec (Z.of_nat (length batch)) batchSize) as [_|Hge]; [|lia].
    rewrite IH; [|rewrite length_app; cbn [length]; lia].
    now rewrite <- app_assoc.
Qed.

(** The outputs of windows whose jobs were all fulfilled. *)
Lemma fulfilled_outputs (ws : list (list string)) :
  (forall file, file ∈ concat ws ->
     exists r, jobResult E amatlPath options file = Ok r) ->
  concat (map (fun window => concat (map (jobOutputs E amatlPath options) window)) ws)
  = flat_map (outputsFor E options) (concat ws).
Proof.
  induction ws as [|w ws IH]; intros Hok; [reflexivity|].
  cbn [map concat]. rewrite flat_map_app, IH.
  2:{ intros file Hin. apply Hok. cbn [concat]. apply elem_of_app. now right. }
  f_equal.
  assert (Hw : forall file, file ∈ w ->
                 exists r, jobResult E amatlPath options file = Ok r).
  { intros file Hin. apply Hok. cbn [concat]. apply elem_of_app. now left. }
  clear -Hw. induction w as [|file w IH]; [reflexivity|].
  cbn [map concat flat_map]. rewrite IH.
  2:{ intros g Hg. apply Hw. now right. }
  f_equal. destruct (Hw file) as [r Hr]; [left|].
  unfold jobOutputs. rewrite Hr.
  apply jobResult_fulfilled in Hr. now subst r.
Qed.

Lemma length_flat_map_const {X Y} (f : X -> list Y) (l : list X) n :
  (forall x, length (f x) = n) -> length (flat_map f l) = length l * n.
Proof.
  intros Hf. induction l as [|x l IH]; [reflexivity|].
  cbn [flat_map length]. rewrite length_app, Hf, IH. lia.
Qed.

End DispatchFacts.

Lemma batchSizeOf_positive (E : Externals) :
  batchSizeOf E = Z.of_nat (Z.to_nat (batchSizeOf E))
  /\ 1 <= Z.to_nat (batchSizeOf E).
Proof.
  unfold batchSizeOf. destruct (Z.ltb_spec (Z.of_nat (cpus E) - 1) 1); lia.
Qed.

(** X13.  Whether a call returns does not depend on the order in which the
    concurrent jobs make progress: for every interleaving it returns exactly
    when the output directory can be created and the job of every file that
    is placed in a window is fulfilled.  A file that is never placed in a
    window has no influence on the result. *)
Theorem processing_succeeds_iff
  (E : Externals) (sched : list nat) (amatlPath : string) (files : list string)
  (options : AmatlOptions.t) (t : Trace) :
  (exists r, snd (processMarkdownFiles E sched amatlPath files options t) = Ok r)
  <-> io_mkdirP E (AmatlOptions.outputDir options) = Ok tt
      /\ forall file, file ∈ concat (windows (batchSizeOf E) files) ->
           exists r, jobResult E amatlPath options file = Ok r.
Proof.
  unfold processMarkdownFiles. rewrite interp_await. cbn [perform callOf].
  destruct (io_mkdirP E (AmatlOptions.outputDir options)) as [[]|e].
  2:{ cbn [snd]. split; [intros [r [=]]|intros [[=] _]]. }
  pose proof (dispatch_outcome E amatlPath options (batchSizeOf E) files [] []
                {| ProcessResult.filesProcessed := 0; ProcessResult.outputFiles := [] |}
                sched (t ++ [Issued (CallMkdirP (AmatlOptions.outputDir options))])
                (JobsOf_nil E amatlPath options)) as Hout.
  fold (windows (batchSizeOf E) files) in Hout.
  destruct (snd (dispatch E amatlPath options (batchSizeOf E) files [] _ sched _))
    as [r|e].
  - split; [intros _; split; [reflexivity|exact Hout]|eauto].
  - split; [intros [r [=]]|].
    intros [_ Hok]. destruct Hout as (file & Hin & Hres).
    destruct (Hok file Hin) as [r Hr]. congruence.
Qed.

Lemma processing_succeeds_iff_witness :
  exists r,
    snd (processMarkdownFiles Hosts.failsOnB [0; 0] "amatl" ["a.md"; "b.md"]
           Demo.options []) = Ok r.
Proof.
  apply (proj2 (processing_succeeds_iff Hosts.failsOnB [0; 0] "amatl"
                  ["a.md"; "b.md"] Demo.options [])).
  split; [reflexivity|].
  intros file Hin. vm_compute in Hin.
  apply elem_of_cons in Hin. destruct Hin as [->|Hin]; [|inversion Hin].
  eexists. vm_compute. reflexivity.
Defined.

(** X14.  When the output directory cannot be created, the call rejects with
    that error and starts no job.  Otherwise an error of the call is always
    the error of the job of one of the files placed in a window, passed on
    unchanged, whatever the interleaving. *)
Theorem processing_error_provenance
  (E : Externals) (sched : list nat) (amatlPath : string) (files : list string)
  (options : AmatlOptions.t) (t : Trace) (e : JsError) :
  (io_mkdirP E (AmatlOptions.outputDir options) = Err e ->
   processMarkdownFiles E sched amatlPath files options t =
   (t ++ [Issued (CallMkdirP (AmatlOptions.outputDir options))], Err e))
  /\ (snd (processMarkdownFiles E sched amatlPath files options t) = Err e ->
      io_mkdirP E (AmatlOptions.outputDir options) = Err e
      \/ exists file,
           file ∈ concat (windows (batchSizeOf E) files)
           /\ snd (interp E (processMarkdownFile E amatlPath file options) []) = Err e).
Proof.
  unfold processMarkdownFiles. rewrite interp_await. cbn [perform callOf].
  destruct (io_mkdirP E (AmatlOptions.outputDir options)) as [[]|e'].
  2:{ split; [now intros [= ->]|]. cbn [snd]. intros [= ->]. now left. }
  split; [discriminate|].
  pose proof (dispatch_outcome E amatlPath options (batchSizeOf E) files [] []
                {| ProcessResult.filesProcessed := 0; ProcessResult.outputFiles := [] |}
                sched (t ++ [Issued (CallMkdirP (AmatlOptions.outputDir options))])
                (JobsOf_nil E amatlPath options)) as Hout.
  fold (windows (batchSizeOf E) files) in Hout.
  intros Herr. rewrite Herr in Hout. destruct Hout as (file & Hin & Hres).
  right. exists file. split; [exact Hin|].
  now rewrite interp_outcome.
Qed.

Lemma processing_error_provenance_witness :
  processMarkdownFiles Hosts.readOnly [] "amatl" ["a.md"] Demo.options [] =
    ([Issued (CallMkdirP "out")], Err (newError "EACCES: permission denied"))
  /\ (newError "The process 'amatl' failed with exit code 1"
        = newError "EACCES: permission denied"
      \/ exists file,
           file ∈ concat (windows (batchSizeOf Demo.hostNoPdf) ["a.md"; "b.md"])
           /\ snd (interp Demo.hostNoPdf
                     (processMarkdownFile Demo.hostNoPdf "amatl" file
                        (Demo.withFormat "html,pdf" Demo.options)) [])
              = Err (newError "The process 'amatl' failed with exit code 1")).
Proof.
  split.
  - apply (proj1 (processing_error_provenance Hosts.readOnly [] "amatl" ["a.md"]
                    Demo.options [] (newError "EACCES: permission denied"))).
    reflexivity.
  - destruct (proj2 (processing_error_provenance Demo.hostNoPdf [0; 1; 0] "amatl"
                       ["a.md"; "b.md"] (Demo.withFormat "html,pdf" Demo.options) []
                       (newError "The process 'amatl' failed with exit code 1")))
      as [Hdir|Hjob].
    + vm_compute. reflexivity.
    + discriminate Hdir.
    + right. exact Hjob.
Defined.

(** X15.  A call that returns reports as [filesProcessed] the number of
    files placed in a window, and as [outputFiles] the output paths of those
    files, file after file in window order, one path per requested format in
    the order of the format list; so the number of output files is the
    number of processed files times the number of formats. *)
Theorem processing_result_closed_form
  (E : Externals) (sched : list nat) (amatlPath : string) (files : list string)
  (options : AmatlOptions.t) (t t' : Trace) (r : ProcessResult.t) :
  processMarkdownFiles E sched amatlPath files options t = (t', Ok r) ->
  ProcessResult.filesProcessed r = length (concat (windows (batchSizeOf E) files))
  /\ ProcessResult.outputFiles r =
     flat_map (fun file => map (outputFileOf E options file) (formatsOf options))
       (concat (windows (batchSizeOf E) files))
  /\ length (ProcessResult.outputFiles r) =
     ProcessResult.filesProcessed r * length (formatsOf options).
Proof.
  intros Hrun.
  assert (Hok : forall file, file ∈ concat (windows (batchSizeOf E) files) ->
                  exists r, jobResult E amatlPath options file = Ok r).
  { revert Hrun. unfold processMarkdownFiles. rewrite interp_await.
    cbn [perform callOf].
    destruct (io_mkdirP E (AmatlOptions.outputDir options)) as [[]|e];
      [|discriminate].
    intros Hrun.
    pose proof (dispatch_outcome E amatlPath options (batchSizeOf E) files [] []
                  {| ProcessResult.filesProcessed := 0;
                     ProcessResult.outputFiles := [] |}
                  sched (t ++ [Issued (CallMkdirP (AmatlOptions.outputDir options))])
                  (JobsOf_nil E amatlPath options)) as Hout.
    rewrite Hrun in Hout. exact Hout. }
  revert Hrun. unfold processMarkdownFiles. rewrite interp_await.
  cbn [perform callOf].
  destruct (io_mkdirP E (AmatlOptions.outputDir options)) as [[]|e]; [|discriminate].
  intros Hrun.
  destruct (dispatch_returns E amatlPath options _ _ _ _ _ _ _ _ _
              (JobsOf_nil E amatlPath options) Hrun) as (Ho & Hn & _).
  cbn [ProcessResult.outputFiles ProcessResult.filesProcessed app] in Ho, Hn.
  fold (windows (batchSizeOf E) files) in Ho, Hn.
  rewrite (fulfilled_outputs E amatlPath options _ Hok) in Ho.
  unfold outputsFor in Ho.
  split; [exact Hn|]. split; [exact Ho|].
  rewrite Ho, Hn. apply length_flat_map_const. intros file. apply length_map.
Qed.

Lemma processing_result_closed_form_witness :
  ProcessResult.filesProcessed
    {| ProcessResult.filesProcessed := 3;
       ProcessResult.outputFiles :=
         ["out/a.html"; "out/a.pdf"; "out/b.html"; "out/b.pdf";
          "out/d.html"; "out/d.pdf"] |}
  = length (concat (windows (batchSizeOf Demo.hostThreeCores)
                      ["a.md"; "b.md"; "c.md"; "d.md"]))
  /\ ProcessResult.outputFiles
       {| ProcessResult.filesProcessed := 3;
          ProcessResult.outputFiles :=
            ["out/a.html"; "out/a.pdf"; "out/b.html"; "out/b.pdf";
             "out/d.html"; "out/d.pdf"] |}
     = flat_map
         (fun file =>
            map (outputFileOf Demo.hostThreeCores
                   (Demo.withFormat "html,pdf" Demo.options) file)
              (formatsOf (Demo.withFormat "html,pdf" Demo.options)))
         (concat (windows (batchSizeOf Demo.hostThreeCores)
                    ["a.md"; "b.md"; "c.md"; "d.md"]))
  /\ length
       (ProcessResult.outputFiles
          {| ProcessResult.filesProcessed := 3;
             ProcessResult.outputFiles :=
               ["out/a.html"; "out/a.pdf"; "out/b.html"; "out/b.pdf";
                "out/d.html"; "out/d.pdf"] |})
     = ProcessResult.filesProcessed
         {| ProcessResult.filesProcessed := 3;
            ProcessResult.outputFiles :=
              ["out/a.html"; "out/a.pdf"; "out/b.html"; "out/b.pdf";
               "out/d.html"; "out/d.pdf"] |}
       * length (formatsOf (Demo.withFormat "html,pdf" Demo.options)).
Proof.
  apply (processing_result_closed_form Demo.hostThreeCores [1; 0; 1; 1; 0] "amatl"
           ["a.md"; "b.md"; "c.md"; "d.md"]
           (Demo.withFormat "html,pdf" Demo.options) []
           (fst (processMarkdownFiles Demo.hostThreeCores [1; 0; 1; 1; 0] "amatl"
                   ["a.md"; "b.md"; "c.md"; "d.md"]
                   (Demo.withFormat "html,pdf" Demo.options) []))).
  vm_compute. reflexivity.
Defined.

(** X16.  When the output directory can be created and no job fails, the
    call returns, and it has processed every file exactly when the files fit
    in one window, that is when there are at most [max(1, cpus - 1)] of
    them; in that case the output files are those of all the files, in the
    order of the list, after a single joint wait (none for an empty list).
    *)
Theorem every_file_processed_iff_fits
  (E : Externals) (sched : list nat) (amatlPath : string) (files : list string)
  (options : AmatlOptions.t) (t : Trace) :
  io_mkdirP E (AmatlOptions.outputDir options) = Ok tt ->
  (forall file, file ∈ files ->
     exists r, snd (interp E (processMarkdownFile E amatlPath file options) []) = Ok r) ->
  exists t' r,
    processMarkdownFiles E sched amatlPath files options t = (t', Ok r)
    /\ (ProcessResult.filesProcessed r = length files
        <-> (Z.of_nat (length files) <= Z.max 1 (Z.of_nat (cpus E) - 1))%Z)
    /\ ((Z.of_nat (length files) <= Z.max 1 (Z.of_nat (cpus E) - 1))%Z ->
        ProcessResult.outputFiles r =
          flat_map (fun file => map (outputFileOf E options file) (formatsOf options))
            files
        /\ jointWaits t' =
           jointWaits t ++ (if (0 <? length files)%nat then [length files] else [])).
Proof.
  intros Hdir Hok.
  assert (Hok' : forall file, file ∈ files ->
                   exists r, jobResult E amatlPath options file = Ok r).
  { intros file Hin. destruct (Hok file Hin) as [r Hr]. exists r.
    unfold jobResult. now rewrite <- (interp_outcome E _ []). }
  assert (Hmax : batchSizeOf E = Z.max 1 (Z.of_nat (cpus E) - 1)).
  { unfold batchSizeOf. destruct (Z.ltb_spec (Z.of_nat (cpus E) - 1) 1); lia. }
  rewrite <- Hmax.
  destruct (batchSizeOf_positive E) as [HK HK1].
  set (K := Z.to_nat (batchSizeOf E)) in *.
  unfold processMarkdownFiles. rewrite interp_await. cbn [perform callOf].
  rewrite Hdir.
  destruct (dispatch_total E amatlPath options (batchSizeOf E) files [] []
              {| ProcessResult.filesProcessed := 0; ProcessResult.outputFiles := [] |}
              sched (t ++ [Issued (CallMkdirP (AmatlOptions.outputDir options))])
              (JobsOf_nil E amatlPath options) Hok') as (t' & r & Hrun).
  exists t', r. split; [exact Hrun|].
  destruct (dispatch_returns E amatlPath options _ _ _ _ _ _ _ _ _
              (JobsOf_nil E amatlPath options) Hrun) as (Ho & Hn & Hw).
  cbn [ProcessResult.outputFiles ProcessResult.filesProcessed app] in Ho, Hn.
  split.
  - rewrite Hn. rewrite HK.
    destruct (windowsFrom_count K files [] HK1) as [Hc _]; [simpl; lia|].
    rewrite Hc. cbn [length]. rewrite Nat.add_0_r, Nat.add_0_l.
    split.
    + intros Heq.
      assert (Hq : length files / (K + 1) = 0).
      { pose proof (Nat.Div0.div_le_upper_bound (length files) (K + 1) (length files)).
        assert (length files / (K + 1) <= length files).
        { apply Nat.Div0.div_le_upper_bound. nia. }
        lia. }
      apply Nat.div_small_iff in Hq; lia.
    + intros Hfit. rewrite Nat.div_small; lia.
  - intros Hfit.
    rewrite (windowsFrom_fits (batchSizeOf E) files []) in Ho, Hw
      by (cbn [length]; lia).
    cbn [app] in Ho, Hw.
    destruct files as [|file rest].
    + cbn [length Nat.ltb Nat.leb map concat flat_map] in *.
      rewrite Ho. split; [reflexivity|].
      rewrite Hw, jointWaits_app. cbn. now rewrite !app_nil_r.
    + cbn [length Nat.ltb Nat.leb] in *.
      split.
      * rewrite Ho. cbn [map concat]. rewrite app_nil_r.
        pose proof (fulfilled_outputs E amatlPath options [file :: rest]) as Hf.
        cbn [map concat] in Hf. rewrite !app_nil_r in Hf.
        rewrite Hf; [reflexivity|]. exact Hok'.
      * rewrite Hw, jointWaits_app. cbn. now rewrite !app_nil_r.
Qed.

Lemma every_file_processed_iff_fits_witness :
  exists t' r,
    processMarkdownFiles Demo.hostThreeCores [1; 0; 0] "amatl" ["a.md"; "sub/b.md"]
      Demo.options [] = (t', Ok r)
    /\ (ProcessResult.filesProcessed r = 2
        <-> (Z.of_nat 2 <= Z.max 1 (Z.of_nat 3 - 1))%Z)
    /\ ((Z.of_nat 2 <= Z.max 1 (Z.of_nat 3 - 1))%Z ->
        ProcessResult.outputFiles r =
          flat_map (fun file => map (outputFileOf Demo.hostThreeCores Demo.options file)
                                  (formatsOf Demo.options))
            ["a.md"; "sub/b.md"]
        /\ jointWaits t' = jointWaits [] ++ [2]).
Proof.
  apply (every_file_processed_iff_fits Demo.hostThreeCores [1; 0; 0] "amatl"
           ["a.md"; "sub/b.md"] Demo.options []).
  - reflexivity.
  - intros file Hin.
    apply elem_of_cons in Hin. destruct Hin as [->|Hin];
      [eexists; vm_compute; reflexivity|].
    apply elem_of_cons in Hin. destruct Hin as [->|Hin];
      [eexists; vm_compute; reflexivity|].
    inversion Hin.
Defined.

(** X17.  Whatever the files, the options, the interleaving and the
    failures, the only commands a call spawns are the renderer at
    [amatlPath], with the argument list built for one of the given files and
    one of the requested formats; the only directories it creates are the
    output directory and the mirrored subdirectories of the given files; it
    issues no other library call and sets no output and no failure itself.
    *)
Theorem processing_spawns_only_renderer
  (E : Externals) (sched : list nat) (amatlPath : string) (files : list string)
  (options : AmatlOptions.t) (t : Trace) :
  exists added,
    fst (processMarkdownFiles E sched amatlPath files options t) = t ++ added
    /\ Forall (processingEvent E amatlPath options files) added.
Proof.
  unfold processMarkdownFiles. rewrite interp_await. cbn [perform callOf].
  assert (Hdir : processingEvent E amatlPath options files
                   (Issued (CallMkdirP (AmatlOptions.outputDir options)))).
  { cbn. now left. }
  destruct (io_mkdirP E (AmatlOptions.outputDir options)) as [[]|e].
  2:{ exists [Issued (CallMkdirP (AmatlOptions.outputDir options))].
      split; [reflexivity|now repeat constructor]. }
  destruct (dispatch_emits E amatlPath options
              (processingEvent E amatlPath options files) (batchSizeOf E) files []
              {| ProcessResult.filesProcessed := 0; ProcessResult.outputFiles := [] |}
              sched (t ++ [Issued (CallMkdirP (AmatlOptions.outputDir options))]))
    as (added & Ht & Hadded).
  - intros n. exact I.
  - constructor.
  - apply Forall_forall. intros file Hin.
    now apply processMarkdownFile_processing.
  - exists (Issued (CallMkdirP (AmatlOptions.outputDir options)) :: added).
    rewrite Ht, <- app_assoc. split; [reflexivity|now constructor].
Qed.

(** ** Discovery, line by line *)

Section DiscoveryTrace.
Context (E : Externals).

Lemma keepMatches_trace ignore matches t :
  interp E (keepMatches E (list_to_set (Js.split Js.newline_char ignore)) matches) t =
  (t ++ ignoredLines E ignore matches,
   Ok (filter (fun m => Path.relative (cwd E) (workspace E) m
                        ∉ (list_to_set (Js.split Js.newline_char ignore)
                            : gset string))
         matches)).
Proof.
  unfold ignoredLines. revert t.
  induction matches as [|m rest IH]; intros t; cbn [keepMatches].
  - cbn [interp]. now rewrite app_nil_r.
  - destruct (decide (Path.relative (cwd E) (workspace E) m
                      ∈ (list_to_set (Js.split Js.newline_char ignore) : gset string)))
      as [Hin|Hout].
    + rewrite bool_decide_eq_true_2 by exact Hin. cbn [interp]. rewrite IH.
      rewrite filter_cons_True by exact Hin.
      rewrite filter_cons_False by (intros H; now apply H).
      cbn [map]. now rewrite <- app_assoc.
    + rewrite bool_decide_eq_false_2 by exact Hout.
      rewrite mbind_prog, interp_bind, IH. cbn [interp].
      rewrite filter_cons_False by exact Hout.
      now rewrite filter_cons_True by exact Hout.
Qed.

Lemma searchPatterns_trace ignore patterns files t :
  interp E (searchPatterns E (list_to_set (Js.split Js.newline_char ignore))
              patterns files) t =
  (t ++ flat_map (searchEvents E ignore) patterns,
   Ok (files ++ concat (map (keptMatches E ignore) patterns))).
Proof.
  revert files t. induction patterns as [|pattern rest IH]; intros files t.
  - cbn [searchPatterns interp flat_map map concat]. now rewrite !app_nil_r.
  - cbn [searchPatterns interp].
    rewrite mbind_prog, interp_bind, interp_await. cbn [perform callOf].
    rewrite mbind_prog, interp_bind, keepMatches_trace, IH.
    cbn [flat_map map concat]. unfold searchEvents at 2, keptMatches at 2.
    now rewrite <- !app_assoc.
Qed.

End DiscoveryTrace.

(** The whole of a discovery. *)
Lemma findMarkdownFiles_trace (E : Externals) (patterns ignore : string) (t : Trace) :
  interp E (findMarkdownFiles E patterns ignore) t =
  (t ++ flat_map (searchEvents E ignore) (Js.split Js.newline_char patterns)
     ++ [LogInfo ("Found "
                  +:+ pretty (length (discoverySpec E patterns ignore))
                  +:+ " markdown files")],
   Ok (discoverySpec E patterns ignore)).
Proof.
  unfold findMarkdownFiles.
  rewrite mbind_prog, interp_bind, searchPatterns_trace.
  cbn [app interp]. fold (discoverySpec E patterns ignore).
  now rewrite <- app_assoc.
Qed.

(** X18.  Whenever a discovery returns a list of files, this is all it has
    done: for each line of the patterns input, in order, it has logged the
    pattern, issued one [glob] call, and logged one line per match dropped
    because its path relative to the workspace is a line of the ignore
    input; it has ended with a line that gives the number of files it
    returns.  It has issued no other call. *)
Theorem discovery_trace
  (E : Externals) (patterns ignore : string) (t : Trace) (files : list string) :
  snd (interp E (findMarkdownFiles E patterns ignore) t) = Ok files ->
  fst (interp E (findMarkdownFiles E patterns ignore) t) =
  t ++ flat_map
         (fun pattern =>
            [LogInfo ("Searching for markdown files with pattern: " +:+ pattern);
             Issued (CallGlob pattern globOptions)]
            ++ map (fun m => LogInfo ("Ignoring markdown file '"
                                      +:+ Path.relative (cwd E) (workspace E) m
                                      +:+ "'"))
                 (filter
                    (fun m => Path.relative (cwd E) (workspace E) m
                              ∈ (list_to_set (Js.split Js.newline_char ignore)
                                  : gset string))
                    (glob E pattern globOptions)))
         (Js.split Js.newline_char patterns)
    ++ [LogInfo ("Found " +:+ pretty (length files) +:+ " markdown files")].
Proof.
  rewrite findMarkdownFiles_trace. cbn [fst snd]. now intros [= <-].
Qed.

Lemma discovery_trace_witness :
  fst (interp Demo.host
         (findMarkdownFiles Demo.host ("*.md" +:+ Js.newline +:+ "**/*.md")
            "sub/b.md") []) =
  [LogInfo "Searching for markdown files with pattern: *.md";
   Issued (CallGlob "*.md" globOptions);
   LogInfo "Searching for markdown files with pattern: **/*.md";
   Issued (CallGlob "**/*.md" globOptions);
   LogInfo "Ignoring markdown file 'sub/b.md'";
   LogInfo "Found 2 markdown files"].
Proof.
  rewrite (discovery_trace Demo.host ("*.md" +:+ Js.newline +:+ "**/*.md")
             "sub/b.md" [] ["a.md"; "a.md"]); reflexivity.
Defined.

(** ** The whole run *)

Section RunFacts.
Context (E : Externals).

Lemma logGenerated_trace files t :
  logGenerated files t =
  (t ++ map (fun file => LogInfo ("Generated: " +:+ file)) files, Ok tt).
Proof.
  revert t. induction files as [|file rest IH]; intros t; cbn [logGenerated map].
  - now rewrite app_nil_r.
  - rewrite m_bind_unfold. unfold say at 1. rewrite IH.
    now rewrite <- app_assoc.
Qed.

(** The paths through [run]. *)
Lemma run_cases sched t :
  let options := readOptions E in
  run E sched t =
  match validateInputs options with
  | Err e => (t ++ optionLines options) ++ [SetFailed (failureMessage e)]
  | Ok _ =>
      match interp E (installAmatl E (AmatlOptions.version options))
              (t ++ optionLines options) with
      | (t1, Err e) => t1 ++ [SetFailed (failureMessage e)]
      | (t1, Ok amatLPath) =>
          match interp E (findMarkdownFiles E (AmatlOptions.patterns options)
                            (AmatlOptions.ignore options)) t1 with
          | (t2, Err e) => t2 ++ [SetFailed (failureMessage e)]
          | (t2, Ok markdownFiles) =>
              if (length markdownFiles =? 0)%nat then
                t2 ++ [LogWarning "No markdown files found matching the patterns";
                       SetOutput "files-processed" "0";
                       SetOutput "output-files" "[]"]
              else
                match processMarkdownFiles E sched amatLPath markdownFiles options t2
                with
                | (t3, Err e) => t3 ++ [SetFailed (failureMessage e)]
                | (t3, Ok result) =>
                    t3 ++ [SetOutput "files-processed"
                             (pretty (ProcessResult.filesProcessed result));
                           SetOutput "output-files"
                             (Js.JSON_stringify (ProcessResult.outputFiles result));
                           LogInfo ("Successfully processed "
                                    +:+ pretty (ProcessResult.filesProcessed result)
                                    +:+ " files");
                           LogInfo ("Generated "
                                    +:+ pretty (length (ProcessResult.outputFiles result))
                                    +:+ " output files")]
                       ++ map (fun file => LogInfo ("Generated: " +:+ file))
                            (ProcessResult.outputFiles result)
                end
          end
      end
  end.
Proof.
  intros options. unfold run, runBody. fold options.
  rewrite m_bind_unfold. unfold sayAll at 1.
  rewrite m_bind_unfold. unfold liftResult at 1.
  destruct (validateInputs options) as [[]|e]; [|now destruct e].
  rewrite m_bind_unfold.
  destruct (interp E (installAmatl E (AmatlOptions.version options))
              (t ++ optionLines options)) as [t1 [amatLPath|e]]; [|now destruct e].
  rewrite m_bind_unfold.
  destruct (interp E (findMarkdownFiles E (AmatlOptions.patterns options)
                        (AmatlOptions.ignore options)) t1)
    as [t2 [markdownFiles|e]]; [|now destruct e].
  destruct (length markdownFiles =? 0)%nat.
  - unfold say, mret, m_ret, mbind, m_bind. cbn beta iota.
    now rewrite <- !app_assoc.
  - rewrite m_bind_unfold.
    destruct (processMarkdownFiles E sched amatLPath markdownFiles options t2)
      as [t3 [result|e]]; [|now destruct e].
    rewrite m_bind_unfold. unfold say at 1.
    rewrite m_bind_unfold. unfold say at 1.
    rewrite m_bind_unfold. unfold say at 1.
    rewrite m_bind_unfold. unfold say at 1.
    rewrite logGenerated_trace. now rewrite <- !app_assoc.
Qed.

Lemma reportsOf_app t1 t2 : reportsOf (t1 ++ t2) = reportsOf t1 ++ reportsOf t2.
Proof.
  induction t1 as [|ev t1 IH]; [reflexivity|].
  destruct ev; cbn [app reportsOf]; now rewrite IH.
Qed.

Lemma reportsOf_quiet added : Forall quiet added -> reportsOf added = [].
Proof.
  induction 1 as [|ev added Hev _ IH]; [reflexivity|].
  destruct ev; cbn [reportsOf quiet] in *; auto; contradiction.
Qed.

Lemma isLog_quiet ev : isLog ev -> quiet ev.
Proof. now destruct ev. Qed.

Lemma processingEvent_quiet amatlPath options files ev :
  processingEvent E amatlPath options files ev -> quiet ev.
Proof. now destruct ev. Qed.

Lemma optionLines_quiet options : Forall quiet (optionLines options).
Proof. unfold optionLines. repeat constructor. Qed.

Lemma outputsOf_quiet t added :
  Forall quiet added -> outputsOf (t ++ added) = outputsOf t.
Proof.
  intros Hq. unfold outputsOf. rewrite fold_left_app.
  generalize (fold_left
                (fun outputs ev =>
                   match ev with
                   | SetOutput name value => <[name := value]> outputs
                   | _ => outputs
                   end) t (∅ : gmap string string)).
  induction Hq as [|ev added Hev _ IH]; intros outputs; [reflexivity|].
  cbn [fold_left]. destruct ev; cbn [quiet] in Hev; try contradiction; apply IH.
Qed.

(** What the processing adds to the trace reports nothing. *)
Lemma processing_emits_quiet sched amatlPath files options t :
  exists added,
    fst (processMarkdownFiles E sched amatlPath files options t) = t ++ added
    /\ Forall quiet added.
Proof.
  unfold processMarkdownFiles. rewrite interp_await. cbn [perform callOf].
  destruct (io_mkdirP E (AmatlOptions.outputDir options)) as [[]|e].
  2:{ exists [Issued (CallMkdirP (AmatlOptions.outputDir options))].
      split; [reflexivity|now repeat constructor]. }
  destruct (dispatch_emits E amatlPath options quiet (batchSizeOf E) files []
              {| ProcessResult.filesProcessed := 0; ProcessResult.outputFiles := [] |}
              sched (t ++ [Issued (CallMkdirP (AmatlOptions.outputDir options))]))
    as (added & Ht & Hadded).
  - intros n. exact I.
  - constructor.
  - apply Forall_forall. intros file _.
    apply (Emits_weaken isLog quiet); [exact isLog_quiet|].
    apply processMarkdownFile_logs.
  - exists (Issued (CallMkdirP (AmatlOptions.outputDir options)) :: added).
    rewrite Ht, <- app_assoc. split; [reflexivity|now constructor].
Qed.

End RunFacts.

(** X19.  When [validateInputs] throws, [run] logs its option lines, reports
    the message of the error with [core.setFailed] and does nothing else:
    nothing is looked up in the cache, downloaded, searched or rendered, and
    no output is set.  In particular an empty [patterns] input fails the run
    with ["Patterns is required"]. *)
Theorem run_rejects_invalid_inputs
  (E : Externals) (sched : list nat) (t : Trace) :
  (forall e,
     validateInputs (readOptions E) = Err e ->
     run E sched t =
     t ++ optionLines (readOptions E) ++ [SetFailed (failureMessage e)])
  /\ (getInput E "patterns" = EmptyString ->
      run E sched t =
      t ++ optionLines (readOptions E) ++ [SetFailed "Patterns is required"])
  /\ (getInput E "patterns" <> EmptyString ->
      getInput E "output-dir" = EmptyString ->
      run E sched t =
      t ++ optionLines (readOptions E) ++ [SetFailed "Output directory is required"]).
Proof.
  assert (Hgen : forall e,
            validateInputs (readOptions E) = Err e ->
            run E sched t =
            t ++ optionLines (readOptions E) ++ [SetFailed (failureMessage e)]).
  { intros e Hinvalid. rewrite run_cases. cbv zeta. rewrite Hinvalid.
    now rewrite <- app_assoc. }
  split; [exact Hgen|]. split.
  - intros Hempty.
    apply (Hgen (newError "Patterns is required")).
    unfold validateInputs, readOptions. cbn [AmatlOptions.patterns].
    now rewrite Hempty.
  - intros Hpatterns Hempty.
    apply (Hgen (newError "Output directory is required")).
    unfold validateInputs, readOptions.
    cbn [AmatlOptions.patterns AmatlOptions.outputDir].
    rewrite Hempty.
    destruct (getInput E "patterns"); [congruence|reflexivity].
Qed.

Lemma run_rejects_invalid_inputs_witness :
  run (Hosts.withInput "format" "html,docx" Demo.host) [] [] =
  [] ++ optionLines (readOptions (Hosts.withInput "format" "html,docx" Demo.host))
     ++ [SetFailed "Invalid format: docx. Supported formats: html, pdf, markdown, both"]
  /\ run (Hosts.withInput "patterns" EmptyString Demo.host) [] [] =
     [] ++ optionLines (readOptions (Hosts.withInput "patterns" EmptyString Demo.host))
        ++ [SetFailed "Patterns is required"]
  /\ run (Hosts.withInput "output-dir" EmptyString Demo.host) [] [] =
     [] ++ optionLines (readOptions (Hosts.withInput "output-dir" EmptyString Demo.host))
        ++ [SetFailed "Output directory is required"].
Proof.
  split; [|split].
  - apply (proj1 (run_rejects_invalid_inputs
                    (Hosts.withInput "format" "html,docx" Demo.host) [] [])
             (newError
                "Invalid format: docx. Supported formats: html, pdf, markdown, both")).
    reflexivity.
  - apply (proj1 (proj2 (run_rejects_invalid_inputs
                           (Hosts.withInput "patterns" EmptyString Demo.host) [] []))).
    reflexivity.
  - apply (proj2 (proj2 (run_rejects_invalid_inputs
                           (Hosts.withInput "output-dir" EmptyString Demo.host) [] []))).
    + discriminate.
    + reflexivity.
Defined.

(** X20.  Whatever the inputs, the host, the interleaving and the failures,
    a run reports exactly once: either it calls [core.setFailed] once and
    sets no output, or it sets the two outputs [files-processed] and
    [output-files], once each and in this order, and reports no failure. *)
Theorem run_reports_once (E : Externals) (sched : list nat) (t : Trace) :
  exists added,
    run E sched t = t ++ added
    /\ ((exists message, reportsOf added = [SetFailed message])
        \/ (exists count paths,
              reportsOf added =
              [SetOutput "files-processed" count; SetOutput "output-files" paths])).
Proof.
  rewrite run_cases. cbv zeta.
  set (options := readOptions E).
  pose proof (optionLines_quiet options) as Hq0.
  destruct (validateInputs options) as [[]|e].
  2:{ exists (optionLines options ++ [SetFailed (failureMessage e)]).
      rewrite <- app_assoc. split; [reflexivity|]. left.
      exists (failureMessage e).
      now rewrite reportsOf_app, (reportsOf_quiet _ Hq0). }
  destruct (Emits_interp E isLog _ (t ++ optionLines options)
              (installAmatl_logs E (AmatlOptions.version options)))
    as (a1 & H1 & Hlog1).
  assert (Hq1 : Forall quiet a1).
  { eapply Forall_impl; [exact Hlog1|exact isLog_quiet]. }
  destruct (interp E (installAmatl E (AmatlOptions.version options))
              (t ++ optionLines options)) as [t1 [amatLPath|e]];
    cbn [fst] in H1; subst t1.
  2:{ exists (optionLines options ++ a1 ++ [SetFailed (failureMessage e)]).
      rewrite <- !app_assoc. split; [reflexivity|]. left.
      exists (failureMessage e).
      now rewrite !reportsOf_app, (reportsOf_quiet _ Hq0), (reportsOf_quiet _ Hq1). }
  destruct (Emits_interp E isLog _ ((t ++ optionLines options) ++ a1)
              (findMarkdownFiles_logs E (AmatlOptions.patterns options)
                 (AmatlOptions.ignore options)))
    as (a2 & H2 & Hlog2).
  assert (Hq2 : Forall quiet a2).
  { eapply Forall_impl; [exact Hlog2|exact isLog_quiet]. }
  destruct (interp E (findMarkdownFiles E (AmatlOptions.patterns options)
                        (AmatlOptions.ignore options))
              ((t ++ optionLines options) ++ a1)) as [t2 [markdownFiles|e]];
    cbn [fst] in H2; subst t2.
  2:{ exists (optionLines options ++ a1 ++ a2 ++ [SetFailed (failureMessage e)]).
      rewrite <- !app_assoc. split; [reflexivity|]. left.
      exists (failureMessage e).
      now rewrite !reportsOf_app, (reportsOf_quiet _ Hq0), (reportsOf_quiet _ Hq1),
        (reportsOf_quiet _ Hq2). }
  destruct (length markdownFiles =? 0)%nat.
  { eexists (optionLines options ++ a1 ++ a2 ++ [_; _; _]).
    rewrite <- !app_assoc. split; [reflexivity|]. right.
    exists "0", "[]".
    now rewrite !reportsOf_app, (reportsOf_quiet _ Hq0), (reportsOf_quiet _ Hq1),
      (reportsOf_quiet _ Hq2). }
  destruct (processing_emits_quiet E sched amatLPath markdownFiles options
              (((t ++ optionLines options) ++ a1) ++ a2)) as (a3 & H3 & Hq3).
  destruct (processMarkdownFiles E sched amatLPath markdownFiles options
              (((t ++ optionLines options) ++ a1) ++ a2)) as [t3 [result|e]];
    cbn [fst] in H3; subst t3.
  - eexists (optionLines options ++ a1 ++ a2 ++ a3 ++ [_; _; _; _] ++ _).
    rewrite <- !app_assoc. split; [reflexivity|]. right.
    exists (pretty (ProcessResult.filesProcessed result)),
      (Js.JSON_stringify (ProcessResult.outputFiles result)).
    rewrite !reportsOf_app, (reportsOf_quiet _ Hq0), (reportsOf_quiet _ Hq1),
      (reportsOf_quiet _ Hq2), (reportsOf_quiet _ Hq3).
    cbn [app reportsOf]. rewrite reportsOf_quiet; [reflexivity|].
    apply Forall_map, Forall_forall. intros file _. exact I.
  - exists (optionLines options ++ a1 ++ a2 ++ a3 ++ [SetFailed (failureMessage e)]).
    rewrite <- !app_assoc. split; [reflexivity|]. left.
    exists (failureMessage e).
    now rewrite !reportsOf_app, (reportsOf_quiet _ Hq0), (reportsOf_quiet _ Hq1),
      (reportsOf_quiet _ Hq2), (reportsOf_quiet _ Hq3).
Qed.

(** X21.  When the inputs are valid, the installation succeeds, at least one
    file is found and the processing returns, [run] sets [files-processed]
    to the decimal count and [output-files] to the JSON array of the output
    paths, then logs the two summary lines and one ["Generated: "] line per
    output path, in order; no failure is reported. *)
Theorem run_reports_results
  (E : Externals) (sched : list nat) (t t1 t2 t3 : Trace) (amatLPath : string)
  (markdownFiles : list string) (result : ProcessResult.t) :
  let options := readOptions E in
  validateInputs options = Ok tt ->
  interp E (installAmatl E (AmatlOptions.version options))
    (t ++ optionLines options) = (t1, Ok amatLPath) ->
  interp E (findMarkdownFiles E (AmatlOptions.patterns options)
              (AmatlOptions.ignore options)) t1 = (t2, Ok markdownFiles) ->
  markdownFiles <> [] ->
  processMarkdownFiles E sched amatLPath markdownFiles options t2 = (t3, Ok result) ->
  run E sched t =
    t3 ++ [SetOutput "files-processed" (pretty (ProcessResult.filesProcessed result));
           SetOutput "output-files"
             (Js.JSON_stringify (ProcessResult.outputFiles result));
           LogInfo ("Successfully processed "
                    +:+ pretty (ProcessResult.filesProcessed result) +:+ " files");
           LogInfo ("Generated "
                    +:+ pretty (length (ProcessResult.outputFiles result))
                    +:+ " output files")]
       ++ map (fun file => LogInfo ("Generated: " +:+ file))
            (ProcessResult.outputFiles result)
  /\ outputsOf (run E sched t) !! "files-processed"
     = Some (pretty (ProcessResult.filesProcessed result))
  /\ outputsOf (run E sched t) !! "output-files"
     = Some (Js.JSON_stringify (ProcessResult.outputFiles result))
  /\ reportsOf (run E sched t) =
     reportsOf t
     ++ [SetOutput "files-processed" (pretty (ProcessResult.filesProcessed result));
         SetOutput "output-files"
           (Js.JSON_stringify (ProcessResult.outputFiles result))].
Proof.
  intros options Hvalid Hinstall Hfind Hsome Hprocess.
  assert (Hrun : run E sched t =
            t3 ++ [SetOutput "files-processed"
                     (pretty (ProcessResult.filesProcessed result));
                   SetOutput "output-files"
                     (Js.JSON_stringify (ProcessResult.outputFiles result));
                   LogInfo ("Successfully processed "
                            +:+ pretty (ProcessResult.filesProcessed result)
                            +:+ " files");
                   LogInfo ("Generated "
                            +:+ pretty (length (ProcessResult.outputFiles result))
                            +:+ " output files")]
               ++ map (fun file => LogInfo ("Generated: " +:+ file))
                    (ProcessResult.outputFiles result)).
  { rewrite run_cases. cbv zeta. fold options.
    rewrite Hvalid, Hinstall, Hfind.
    destruct markdownFiles as [|file rest]; [congruence|].
    cbn [length Nat.eqb]. now rewrite Hprocess. }
  assert (Hlines : Forall quiet
            ([LogInfo ("Successfully processed "
                       +:+ pretty (ProcessResult.filesProcessed result) +:+ " files");
              LogInfo ("Generated "
                       +:+ pretty (length (ProcessResult.outputFiles result))
                       +:+ " output files")]
             ++ map (fun file => LogInfo ("Generated: " +:+ file))
                  (ProcessResult.outputFiles result))).
  { apply Forall_app_2; [repeat constructor|].
    apply Forall_map, Forall_forall. intros file _. exact I. }
  assert (Hshape : run E sched t =
            ((t3 ++ [SetOutput "files-processed"
                       (pretty (ProcessResult.filesProcessed result))])
               ++ [SetOutput "output-files"
                     (Js.JSON_stringify (ProcessResult.outputFiles result))])
            ++ ([LogInfo ("Successfully processed "
                          +:+ pretty (ProcessResult.filesProcessed result)
                          +:+ " files");
                 LogInfo ("Generated "
                          +:+ pretty (length (ProcessResult.outputFiles result))
                          +:+ " output files")]
                ++ map (fun file => LogInfo ("Generated: " +:+ file))
                     (ProcessResult.outputFiles result))).
  { rewrite Hrun. now rewrite <- !app_assoc. }
  split; [exact Hrun|].
  rewrite Hshape. clear Hrun Hshape.
  rewrite (outputsOf_quiet _ _ Hlines), !outputsOf_snoc.
  split; [now rewrite lookup_insert_ne, lookup_insert_eq|].
  split; [now rewrite lookup_insert_eq|].
  rewrite reportsOf_app, (reportsOf_quiet _ Hlines), app_nil_r, !reportsOf_app.
  cbn [reportsOf]. rewrite <- app_assoc. cbn [app]. f_equal.
  (* what was added before the outputs reports nothing *)
  destruct (Emits_interp E isLog _ (t ++ optionLines options)
              (installAmatl_logs E (AmatlOptions.version options)))
    as (a1 & H1 & Hlog1).
  rewrite Hinstall in H1. cbn [fst] in H1.
  destruct (Emits_interp E isLog _ t1
              (findMarkdownFiles_logs E (AmatlOptions.patterns options)
                 (AmatlOptions.ignore options)))
    as (a2 & H2 & Hlog2).
  rewrite Hfind in H2. cbn [fst] in H2.
  destruct (processing_emits_quiet E sched amatLPath markdownFiles options t2)
    as (a3 & H3 & Hq3).
  rewrite Hprocess in H3. cbn [fst] in H3.
  rewrite H3, H2, H1, !reportsOf_app.
  rewrite (reportsOf_quiet _ (optionLines_quiet options)), (reportsOf_quiet _ Hq3).
  rewrite (reportsOf_quiet a1), (reportsOf_quiet a2), !app_nil_r; [reflexivity| |].
  - eapply Forall_impl; [exact Hlog2|exact isLog_quiet].
  - eapply Forall_impl; [exact Hlog1|exact isLog_quiet].
Qed.

Lemma run_reports_results_witness :
  outputsOf (run Demo.hostThreeCores [0; 1; 0]
               (LogInfo "::group::amatl" :: [])) !! "files-processed"
    = Some "1"
  /\ outputsOf (run Demo.hostThreeCores [0; 1; 0]
                  (LogInfo "::group::amatl" :: [])) !! "output-files"
     = Some (Js.JSON_stringify ["out/a.html"]).
Proof.
  destruct (run_reports_results Demo.hostThreeCores [0; 1; 0]
              [LogInfo "::group::amatl"]
              (fst (interp Demo.hostThreeCores
                      (installAmatl Demo.hostThreeCores "latest")
                      ([LogInfo "::group::amatl"]
                       ++ optionLines (readOptions Demo.hostThreeCores))))
              (fst (interp Demo.hostThreeCores
                      (findMarkdownFiles Demo.hostThreeCores "*.md" EmptyString)
                      (fst (interp Demo.hostThreeCores
                              (installAmatl Demo.hostThreeCores "latest")
                              ([LogInfo "::group::amatl"]
                               ++ optionLines (readOptions Demo.hostThreeCores))))))
              (fst (processMarkdownFiles Demo.hostThreeCores [0; 1; 0]
                      "/tools/amatl/amatl" ["a.md"] (readOptions Demo.hostThreeCores)
                      (fst (interp Demo.hostThreeCores
                              (findMarkdownFiles Demo.hostThreeCores "*.md" EmptyString)
                              (fst (interp Demo.hostThreeCores
                                      (installAmatl Demo.hostThreeCores "latest")
                                      ([LogInfo "::group::amatl"]
                                       ++ optionLines
                                            (readOptions Demo.hostThreeCores))))))))
              "/tools/amatl/amatl" ["a.md"]
              {| ProcessResult.filesProcessed := 1;
                 ProcessResult.outputFiles := ["out/a.html"] |})
    as (_ & Hcount & Hpaths & _).
  - reflexivity.
  - vm_compute. reflexivity.
  - vm_compute. reflexivity.
  - discriminate.
  - vm_compute. reflexivity.
  - split; [exact Hcount|exact Hpaths].
Defined.

(** X22.  When the installation fails, [run] searches and renders nothing
    and reports the failure; when the processing fails, it reports the
    failure and sets no output.  The text reported is the [message] of the
    thrown [Error] (without its name), and ["An unknown error occurred"] for
    a thrown value that is not an [Error]. *)
Theorem run_reports_failure
  (E : Externals) (sched : list nat) (t t1 : Trace) (e : JsError) :
  let options := readOptions E in
  validateInputs options = Ok tt ->
  (interp E (installAmatl E (AmatlOptions.version options))
     (t ++ optionLines options) = (t1, Err e) ->
   run E sched t =
   t1 ++ [SetFailed (match e with
                     | JsErr _ message => message
                     | JsThrown _ => "An unknown error occurred"
                     end)])
  /\ (forall amatLPath t2 t3 markdownFiles,
        interp E (installAmatl E (AmatlOptions.version options))
          (t ++ optionLines options) = (t1, Ok amatLPath) ->
        interp E (findMarkdownFiles E (AmatlOptions.patterns options)
                    (AmatlOptions.ignore options)) t1 = (t2, Ok markdownFiles) ->
        markdownFiles <> [] ->
        processMarkdownFiles E sched amatLPath markdownFiles options t2 = (t3, Err e) ->
        run E sched t =
        t3 ++ [SetFailed (match e with
                          | JsErr _ message => message
                          | JsThrown _ => "An unknown error occurred"
                          end)]
        /\ outputsOf (run E sched t) = outputsOf t).
Proof.
  intros options Hvalid. split.
  - intros Hinstall. rewrite run_cases. cbv zeta. fold options.
    now rewrite Hvalid, Hinstall.
  - intros amatLPath t2 t3 markdownFiles Hinstall Hfind Hsome Hprocess.
    assert (Hrun : run E sched t = t3 ++ [SetFailed (failureMessage e)]).
    { rewrite run_cases. cbv zeta. fold options.
      rewrite Hvalid, Hinstall, Hfind.
      destruct markdownFiles as [|file rest]; [congruence|].
      cbn [length Nat.eqb]. now rewrite Hprocess. }
    split; [exact Hrun|].
    rewrite Hrun, outputsOf_snoc.
    destruct (Emits_interp E isLog _ (t ++ optionLines options)
                (installAmatl_logs E (AmatlOptions.version options)))
      as (a1 & H1 & Hlog1).
    rewrite Hinstall in H1. cbn [fst] in H1.
    destruct (Emits_interp E isLog _ t1
                (findMarkdownFiles_logs E (AmatlOptions.patterns options)
                   (AmatlOptions.ignore options)))
      as (a2 & H2 & Hlog2).
    rewrite Hfind in H2. cbn [fst] in H2.
    destruct (processing_emits_quiet E sched amatLPath markdownFiles options t2)
      as (a3 & H3 & Hq3).
    rewrite Hprocess in H3. cbn [fst] in H3.
    rewrite H3, H2, H1.
    rewrite (outputsOf_quiet _ _ Hq3).
    rewrite (outputsOf_quiet _ a2)
      by (eapply Forall_impl; [exact Hlog2|exact isLog_quiet]).
    rewrite (outputsOf_quiet _ a1)
      by (eapply Forall_impl; [exact Hlog1|exact isLog_quiet]).
    apply outputsOf_quiet, optionLines_quiet.
Qed.

Lemma run_reports_failure_witness :
  run Demo.hostBsd [] [] =
  optionLines (readOptions Demo.hostBsd)
  ++ [LogInfo "Installing amatl version: latest";
      SetFailed "Unsupported platform: freebsd"].
Proof.
  rewrite (proj1 (run_reports_failure Demo.hostBsd [] []
                    (optionLines (readOptions Demo.hostBsd)
                     ++ [LogInfo "Installing amatl version: latest"])
                    (newError "Unsupported platform: freebsd") eq_refl) eq_refl).
  now rewrite <- app_assoc.
Defined.
